(** * batch_process.py: discovery, ROI selection and the batch loop

    A shallow embedding of [batch_process.py] (the batch driver of mtf.py)
    and of the parts of the Python standard library it calls
    ([posixpath.join], [posixpath.split], [str.split], [sorted],
    [fnmatch], [glob.glob] with [recursive=True]), followed by the
    properties of the discovery step, of the ROI selector and of the
    per-image loop.

    Conventions.
    - Paths are byte strings ([string]); the separator [os.sep] is "/"
      (POSIX), so [fnmatch] does no case folding.
    - The directory tree found at the root of the scan is an inductive
      tree whose listings are association lists in [os.scandir] order.
    - The collaborators of module [mtf] (decoding, curve computation, curve
      evaluation) are parameters that return a value or raise.
    - Effects are explicit: a computation yields the events it emitted and
      an outcome (returned, raised, or blocked in [plt.show()]).
    - [sys.stdout] is a parameter as well: the [print] of the loop hands
      it a line, which it takes or refuses by raising. The two messages
      of the confirm button are printed inside a callback of the figure
      and are modelled by their text.
    - A selector is used as [get_roi] uses it: [select_roi] is called on
      the open figure that [__init__] made. *)

From Stdlib Require Import List String Ascii Bool Arith ZArith QArith Lia.
From Stdlib Require Import Sorting.Sorted Sorting.Permutation.
From Stdlib Require Import DecimalString.
Import ListNotations.

Open Scope nat_scope.
Open Scope string_scope.
Open Scope list_scope.

(* ================================================================== *)
(** ** Python strings *)

Module Str.

(** [s.startswith(c)] and [s.endswith(c)] for a one-character [c]. *)
Definition startswith_char (c : ascii) (s : string) : bool :=
  match s with
  | EmptyString => false
  | String a _ => Ascii.eqb a c
  end.

Fixpoint endswith_char (c : ascii) (s : string) : bool :=
  match s with
  | EmptyString => false
  | String a EmptyString => Ascii.eqb a c
  | String _ s' => endswith_char c s'
  end.

(** [s.endswith(suffix)]. *)
Fixpoint endswith (s suffix : string) : bool :=
  String.eqb s suffix ||
  match s with
  | EmptyString => false
  | String _ s' => endswith s' suffix
  end.

(** [c in s]. *)
Fixpoint contains_char (c : ascii) (s : string) : bool :=
  match s with
  | EmptyString => false
  | String a s' => Ascii.eqb a c || contains_char c s'
  end.

(** Number of occurrences of [c] in [s]. *)
Fixpoint count_char (c : ascii) (s : string) : nat :=
  match s with
  | EmptyString => 0
  | String a s' => (if Ascii.eqb a c then 1 else 0) + count_char c s'
  end.

(** [s.split(c)] for a one-character separator: never empty, one more
    piece than there are separators. *)
Fixpoint split (c : ascii) (s : string) : list string :=
  match s with
  | EmptyString => [EmptyString]
  | String a s' =>
      if Ascii.eqb a c then EmptyString :: split c s'
      else match split c s' with
           | [] => [String a EmptyString]
           | piece :: pieces => String a piece :: pieces
           end
  end.

(** [s.rstrip(c)]. *)
Fixpoint rstrip (c : ascii) (s : string) : string :=
  match s with
  | EmptyString => EmptyString
  | String a s' =>
      match rstrip c s' with
      | EmptyString => if Ascii.eqb a c then EmptyString else String a EmptyString
      | r => String a r
      end
  end.

(** [s == c * len(s)]. *)
Fixpoint all_char (c : ascii) (s : string) : bool :=
  match s with
  | EmptyString => true
  | String a s' => Ascii.eqb a c && all_char c s'
  end.

(** [c.join(pieces)]. *)
Fixpoint join (c : ascii) (pieces : list string) : string :=
  match pieces with
  | [] => EmptyString
  | [p] => p
  | p :: ps => p ++ String c (join c ps)
  end.

(** The order of [str] comparison ([<=] on code points). *)
Definition le (a b : string) : Prop := String.leb a b = true.

End Str.

(* ================================================================== *)
(** ** posixpath *)

Module Posixpath.

Definition sep : ascii := "/"%char.

(** [posixpath.join(a, b)]. *)
Definition join (a b : string) : string :=
  if Str.startswith_char sep b then b
  else if (String.eqb a "" || Str.endswith_char sep a)%bool then a ++ b
  else a ++ String sep b.

(** [posixpath.join(a, b, c)]: the same step, folded over the parts. *)
Definition join3 (a b c : string) : string := join (join a b) c.

(** [p[:i], p[i:]] with [i = p.rfind(sep) + 1]: the part up to and
    including the last separator, and the rest. *)
Fixpoint cut_last_sep (p : string) : string * string :=
  match p with
  | EmptyString => (EmptyString, EmptyString)
  | String a p' =>
      let '(head, tail) := cut_last_sep p' in
      if Ascii.eqb a sep then (String a head, tail)
      else match head with
           | EmptyString => (EmptyString, String a tail)
           | _ => (String a head, tail)
           end
  end.

(** [posixpath.split(p)]. *)
Definition split (p : string) : string * string :=
  let '(head, tail) := cut_last_sep p in
  if (negb (String.eqb head "") && negb (Str.all_char sep head))%bool
  then (Str.rstrip sep head, tail)
  else (head, tail).

End Posixpath.

(* ================================================================== *)
(** ** fnmatch *)

Module Fnmatch.

(** The pieces [fnmatch.translate] cuts a shell pattern into. Character
    ranges ([a-z]) and backslash escapes inside brackets are not
    modelled: no pattern of the program uses them. *)
Inductive token : Type :=
| Star
| AnyChar
| OneOf (negated : bool) (members : list ascii)
| Lit (c : ascii).

Definition plain_token (c : ascii) : token :=
  if Ascii.eqb c "*" then Star
  else if Ascii.eqb c "?" then AnyChar
  else Lit c.

Definition set_token (content : list ascii) : token :=
  match content with
  | c :: rest => if Ascii.eqb c "!" then OneOf true rest else OneOf false content
  | [] => OneOf false []
  end.

(** A bracket closes at the first "]" that is not the first member. *)
Definition closes (content : list ascii) : bool :=
  match content with
  | [] => false
  | [c] => negb (Ascii.eqb c "!")
  | _ => true
  end.

(** [open_set] holds the members read since an unclosed "[". A bracket
    that is never closed is a literal "[". *)
Fixpoint translate_from (open_set : option (list ascii)) (pat : string)
  : list token :=
  match pat, open_set with
  | EmptyString, None => []
  | EmptyString, Some content => Lit "[" :: map plain_token content
  | String c pat', None =>
      if Ascii.eqb c "[" then translate_from (Some []) pat'
      else plain_token c :: translate_from None pat'
  | String c pat', Some content =>
      if (Ascii.eqb c "]" && closes content)%bool
      then set_token content :: translate_from None pat'
      else translate_from (Some (content ++ [c])) pat'
  end.

Definition translate (pat : string) : list token := translate_from None pat.

Definition mem (c : ascii) (cs : list ascii) : bool :=
  existsb (Ascii.eqb c) cs.

(** The whole of [name] is matched (the regular expression ends
    in [\Z]). *)
Fixpoint matches (ts : list token) (name : string) : bool :=
  match ts with
  | [] => String.eqb name ""
  | Star :: ts' =>
      (fix skip (s : string) : bool :=
         matches ts' s ||
         match s with
         | EmptyString => false
         | String _ s' => skip s'
         end) name
  | AnyChar :: ts' =>
      match name with
      | EmptyString => false
      | String _ s' => matches ts' s'
      end
  | OneOf negated cs :: ts' =>
      match name with
      | EmptyString => false
      | String a s' => xorb negated (mem a cs) && matches ts' s'
      end
  | Lit c :: ts' =>
      match name with
      | EmptyString => false
      | String a s' => Ascii.eqb a c && matches ts' s'
      end
  end.

(** [fnmatch.fnmatchcase(name, pat)]; on POSIX [fnmatch.fnmatch] is
    the same, since [normcase] is the identity. *)
Definition fnmatchcase (name pat : string) : bool :=
  matches (translate pat) name.

(** [fnmatch.filter(names, pat)]. *)
Definition filter (names : list string) (pat : string) : list string :=
  List.filter (fun name => fnmatchcase name pat) names.

End Fnmatch.

(* ================================================================== *)
(** ** glob

    The functions of [glob.py] (CPython 3.11) that a recursive pattern
    [<dir>/**/<basename pattern>] goes through, on a directory tree. *)

Module Glob.

(** A directory tree. A listing keeps the order in which [os.scandir]
    reports the entries. *)
#[warnings="-register-all"] Inductive node : Type :=
| File
| Dir (entries : list (string * node)).

Definition listing : Type := list (string * node).

(** What [glob.glob] can see. [root] is the content of the directory
    that the literal directory part of the pattern names (empty when
    there is no such directory: [_iterdir] swallows the [OSError]).
    [elsewhere] answers the patterns whose directory part itself holds
    wildcard characters, or that have another shape than
    [<dir>/**/<basename pattern>]: their result depends on the file
    system around [root]. *)
Record filesystem : Type := {
  root : listing;
  elsewhere : string -> list string
}.

Definition is_dir (n : node) : bool :=
  match n with Dir _ => true | File => false end.

Definition content (n : node) : listing :=
  match n with Dir entries => entries | File => [] end.

(** [magic_check.search(s) is not None], for [magic_check = ([*?[])]. *)
Definition has_magic (s : string) : bool :=
  (Str.contains_char "*" s || Str.contains_char "?" s
   || Str.contains_char "[" s)%bool.

Definition _ishidden (path : string) : bool := Str.startswith_char "." path.

Definition _isrecursive (pattern : string) : bool := String.eqb pattern "**".

Definition _join (dirname basename : string) : string :=
  if (String.eqb dirname "" || String.eqb basename "")%bool
  then (if String.eqb dirname "" then basename else dirname)
  else Posixpath.join dirname basename.

(** [_listdir(dirname, dir_fd, dironly)], on the listing of [dirname]. *)
Definition _listdir (d : listing) (dironly : bool) : listing :=
  List.filter (fun e => (negb dironly || is_dir (snd e))%bool) d.

(** [_glob1(dirname, pattern, dir_fd, dironly)] with
    [include_hidden=False]. *)
Definition _glob1 (d : listing) (pattern : string) (dironly : bool)
  : list string :=
  let names := map fst (_listdir d dironly) in
  let names :=
    if negb (_ishidden pattern)
    then List.filter (fun x => negb (_ishidden x)) names
    else names in
  Fnmatch.filter names pattern.

(** [_rlistdir(dirname, dir_fd, dironly=True)] on the directory [d]:
    the relative names of the directories below it, depth first, each
    with its own listing (which Python reads again from the path). *)
Fixpoint _rlistdir (d : node) : list (string * listing) :=
  match d with
  | File => []
  | Dir entries =>
      (fix each (es : list (string * node)) : list (string * listing) :=
         match es with
         | [] => []
         | (x, child) :: es' =>
             (if (is_dir child && negb (_ishidden x))%bool
              then (x, content child)
                     :: map (fun yl => (_join x (fst yl), snd yl))
                            (_rlistdir child)
              else [])
             ++ each es'
         end) entries
  end.

(** [_glob2(dirname, "**", dir_fd, dironly=True)]: the directory
    itself (the empty relative name), then everything below it. *)
Definition _glob2 (d : listing) : list (string * listing) :=
  (EmptyString, d) :: _rlistdir (Dir d).

(** [glob.glob(pathname, recursive=True)] for a pattern
    [<dir>/**/<basename pattern>] whose [<dir>] has no wildcard:
    [_iglob] splits off the basename, the recursive call splits off
    "**" and lists the directories with [_glob2], and [_glob1] matches
    the names inside each of them. *)
Definition glob (fs : filesystem) (pathname : string) : list string :=
  let '(dirname, basename) := Posixpath.split pathname in
  let '(dirname2, basename2) := Posixpath.split dirname in
  if (_isrecursive basename2 && negb (has_magic dirname2)
      && has_magic basename && negb (_isrecursive basename))%bool
  then
    flat_map
      (fun dl =>
         let dir := Posixpath.join dirname2 (fst dl) in
         map (Posixpath.join dir) (_glob1 (snd dl) basename false))
      (_glob2 (root fs))
  else elsewhere fs pathname.

End Glob.

(* ================================================================== *)
(** ** sorted *)

(** [sorted(l)] on strings: insertion into an ordered list. The order on
    strings is total and antisymmetric, so every stable sort returns this
    list. *)
Fixpoint insert_sorted (x : string) (l : list string) : list string :=
  match l with
  | [] => [x]
  | y :: l' => if String.leb x y then x :: l else y :: insert_sorted x l'
  end.

Definition sorted (l : list string) : list string :=
  fold_right insert_sorted [] l.

(* ================================================================== *)
(** ** Values, exceptions and effects *)

(** An ROI [(x1, y1, x2, y2)] of Python integers. *)
Definition rect : Type := (Z * Z * Z * Z)%type.

(** View limits of an axis, [(low, high)]. *)
Definition lim : Type := (Q * Q)%type.

(** A two-dimensional numpy array: its shape and its cells. *)
Record Array2D : Type := {
  nrows : nat;
  ncols : nat;
  cell : nat -> nat -> Q
}.

(** [arr.size]. *)
Definition size (arr : Array2D) : nat := nrows arr * ncols arr.

(** [slice(start, stop).indices(n)] for the step 1: a negative bound
    counts from the end, and both bounds are clipped to [0, n]. *)
Definition clip_index (i : Z) (n : nat) : nat :=
  if (i <? 0)%Z then Z.to_nat (Z.max (i + Z.of_nat n) 0)
  else Nat.min (Z.to_nat i) n.

Definition slice_indices (start stop : Z) (n : nat) : nat * nat :=
  (clip_index start n, clip_index stop n).

(** [len(range(lo, hi))]. *)
Definition slice_length (start stop : Z) (n : nat) : nat :=
  let '(lo, hi) := slice_indices start stop n in hi - lo.

(** [arr[y1:y2, x1:x2]]. *)
Definition crop (arr : Array2D) (y1 y2 x1 x2 : Z) : Array2D :=
  {| nrows := slice_length y1 y2 (nrows arr);
     ncols := slice_length x1 x2 (ncols arr);
     cell := fun i j =>
       cell arr (i + fst (slice_indices y1 y2 (nrows arr)))
                (j + fst (slice_indices x1 x2 (ncols arr))) |}.

(** Exceptions (all of them instances of [Exception]). *)
Inductive exn : Type :=
| ValueError (msg : string)
| OtherException (name : string).

Definition NoImagesFound : exn :=
  ValueError "No images found in the specified directory.".

Definition NoRoiSelected : exn :=
  ValueError "No ROI selected. Please select a valid area.".

(** How a call ends: it returns, it raises, or it never comes back
    ([plt.show()] waiting for a window that is not closed). *)
Inductive outcome (A : Type) : Type :=
| Returned (a : A)
| Raised (e : exn)
| Blocked.

Arguments Returned {A} a.
Arguments Raised {A} e.
Arguments Blocked {A}.

(** How a call into module [mtf] ends: with a value or an exception. *)
Inductive result (A : Type) : Type :=
| Ok (a : A)
| Err (e : exn).

Arguments Ok {A} a.
Arguments Err {A} e.

Definition outcome_of {A} (r : result A) : outcome A :=
  match r with
  | Ok a => Returned a
  | Err e => Raised e
  end.

(** The external collaborators. The functions of module [mtf] are not
    among the sources at hand; they are parameters, each returning a
    value or raising. So are the float formatting of the f-strings and
    the limits that [imshow] gives the axes. [float] stands for Python
    floats and [Curve] for the result of [CalculateMtf]. [stdout_write]
    is [sys.stdout] as the run finds it: it takes a line, or raises
    ([UnicodeEncodeError] for a path that its encoding cannot express,
    [BrokenPipeError] when nobody reads any more). *)
Record Env : Type := {
  float : Type;
  Curve : Type;
  LoadImageAsArray : string -> result Array2D;
  CalculateMtf : Array2D -> result Curve;
  GetMtfValue : Curve -> float -> result float;
  format_3f : float -> string;
  format_pct_1f : float -> string;
  imshow_xlim : Array2D -> lim;
  imshow_ylim : Array2D -> lim;
  stdout_write : string -> result unit
}.

(** [repr] of a Python integer and of a 4-tuple of them. *)
Definition repr_int (z : Z) : string :=
  NilZero.string_of_int (Z.to_int z).

Definition repr_rect (r : rect) : string :=
  let '(x1, y1, x2, y2) := r in
  "(" ++ repr_int x1 ++ ", " ++ repr_int y1 ++ ", "
      ++ repr_int x2 ++ ", " ++ repr_int y2 ++ ")".

(** [int(x)] on a finite float: truncation toward zero. *)
Definition int_of_float (x : Q) : Z := Z.quot (Qnum x) (Zpos (Qden x)).

Section Effects.

Variable E : Env.

(** What a run does to the outside, in order. *)
Inductive event : Type :=
| Loaded (path : string)
| Calculated (arr : Array2D)
| Evaluated (res : Curve E) (frequency : float E)
| Shown (imgArr : Array2D)
| Printed (line : string).

Definition M (A : Type) : Type := (list event * outcome A)%type.

Definition ret {A} (a : A) : M A := ([], Returned a).

Definition raise {A} (e : exn) : M A := ([], Raised e).

Definition blocked {A} : M A := ([], Blocked).

Definition emit (ev : event) : M unit := ([ev], Returned tt).

Definition bind {A B} (m : M A) (k : A -> M B) : M B :=
  match m with
  | (t, Returned a) => let '(t', o) := k a in (t ++ t', o)
  | (t, Raised e) => (t, Raised e)
  | (t, Blocked) => (t, Blocked)
  end.

(** [try: m  except Exception as e: handler(e)]. *)
Definition try_except {A} (m : M A) (handler : exn -> M A) : M A :=
  match m with
  | (t, Raised e) => let '(t', o) := handler e in (t ++ t', o)
  | _ => m
  end.

(** A collaborator is called: the call is recorded, its outcome kept. *)
Definition call {A} (ev : event) (r : result A) : M A :=
  ([ev], outcome_of r).

(** [print(line)] in a callback of the figure (lines 35 and 37): the
    line is handed to the console, which is taken to accept the two
    messages of the confirm button (ASCII text that the program builds
    itself). *)
Definition print (line : string) : M unit := emit (Printed line).

(** [print(line)] in the program proper (line 152): the line is handed
    to [sys.stdout], which takes it or raises. *)
Definition print_stdout (line : string) : M unit :=
  call (Printed line) (stdout_write E line).

End Effects.

Arguments ret {E A} a.
Arguments raise {E A} e.
Arguments blocked {E A}.
Arguments emit {E} ev.
Arguments bind {E A B} m k.
Arguments try_except {E A} m handler.
Arguments call {E A} ev r.
Arguments print {E} line.
Arguments print_stdout {E} line.
Arguments Loaded {E} path.
Arguments Calculated {E} arr.
Arguments Evaluated {E} res frequency.
Arguments Shown {E} imgArr.
Arguments Printed {E} line.

Declare Scope py_scope.
Delimit Scope py_scope with py.
Notation "x <- m ;; k" := (bind m (fun x => k))
  (at level 61, m at next level, right associativity) : py_scope.
Notation "m ;;; k" := (bind m (fun _ => k))
  (at level 61, right associativity) : py_scope.

(* ================================================================== *)
(** ** class ROISelector *)

Record MouseEvent : Type := { xdata : Q; ydata : Q }.

(** What the interactive surface delivers while [plt.show()] runs. *)
Inductive ui_event : Type :=
| RectangleReleased (eclick erelease : MouseEvent)
| ConfirmClicked
| ResetZoomClicked
| Navigated (xlim ylim : lim)
| WindowClosed.

(** The fields of [self], with the state of [self.ax] and [self.fig]
    that the methods read or write. *)
Record ROISelector : Type := {
  roi : option rect;
  original_xlim : option lim;
  original_ylim : option lim;
  selecting_roi : bool;
  rect_selector : bool;
  ax_image : option Array2D;
  ax_title : string;
  ax_xlim : lim;
  ax_ylim : lim;
  ax_aspect_equal : bool;
  fig_open : bool;
  fig_draws : nat
}.

Definition default_lim : lim := (0%Q, 1%Q).

(** [ROISelector.__init__]. *)
Definition ROISelector_init : ROISelector :=
  {| roi := None;
     original_xlim := None;
     original_ylim := None;
     selecting_roi := false;
     rect_selector := false;
     ax_image := None;
     ax_title := "";
     ax_xlim := default_lim;
     ax_ylim := default_lim;
     ax_aspect_equal := false;
     fig_open := true;
     fig_draws := 0 |}.

Definition set_roi (r : option rect) (s : ROISelector) : ROISelector :=
  {| roi := r;
     original_xlim := original_xlim s; original_ylim := original_ylim s;
     selecting_roi := selecting_roi s; rect_selector := rect_selector s;
     ax_image := ax_image s; ax_title := ax_title s;
     ax_xlim := ax_xlim s; ax_ylim := ax_ylim s;
     ax_aspect_equal := ax_aspect_equal s;
     fig_open := fig_open s; fig_draws := fig_draws s |}.

Definition set_originals (xl yl : option lim) (s : ROISelector) : ROISelector :=
  {| roi := roi s;
     original_xlim := xl; original_ylim := yl;
     selecting_roi := selecting_roi s; rect_selector := rect_selector s;
     ax_image := ax_image s; ax_title := ax_title s;
     ax_xlim := ax_xlim s; ax_ylim := ax_ylim s;
     ax_aspect_equal := ax_aspect_equal s;
     fig_open := fig_open s; fig_draws := fig_draws s |}.

Definition set_selecting_roi (b : bool) (s : ROISelector) : ROISelector :=
  {| roi := roi s;
     original_xlim := original_xlim s; original_ylim := original_ylim s;
     selecting_roi := b; rect_selector := rect_selector s;
     ax_image := ax_image s; ax_title := ax_title s;
     ax_xlim := ax_xlim s; ax_ylim := ax_ylim s;
     ax_aspect_equal := ax_aspect_equal s;
     fig_open := fig_open s; fig_draws := fig_draws s |}.

Definition set_rect_selector (b : bool) (s : ROISelector) : ROISelector :=
  {| roi := roi s;
     original_xlim := original_xlim s; original_ylim := original_ylim s;
     selecting_roi := selecting_roi s; rect_selector := b;
     ax_image := ax_image s; ax_title := ax_title s;
     ax_xlim := ax_xlim s; ax_ylim := ax_ylim s;
     ax_aspect_equal := ax_aspect_equal s;
     fig_open := fig_open s; fig_draws := fig_draws s |}.

(** The axes of [self.ax]: image, title, limits and aspect. *)
Definition set_axes (img : option Array2D) (title : string) (xl yl : lim)
  (equal : bool) (s : ROISelector) : ROISelector :=
  {| roi := roi s;
     original_xlim := original_xlim s; original_ylim := original_ylim s;
     selecting_roi := selecting_roi s; rect_selector := rect_selector s;
     ax_image := img; ax_title := title;
     ax_xlim := xl; ax_ylim := yl;
     ax_aspect_equal := equal;
     fig_open := fig_open s; fig_draws := fig_draws s |}.

(** The figure of [self.fig]: open or closed, and how often drawn. *)
Definition set_fig (open : bool) (draws : nat) (s : ROISelector) : ROISelector :=
  {| roi := roi s;
     original_xlim := original_xlim s; original_ylim := original_ylim s;
     selecting_roi := selecting_roi s; rect_selector := rect_selector s;
     ax_image := ax_image s; ax_title := ax_title s;
     ax_xlim := ax_xlim s; ax_ylim := ax_ylim s;
     ax_aspect_equal := ax_aspect_equal s;
     fig_open := open; fig_draws := draws |}.

(** [plt.close()]. *)
Definition plt_close (s : ROISelector) : ROISelector :=
  set_fig false (fig_draws s) s.

Section Program.

Variable E : Env.

Local Open Scope py_scope.

(** [ROISelector.on_select]. *)
Definition on_select (self : ROISelector) (eclick erelease : MouseEvent)
  : ROISelector :=
  if selecting_roi self
  then set_roi (Some (int_of_float (xdata eclick), int_of_float (ydata eclick),
                      int_of_float (xdata erelease), int_of_float (ydata erelease)))
               self
  else self.

(** [ROISelector.confirm_roi]. *)
Definition confirm_roi (self : ROISelector) : M E ROISelector :=
  match roi self with
  | None =>
      print "No ROI selected yet." ;;;
      ret self
  | Some r =>
      print ("ROI selected: " ++ repr_rect r) ;;;
      ret (plt_close self)
  end.

(** [ROISelector.reset_zoom]. *)
Definition reset_zoom (self : ROISelector) : M E ROISelector :=
  match original_xlim self, original_ylim self with
  | Some xl, Some yl =>
      let self := set_axes (ax_image self) (ax_title self) xl (ax_ylim self)
                           (ax_aspect_equal self) self in
      let self := set_axes (ax_image self) (ax_title self) (ax_xlim self) yl
                           (ax_aspect_equal self) self in
      let self := set_axes (ax_image self) (ax_title self) (ax_xlim self)
                           (ax_ylim self) true self in
      ret (set_fig (fig_open self) (S (fig_draws self)) self)
  | _, _ => ret self
  end.

(** One event of the interactive surface reaches the widget or the
    button it belongs to. *)
Definition dispatch (self : ROISelector) (ev : ui_event) : M E ROISelector :=
  match ev with
  | RectangleReleased eclick erelease =>
      if rect_selector self then ret (on_select self eclick erelease)
      else ret self
  | ConfirmClicked => confirm_roi self
  | ResetZoomClicked => reset_zoom self
  | Navigated xl yl =>
      ret (set_axes (ax_image self) (ax_title self) xl yl
                    (ax_aspect_equal self) self)
  | WindowClosed => ret (plt_close self)
  end.

(** [plt.show()] on the figure of a selector that is open when
    [select_roi] is called, as [__init__] leaves it and [get_roi] uses
    it: events are handled until the figure is closed; when the events
    run out with the figure open, the call never returns. *)
Fixpoint plt_show (self : ROISelector) (ui : list ui_event) : M E ROISelector :=
  if negb (fig_open self) then ret self
  else match ui with
       | [] => blocked
       | ev :: ui' =>
           self <- dispatch self ev ;;
           plt_show self ui'
       end.

(** [ROISelector.select_roi], up to the call of [plt.show()]. *)
Definition select_roi_setup (self : ROISelector) (imgArr : Array2D)
  : ROISelector :=
  let self := set_axes None "" default_lim default_lim false self in
  let self := set_axes (Some imgArr) (ax_title self)
                       (imshow_xlim E imgArr) (imshow_ylim E imgArr) true self in
  let self := set_axes (ax_image self)
                "Zoom/Pan the image and click the button to confirm ROI selection."
                (ax_xlim self) (ax_ylim self) (ax_aspect_equal self) self in
  let self := set_originals (Some (ax_xlim self)) (Some (ax_ylim self)) self in
  let self := set_rect_selector true self in
  set_selecting_roi true self.

(** [ROISelector.select_roi]: the selector after the call, and the
    rectangle returned. *)
Definition select_roi (self : ROISelector) (imgArr : Array2D)
  (ui : list ui_event) : M E (ROISelector * rect) :=
  let self := select_roi_setup self imgArr in
  emit (Shown imgArr) ;;;
  self <- plt_show self ui ;;
  let self := set_selecting_roi false self in
  match roi self with
  | None => raise NoRoiSelected
  | Some r => ret (self, r)
  end.

(** [get_roi]. *)
Definition get_roi (image_path : string) (ui : list ui_event) : M E rect :=
  imgArr <- call (Loaded image_path) (LoadImageAsArray E image_path) ;;
  let roi_selector := ROISelector_init in
  sr <- select_roi roi_selector imgArr ui ;;
  ret (snd sr).

(** [process_image]. [None] for [roi] is the default argument; a
    4-tuple is always true. *)
Definition process_image (image_path : string) (frequency : float E)
  (roi : option rect) : M E (option (float E)) :=
  imgArr <- call (Loaded image_path) (LoadImageAsArray E image_path) ;;
  let imgArr :=
    match roi with
    | Some (x1, y1, x2, y2) => crop imgArr y1 y2 x1 x2
    | None => imgArr
    end in
  if Nat.eqb (size imgArr) 0 then ret None
  else
    res <- try_except
             (res <- call (Calculated imgArr) (CalculateMtf E imgArr) ;;
              ret (Some res))
             (fun e => ret None) ;;
    match res with
    | None => ret None
    | Some res =>
        try_except
          (mtf_value <- call (Evaluated res frequency)
                             (GetMtfValue E res frequency) ;;
           ret (Some mtf_value))
          (fun e => ret None)
    end.

(** A Python [dict] with string keys: the items in insertion order.
    [d[k] = v] replaces the value of an existing key in place and puts
    a new key last. *)
Definition dict : Type := list (string * float E).

Fixpoint dict_setitem (d : dict) (k : string) (v : float E) : dict :=
  match d with
  | [] => [(k, v)]
  | (k', v') :: d' =>
      if String.eqb k' k then (k, v) :: d'
      else (k', v') :: dict_setitem d' k v
  end.

Definition dict_keys (d : dict) : list string := map fst d.

(** Lines 126-130: both patterns are globbed and the results sorted. *)
Definition scan (fs : Glob.filesystem) (directory_path : string)
  : list string :=
  let file_pattern := Posixpath.join3 directory_path "**" "*.[jp][pn]g" in
  let jpeg_pattern := Posixpath.join3 directory_path "**" "*.jpeg" in
  sorted (Glob.glob fs file_pattern ++ Glob.glob fs jpeg_pattern).

(** [len(path.split(os.sep)) - len(directory_path.split(os.sep))]. *)
Definition depth (directory_path path : string) : Z :=
  Z.of_nat (List.length (Str.split Posixpath.sep path))
  - Z.of_nat (List.length (Str.split Posixpath.sep directory_path)).

(** Line 133: the depth filter. *)
Definition discover (fs : Glob.filesystem) (directory_path : string)
  : list string :=
  List.filter (fun path => (depth directory_path path <=? 4)%Z)
              (scan fs directory_path).

(** The line printed for a value. *)
Definition mtf_line (path : string) (frequency mtf_value : float E) : string :=
  "MTF value for " ++ path ++ " at frequency " ++ format_3f E frequency
    ++ ": " ++ format_pct_1f E mtf_value ++ "%".

(** The body of the [for] loop of [batch_process], for one path.
    [results] is one dict object that line 151 changes in place, so the
    [except] clause of line 153 finds it as the [try] block left it:
    without the entry when [process_image] raised, with the entry when
    the [print] of line 152 raised. The clause is written once for each
    of the two. *)
Definition batch_step (frequency : float E) (roi : rect) (results : dict)
  (path : string) : M E dict :=
  try_except
    (mtf_value <- process_image path frequency (Some roi) ;;
     match mtf_value with
     | None => ret results
     | Some mtf_value =>
         let results := dict_setitem results path mtf_value in
         try_except
           (print_stdout (mtf_line path frequency mtf_value) ;;;
            ret results)
           (fun e => ret results)
     end)
    (fun e => ret results).

(** The [for] loop of [batch_process]. *)
Fixpoint batch_loop (frequency : float E) (roi : rect) (results : dict)
  (image_paths : list string) : M E dict :=
  match image_paths with
  | [] => ret results
  | path :: rest =>
      results <- batch_step frequency roi results path ;;
      batch_loop frequency roi results rest
  end.

(** [batch_process]. [fs] is the directory tree at [directory_path] and
    [ui] what the operator does while the figure is shown. *)
Definition batch_process (fs : Glob.filesystem) (ui : list ui_event)
  (directory_path : string) (frequency : float E) : M E dict :=
  let image_paths := discover fs directory_path in
  match image_paths with
  | [] => raise NoImagesFound
  | first_image_path :: _ =>
      roi <- get_roi first_image_path ui ;;
      results <- batch_loop frequency roi [] image_paths ;;
      ret results
  end.

End Program.

(* ================================================================== *)
(** ** Vocabulary of the properties *)

(** The paths of a list in the order of their first occurrence; [seen]
    holds those met before. A [dict] keeps its keys in that order. *)
Fixpoint first_occurrences (seen paths : list string) : list string :=
  match paths with
  | [] => []
  | p :: rest =>
      if existsb (String.eqb p) seen then first_occurrences seen rest
      else p :: first_occurrences (p :: seen) rest
  end.

Definition dedup (paths : list string) : list string :=
  first_occurrences [] paths.

Section Vocabulary.

Variable E : Env.

(** The selector state a dispatched event leaves behind. *)
Definition after_dispatch (self : ROISelector) (ev : ui_event) : ROISelector :=
  match snd (dispatch E self ev) with
  | Returned self' => self'
  | _ => self
  end.

(** During [plt.show()], some click on the confirm button found a
    candidate ROI. *)
Fixpoint confirm_fired (self : ROISelector) (ui : list ui_event) : bool :=
  if negb (fig_open self) then false
  else match ui with
       | [] => false
       | ev :: ui' =>
           match ev, roi self with
           | ConfirmClicked, Some _ => true
           | _, _ => confirm_fired (after_dispatch self ev) ui'
           end
       end.

(** The states the selector goes through while the figure of
    [select_roi self0 imgArr] is shown. *)
Inductive shown_state (imgArr : Array2D) : ROISelector -> Prop :=
| shown_first (self0 : ROISelector) :
    shown_state imgArr (select_roi_setup E self0 imgArr)
| shown_next (self : ROISelector) (ev : ui_event) :
    shown_state imgArr self ->
    fig_open self = true ->
    shown_state imgArr (after_dispatch self ev).

(** The entry [(p, v)] of the mapping that a path contributes: one
    when [process_image] returned a value, none when it returned
    [None] or raised. *)
Definition entry_of (frequency : float E) (roi : rect) (path : string)
  : list (string * float E) :=
  match snd (process_image E path frequency (Some roi)) with
  | Returned (Some v) => [(path, v)]
  | _ => []
  end.

(** [process_image] returned a value for the path. *)
Definition evaluates (frequency : float E) (roi : rect) (path : string) : bool :=
  match snd (process_image E path frequency (Some roi)) with
  | Returned (Some _) => true
  | _ => false
  end.

(** An exception is raised in the [try] block of the loop (lines 146 to
    152) for the path: by [process_image], or by the [print] of the
    value that [process_image] returned. *)
Definition try_raises (frequency : float E) (roi : rect) (path : string) : Prop :=
  (exists t e, process_image E path frequency (Some roi) = (t, Raised e)) \/
  (exists t v e,
      process_image E path frequency (Some roi) = (t, Returned (Some v)) /\
      stdout_write E (mtf_line E path frequency v) = Err e).

End Vocabulary.

(** *** Directory trees *)

Module Tree.

Import Glob.

(** A name that a directory entry can have: not empty, no separator. *)
Definition valid_name (x : string) : bool :=
  (negb (String.eqb x "") && negb (Str.contains_char Posixpath.sep x))%bool.

Fixpoint distinct (names : list string) : bool :=
  match names with
  | [] => true
  | x :: rest => (negb (existsb (String.eqb x) rest) && distinct rest)%bool
  end.

(** Every directory lists valid names, each of them once. *)
Fixpoint well_formed (n : node) : bool :=
  match n with
  | File => true
  | Dir entries =>
      (distinct (map fst entries) &&
       (fix each (es : list (string * node)) : bool :=
          match es with
          | [] => true
          | (x, child) :: es' => valid_name x && well_formed child && each es'
          end) entries)%bool
  end.

(** The directories below [d] that no hidden name leads to, depth first:
    the names on the way from [d], and the listing found there. *)
Fixpoint chains (d : node) : list (list string * listing) :=
  match d with
  | File => []
  | Dir entries =>
      (fix each (es : list (string * node)) : list (list string * listing) :=
         match es with
         | [] => []
         | (x, child) :: es' =>
             (if (is_dir child && negb (_ishidden x))%bool
              then ([x], content child)
                     :: map (fun yl => (x :: fst yl, snd yl)) (chains child)
              else [])
             ++ each es'
         end) entries
  end.

(** A chain of a well-formed tree: not empty, made of valid names,
    leading to a well-formed listing. *)
Definition good_chain (yl : list string * listing) : Prop :=
  fst yl <> [] /\
  Forall (fun x => valid_name x = true) (fst yl) /\
  well_formed (Dir (snd yl)) = true.

(** [reaches d dirs l]: going down the directories [dirs] from the
    listing [d] leads to the listing [l]. *)
Inductive reaches : listing -> list string -> listing -> Prop :=
| reaches_here (d : listing) : reaches d [] d
| reaches_below (d : listing) (x : string) (sub : listing)
                (dirs : list string) (l : listing) :
    In (x, Dir sub) d -> reaches sub dirs l -> reaches d (x :: dirs) l.

(** The tree has an entry [name] (a file or a directory) in the
    directory [dirs] below the root listing [d]. *)
Definition has_entry (d : listing) (dirs : list string) (name : string) : Prop :=
  exists l, reaches d dirs l /\ In name (map fst l).

(** No name on the way starts with a dot. *)
Definition visible (segs : list string) : Prop :=
  Forall (fun x => _ishidden x = false) segs.

(** What [posixpath.join] puts in front of "**". *)
Definition stem (directory_path : string) : string :=
  if (String.eqb directory_path ""
      || Str.endswith_char Posixpath.sep directory_path)%bool
  then directory_path else directory_path ++ String Posixpath.sep "".

(** The name of a tree entry, as [glob] spells it for the scan of
    [directory_path]: the directory part of the pattern, as [_iglob]
    splits it off, and the names joined by the separator. *)
Definition scan_dir (directory_path : string) : string :=
  fst (Posixpath.split (Posixpath.join directory_path "**")).

Definition path_of (directory_path : string) (segs : list string) : string :=
  Posixpath.join (scan_dir directory_path) "" ++ Str.join Posixpath.sep segs.

(** The entries a basename pattern matches, as lists of names. *)
Definition matches_in (pattern : string) (d : listing) : list (list string) :=
  flat_map
    (fun yl => map (fun name => fst yl ++ [name]) (_glob1 (snd yl) pattern false))
    (([], d) :: chains (Dir d)).

(** The same tree, with the entries of its directories listed in
    another order ([os.scandir] promises none). *)
Inductive relisted : node -> node -> Prop :=
| relisted_file : relisted File File
| relisted_dir (l l' : listing) :
    relisted_entries l l' -> relisted (Dir l) (Dir l')
with relisted_entries : listing -> listing -> Prop :=
| relisted_nil : relisted_entries [] []
| relisted_skip (x : string) (n n' : node) (l l' : listing) :
    relisted n n' -> relisted_entries l l' ->
    relisted_entries ((x, n) :: l) ((x, n') :: l')
| relisted_swap (e1 e2 : string * node) (l : listing) :
    relisted_entries (e1 :: e2 :: l) (e2 :: e1 :: l)
| relisted_trans (l1 l2 l3 : listing) :
    relisted_entries l1 l2 -> relisted_entries l2 l3 -> relisted_entries l1 l3.

Scheme relisted_mutual := Minimality for relisted Sort Prop
  with relisted_entries_mutual := Minimality for relisted_entries Sort Prop.

Combined Scheme relisted_both from relisted_mutual, relisted_entries_mutual.

(** An entry that the scan of the program finds: visible, with a name
    that one of the two patterns matches. *)
Definition scanned (d : listing) (segs : list string) : Prop :=
  exists ys name,
    segs = ys ++ [name] /\ has_entry d ys name /\ visible segs /\
    (Fnmatch.fnmatchcase name "*.[jp][pn]g" = true \/
     Fnmatch.fnmatchcase name "*.jpeg" = true).

End Tree.

(** *** Sessions, crops and traces *)

(** The rectangle that [on_select] stores for a released drag. *)
Definition rect_of (eclick erelease : MouseEvent) : rect :=
  (int_of_float (xdata eclick), int_of_float (ydata eclick),
   int_of_float (xdata erelease), int_of_float (ydata erelease)).

Definition is_release (ev : ui_event) : bool :=
  match ev with RectangleReleased _ _ => true | _ => false end.

Definition is_confirm (ev : ui_event) : bool :=
  match ev with ConfirmClicked => true | _ => false end.

Definition is_close (ev : ui_event) : bool :=
  match ev with WindowClosed => true | _ => false end.

(** Zooming, panning and the reset-zoom button. *)
Definition view_only (ev : ui_event) : bool :=
  match ev with Navigated _ _ | ResetZoomClicked => true | _ => false end.

(** The selector holds a candidate ROI. *)
Definition holds_candidate (self : ROISelector) : bool :=
  match roi self with Some _ => true | None => false end.

(** A session, told by its events alone. The figure is closed by the
    first closed window, or by the first click on confirm that comes
    after a released drag; [dragged] tells whether a drag was released
    before the events at hand. [terminates]: some event closes the
    figure. [handled]: the events up to that one. *)
Fixpoint terminates (dragged : bool) (ui : list ui_event) : bool :=
  match ui with
  | [] => false
  | ev :: ui' =>
      (is_close ev || (is_confirm ev && dragged)
       || terminates (dragged || is_release ev) ui')%bool
  end.

Fixpoint handled (dragged : bool) (ui : list ui_event) : list ui_event :=
  match ui with
  | [] => []
  | ev :: ui' =>
      if (is_close ev || (is_confirm ev && dragged))%bool then [ev]
      else ev :: handled (dragged || is_release ev)%bool ui'
  end.

(** The rectangle of the last drag released among the events. *)
Fixpoint last_drag (ui : list ui_event) : option rect :=
  match ui with
  | [] => None
  | ev :: ui' =>
      match last_drag ui', ev with
      | Some r, _ => Some r
      | None, RectangleReleased eclick erelease => Some (rect_of eclick erelease)
      | None, _ => None
      end
  end.

(** The array that [process_image] goes on with after line 93. *)
Definition cropped (imgArr : Array2D) (roi : option rect) : Array2D :=
  match roi with
  | Some (x1, y1, x2, y2) => crop imgArr y1 y2 x1 x2
  | None => imgArr
  end.

Section Traces.

Variable E : Env.

(** The paths decoded in a run, in order. *)
Definition loaded_paths (t : list (event E)) : list string :=
  flat_map (fun ev => match ev with Loaded path => [path] | _ => [] end) t.

(** The lines printed in a run, in order. *)
Definition printed_lines (t : list (event E)) : list string :=
  flat_map (fun ev => match ev with Printed line => [line] | _ => [] end) t.

(** The images shown for a selection in a run, in order. *)
Definition shown_images (t : list (event E)) : list Array2D :=
  flat_map (fun ev => match ev with Shown imgArr => [imgArr] | _ => [] end) t.

End Traces.

(* ================================================================== *)
(** ** A small world to run the program in *)

Module Demo.

Definition tree : Glob.listing :=
  [ ("a", Glob.Dir
       [ ("img1.png", Glob.File);
         ("readme.txt", Glob.File);
         ("b", Glob.Dir
            [ ("img2.jpg", Glob.File);
              ("c", Glob.Dir
                 [ ("d", Glob.Dir
                      [ ("img4.jpeg", Glob.File);
                        ("e", Glob.Dir [ ("img3.png", Glob.File) ]) ]) ]) ]) ]);
    (".cache", Glob.Dir [ ("thumb.png", Glob.File) ]);
    ("scan.jng", Glob.File);
    ("UPPER.PNG", Glob.File) ].

Definition fs : Glob.filesystem :=
  {| Glob.root := tree; Glob.elsewhere := fun _ => [] |}.

Definition empty_fs : Glob.filesystem :=
  {| Glob.root := [ ("notes.txt", Glob.File) ]; Glob.elsewhere := fun _ => [] |}.

(** A 6 x 8 image of constant intensity, and a 2 x 2 one. *)
Definition image : Array2D :=
  {| nrows := 6; ncols := 8; cell := fun _ _ => (1 # 2)%Q |}.

Definition small_image : Array2D :=
  {| nrows := 2; ncols := 2; cell := fun _ _ => (1 # 2)%Q |}.

(** Decoding fails for [img1.png] and gives the small image for
    [scan.jng]; the curve of an image is its number of cells, and no
    curve is found in fewer than 4 cells; the value at a frequency is
    that frequency; the console takes every line. *)
Definition env : Env :=
  {| float := Q;
     Curve := nat;
     LoadImageAsArray := fun path =>
       if String.eqb path "root/a/img1.png"
       then Err (OtherException "UnidentifiedImageError")
       else if String.eqb path "root/scan.jng" then Ok small_image
       else Ok image;
     CalculateMtf := fun arr =>
       if Nat.ltb (size arr) 4 then Err (ValueError "no edge found")
       else Ok (size arr);
     GetMtfValue := fun res frequency => Ok frequency;
     format_3f := fun _ => "0.500";
     format_pct_1f := fun _ => "50.0";
     imshow_xlim := fun arr => ((-1 # 2)%Q, (Z.of_nat (ncols arr) # 1) - (1 # 2))%Q;
     imshow_ylim := fun arr => ((Z.of_nat (nrows arr) # 1) - (1 # 2), (-1 # 2)%Q)%Q;
     stdout_write := fun _ => Ok tt |}.

(** The same collaborators in front of a console whose encoding is
    ASCII: a line that holds a byte beyond 127 raises. *)
Definition ascii_env : Env :=
  {| float := Q;
     Curve := nat;
     LoadImageAsArray := LoadImageAsArray env;
     CalculateMtf := CalculateMtf env;
     GetMtfValue := GetMtfValue env;
     format_3f := format_3f env;
     format_pct_1f := format_pct_1f env;
     imshow_xlim := imshow_xlim env;
     imshow_ylim := imshow_ylim env;
     stdout_write := fun line =>
       if forallb (fun c => Nat.ltb (nat_of_ascii c) 128)
                  (list_ascii_of_string line)
       then Ok tt
       else Err (OtherException "UnicodeEncodeError") |}.

(** A path with a byte beyond 127 in it. *)
Definition accented : string :=
  "root/caf" ++ String (ascii_of_nat 233) ".png".

(** A directory whose only image is the one that does not decode. *)
Definition broken_fs : Glob.filesystem :=
  {| Glob.root := [ ("a", Glob.Dir [ ("img1.png", Glob.File) ]) ];
     Glob.elsewhere := fun _ => [] |}.

(** A directory whose images all lie five names below it. *)
Definition deep_fs : Glob.filesystem :=
  {| Glob.root :=
       [ ("a", Glob.Dir
            [ ("b", Glob.Dir
                 [ ("c", Glob.Dir
                      [ ("d", Glob.Dir [ ("img.png", Glob.File) ]) ]) ]) ]);
         ("readme.txt", Glob.File) ];
     Glob.elsewhere := fun _ => [] |}.

(** The demo tree as another file system may list it: ".cache" before
    "a", and "readme.txt" first in "a". *)
Definition relisted_tree : Glob.listing :=
  [ (".cache", Glob.Dir [ ("thumb.png", Glob.File) ]);
    ("a", Glob.Dir
       [ ("readme.txt", Glob.File);
         ("img1.png", Glob.File);
         ("b", Glob.Dir
            [ ("img2.jpg", Glob.File);
              ("c", Glob.Dir
                 [ ("d", Glob.Dir
                      [ ("img4.jpeg", Glob.File);
                        ("e", Glob.Dir [ ("img3.png", Glob.File) ]) ]) ]) ]) ]);
    ("scan.jng", Glob.File);
    ("UPPER.PNG", Glob.File) ].

Definition relisted_fs : Glob.filesystem :=
  {| Glob.root := relisted_tree; Glob.elsewhere := fun _ => [] |}.

Definition click (x y : Q) : MouseEvent := {| xdata := x; ydata := y |}.

(** A drag from (1.5, 2.5) to (5.25, 4.75). *)
Definition drag : ui_event :=
  RectangleReleased (click (3 # 2) (5 # 2)) (click (21 # 4) (19 # 4)).

Definition half : Q := (1 # 2)%Q.

End Demo.

(* ================================================================== *)
(** * Properties *)

Example join_ex1 : Posixpath.join3 "root" "**" "*.jpeg" = "root/**/*.jpeg".
Proof. reflexivity. Qed.
Example join_ex2 : Posixpath.join3 "root/" "**" "*.jpeg" = "root/**/*.jpeg".
Proof. reflexivity. Qed.
Example join_ex3 : Posixpath.join3 "" "**" "*.jpeg" = "**/*.jpeg".
Proof. reflexivity. Qed.
Example split_ex1 : Posixpath.split "root//**" = ("root", "**").
Proof. reflexivity. Qed.
Example split_ex2 : Posixpath.split "/**" = ("/", "**").
Proof. reflexivity. Qed.
Example split_ex3 : Str.split Posixpath.sep "a//b/" = ["a"; ""; "b"; ""].
Proof. reflexivity. Qed.
Example translate_ex1 :
  Fnmatch.translate "*.[jp][pn]g"
  = [Fnmatch.Star; Fnmatch.Lit "."; Fnmatch.OneOf false ["j"; "p"]%char;
     Fnmatch.OneOf false ["p"; "n"]%char; Fnmatch.Lit "g"].
Proof. reflexivity. Qed.
Example fnmatch_ex1 : Fnmatch.fnmatchcase "IMG.PNG" "*.[jp][pn]g" = false.
Proof. reflexivity. Qed.
Example glob_ex1 :
  Glob.glob Demo.fs (Posixpath.join3 "root" "**" "*.jpeg")
  = ["root/a/b/c/d/img4.jpeg"].
Proof. reflexivity. Qed.
Example glob_ex2 :
  Glob.glob Demo.fs (Posixpath.join3 "" "**" "*.[jp][pn]g")
  = ["scan.jng"; "a/img1.png"; "a/b/img2.jpg"; "a/b/c/d/e/img3.png"].
Proof. reflexivity. Qed.
Example slice_ex1 : slice_indices (-3) 100 10 = (7, 10).
Proof. reflexivity. Qed.
Example slice_ex2 : slice_length 200 400 6 = 0.
Proof. reflexivity. Qed.
Example int_ex1 : int_of_float (-7 # 2) = (-3)%Z.
Proof. reflexivity. Qed.
Example repr_ex1 : repr_rect (0, -12, 305, 7)%Z = "(0, -12, 305, 7)".
Proof. reflexivity. Qed.

(** With a separator at the end of [directory_path], the difference of
    line 133 is one less: an entry five names below the root is kept. *)
Example discover_trailing_separator :
  discover Demo.fs "root/"
  = ["root/a/b/c/d/img4.jpeg"; "root/a/b/img2.jpg"; "root/a/img1.png";
     "root/scan.jng"].
Proof. reflexivity. Qed.


Section Selector.

Variable E : Env.

(** C8. With no candidate ROI, a click on the confirm button prints
    "No ROI selected yet." and returns: nothing is raised, the selector
    is the one it was (the candidate still absent, the figure still
    open). *)
Theorem confirm_roi_without_candidate :
  forall self : ROISelector,
    roi self = None ->
    confirm_roi E self = ([Printed "No ROI selected yet."], Returned self).
Proof.
  intros self Hroi. unfold confirm_roi. rewrite Hroi. reflexivity.
Qed.

Lemma reset_zoom_returns :
  forall self, exists self', reset_zoom E self = ([], Returned self').
Proof.
  intros self. unfold reset_zoom.
  destruct (original_xlim self), (original_ylim self); eexists; reflexivity.
Qed.

Lemma dispatch_returns :
  forall self ev, exists t self', dispatch E self ev = (t, Returned self').
Proof.
  intros self [c r| | |xl yl|]; simpl.
  - destruct (rect_selector self); do 2 eexists; reflexivity.
  - unfold confirm_roi. destruct (roi self); do 2 eexists; reflexivity.
  - destruct (reset_zoom_returns self) as [s' H]. rewrite H. eauto.
  - do 2 eexists; reflexivity.
  - do 2 eexists; reflexivity.
Qed.

Lemma after_dispatch_originals :
  forall self ev,
    original_xlim (after_dispatch E self ev) = original_xlim self /\
    original_ylim (after_dispatch E self ev) = original_ylim self.
Proof.
  intros self ev. unfold after_dispatch.
  destruct ev as [c r| | |xl yl|]; simpl.
  - destruct (rect_selector self); simpl; auto.
    unfold on_select. destruct (selecting_roi self); auto.
  - unfold confirm_roi. destruct (roi self); simpl; auto.
  - unfold reset_zoom.
    destruct (original_xlim self) eqn:Hx, (original_ylim self) eqn:Hy;
      simpl; rewrite ?Hx, ?Hy; auto.
  - auto.
  - auto.
Qed.

Lemma shown_state_originals :
  forall imgArr self,
    shown_state E imgArr self ->
    original_xlim self = Some (imshow_xlim E imgArr) /\
    original_ylim self = Some (imshow_ylim E imgArr).
Proof.
  intros imgArr self H. induction H as [self0 | self ev _ IH _].
  - split; reflexivity.
  - destruct (after_dispatch_originals self ev) as [Hx Hy].
    rewrite Hx, Hy. exact IH.
Qed.

(** C9. A click on the reset-zoom button returns a selector whose
    candidate ROI and selection state are those before the click, and,
    in every state of a session, whose view limits are those captured
    when the image was displayed. *)
Theorem reset_zoom_is_a_view_operation :
  forall self : ROISelector,
  exists self' : ROISelector,
    reset_zoom E self = ([], Returned self') /\
    roi self' = roi self /\
    selecting_roi self' = selecting_roi self /\
    rect_selector self' = rect_selector self /\
    original_xlim self' = original_xlim self /\
    original_ylim self' = original_ylim self /\
    fig_open self' = fig_open self /\
    ax_image self' = ax_image self /\
    (forall imgArr,
        shown_state E imgArr self ->
        ax_xlim self' = imshow_xlim E imgArr /\
        ax_ylim self' = imshow_ylim E imgArr).
Proof.
  intros self. unfold reset_zoom.
  destruct (original_xlim self) as [xl|] eqn:Hx;
    destruct (original_ylim self) as [yl|] eqn:Hy.
  - eexists. split; [reflexivity|]. simpl.
    repeat (split; [solve [auto]|]).
    intros imgArr Hs. apply shown_state_originals in Hs.
    destruct Hs as [Hx' Hy']. rewrite Hx in Hx'. rewrite Hy in Hy'.
    inversion Hx'. inversion Hy'. auto.
  - exists self. repeat (split; [solve [auto]|]).
    intros imgArr Hs. apply shown_state_originals in Hs.
    destruct Hs as [_ Hy']. congruence.
  - exists self. repeat (split; [solve [auto]|]).
    intros imgArr Hs. apply shown_state_originals in Hs.
    destruct Hs as [Hx' _]. congruence.
  - exists self. repeat (split; [solve [auto]|]).
    intros imgArr Hs. apply shown_state_originals in Hs.
    destruct Hs as [Hx' _]. congruence.
Qed.

End Selector.

(** C8 at the selector of a fresh [ROISelector()]. *)
Lemma confirm_roi_without_candidate_witness :
  roi ROISelector_init = None /\
  confirm_roi Demo.env ROISelector_init
  = ([Printed "No ROI selected yet."], Returned ROISelector_init).
Proof.
  split; [reflexivity|].
  apply (confirm_roi_without_candidate Demo.env ROISelector_init).
  reflexivity.
Defined.

(** C9 in a session: the image is displayed, the operator zooms, drags a
    rectangle and clicks the reset-zoom button. *)
Lemma reset_zoom_is_a_view_operation_witness :
  let zoomed :=
    after_dispatch Demo.env
      (after_dispatch Demo.env
         (select_roi_setup Demo.env ROISelector_init Demo.image)
         (Navigated (1, 2)%Q (3, 4)%Q))
      Demo.drag in
  shown_state Demo.env Demo.image zoomed /\
  exists self',
    reset_zoom Demo.env zoomed = ([], Returned self') /\
    roi self' = Some (1, 2, 5, 4)%Z /\
    ax_xlim self' = imshow_xlim Demo.env Demo.image /\
    ax_ylim self' = imshow_ylim Demo.env Demo.image.
Proof.
  intros zoomed.
  assert (Hs : shown_state Demo.env Demo.image zoomed).
  { apply shown_next; [apply shown_next; [apply shown_first|]|]; reflexivity. }
  split; [exact Hs|].
  destruct (reset_zoom_is_a_view_operation Demo.env zoomed)
    as (self' & Hrun & Hroi & _ & _ & _ & _ & _ & _ & Hview).
  exists self'. split; [exact Hrun|]. split.
  - rewrite Hroi. reflexivity.
  - apply Hview. exact Hs.
Defined.

Section Session.

Variable E : Env.

Lemma plt_show_closed :
  forall self ui, fig_open self = false -> plt_show E self ui = ret self.
Proof.
  intros self ui H. destruct ui; simpl; rewrite H; reflexivity.
Qed.

Lemma plt_show_cons :
  forall self ev ui,
    fig_open self = true ->
    plt_show E self (ev :: ui)
    = bind (dispatch E self ev) (fun self' => plt_show E self' ui).
Proof.
  intros self ev ui H. simpl. rewrite H. reflexivity.
Qed.

Lemma dispatch_after :
  forall self ev,
  exists t, dispatch E self ev = (t, Returned (after_dispatch E self ev)).
Proof.
  intros self ev. unfold after_dispatch.
  destruct (dispatch_returns E self ev) as (t & self' & H).
  rewrite H. exists t. reflexivity.
Qed.

Lemma plt_show_step :
  forall self ev ui,
    fig_open self = true ->
    plt_show E self (ev :: ui)
    = (fst (dispatch E self ev) ++ fst (plt_show E (after_dispatch E self ev) ui),
       snd (plt_show E (after_dispatch E self ev) ui)).
Proof.
  intros self ev ui Hopen. rewrite plt_show_cons by exact Hopen.
  destruct (dispatch_after self ev) as [t Hd]. rewrite Hd. simpl.
  destruct (plt_show E (after_dispatch E self ev) ui). reflexivity.
Qed.

(** What one event does to the flags and to the candidate. *)
Lemma after_dispatch_flags :
  forall self ev,
    selecting_roi (after_dispatch E self ev) = selecting_roi self /\
    rect_selector (after_dispatch E self ev) = rect_selector self.
Proof.
  intros self ev. unfold after_dispatch.
  destruct ev as [c r| | |xl yl|]; simpl.
  - destruct (rect_selector self) eqn:Hr; simpl; rewrite ?Hr; auto.
    unfold on_select. destruct (selecting_roi self) eqn:Hs; simpl; rewrite ?Hs, ?Hr; auto.
  - unfold confirm_roi. destruct (roi self); simpl; auto.
  - unfold reset_zoom.
    destruct (original_xlim self), (original_ylim self); simpl; auto.
  - auto.
  - auto.
Qed.

Lemma after_dispatch_open :
  forall self ev,
    fig_open self = true ->
    is_close ev = false -> is_confirm ev = false ->
    fig_open (after_dispatch E self ev) = true.
Proof.
  intros self ev Hopen Hc Hf. unfold after_dispatch.
  destruct ev as [c r| | |xl yl|]; simpl; try discriminate.
  - destruct (rect_selector self); simpl; [|exact Hopen].
    unfold on_select. destruct (selecting_roi self); exact Hopen.
  - unfold reset_zoom.
    destruct (original_xlim self), (original_ylim self); simpl; exact Hopen.
  - exact Hopen.
Qed.

Lemma after_dispatch_roi :
  forall self ev,
    is_release ev = false -> roi (after_dispatch E self ev) = roi self.
Proof.
  intros self ev Hev. unfold after_dispatch.
  destruct ev as [c r| | |xl yl|]; simpl; try discriminate.
  - unfold confirm_roi. destruct (roi self) eqn:Hroi; simpl; rewrite ?Hroi; reflexivity.
  - unfold reset_zoom.
    destruct (original_xlim self), (original_ylim self); reflexivity.
  - reflexivity.
  - reflexivity.
Qed.

Lemma after_dispatch_release :
  forall self c r,
    selecting_roi self = true -> rect_selector self = true ->
    roi (after_dispatch E self (RectangleReleased c r)) = Some (rect_of c r) /\
    fig_open (after_dispatch E self (RectangleReleased c r)) = fig_open self.
Proof.
  intros self c r Hs Hr. unfold after_dispatch. simpl. rewrite Hr. simpl.
  unfold on_select. rewrite Hs. split; reflexivity.
Qed.

(** Events that neither close nor confirm are all handled; the figure
    is open after them and the two flags are what they were; the
    candidate too, unless a rectangle was released. *)
Lemma plt_show_prefix :
  forall pre self,
    fig_open self = true ->
    (forall ev, In ev pre -> is_close ev = false /\ is_confirm ev = false) ->
    exists t self',
      fig_open self' = true /\
      selecting_roi self' = selecting_roi self /\
      rect_selector self' = rect_selector self /\
      ((forall ev, In ev pre -> is_release ev = false) -> roi self' = roi self) /\
      forall rest,
        plt_show E self (pre ++ rest)
        = (t ++ fst (plt_show E self' rest), snd (plt_show E self' rest)).
Proof.
  induction pre as [|ev pre IH]; intros self Hopen Hpre.
  - exists [], self.
    split; [exact Hopen|]. split; [reflexivity|]. split; [reflexivity|].
    split; [reflexivity|].
    intros rest. simpl app. destruct (plt_show E self rest). reflexivity.
  - destruct (Hpre ev (or_introl eq_refl)) as [Hc Hf].
    pose proof (after_dispatch_open self ev Hopen Hc Hf) as Hopen'.
    destruct (after_dispatch_flags self ev) as [Hs Hr].
    destruct (IH (after_dispatch E self ev) Hopen') as
        (t & self' & H1 & H2 & H3 & H4 & H5).
    { intros ev' Hin. apply Hpre. right. exact Hin. }
    exists (fst (dispatch E self ev) ++ t), self'.
    split; [exact H1|]. split; [congruence|]. split; [congruence|]. split.
    + intros Hrel. rewrite H4.
      * apply after_dispatch_roi. apply Hrel. left. reflexivity.
      * intros ev' Hin. apply Hrel. right. exact Hin.
    + intros rest. change ((ev :: pre) ++ rest) with (ev :: (pre ++ rest)).
      rewrite plt_show_step by exact Hopen. rewrite H5. simpl.
      rewrite app_assoc. reflexivity.
Qed.

(** The outcome of [select_roi], from that of [plt.show()]. *)
Lemma select_roi_outcome :
  forall self imgArr ui,
    snd (select_roi E self imgArr ui)
    = match snd (plt_show E (select_roi_setup E self imgArr) ui) with
      | Returned closed =>
          match roi closed with
          | None => Raised NoRoiSelected
          | Some r => Returned (set_selecting_roi false closed, r)
          end
      | Raised e => Raised e
      | Blocked => Blocked
      end.
Proof.
  intros self imgArr ui. unfold select_roi.
  destruct (plt_show E (select_roi_setup E self imgArr) ui) as [t [closed|e|]];
    simpl; [|reflexivity|reflexivity].
  change (roi (set_selecting_roi false closed)) with (roi closed).
  destruct (roi closed); reflexivity.
Qed.

Lemma last_drag_none :
  forall ui,
    last_drag ui = None <-> forall c r, ~ In (RectangleReleased c r) ui.
Proof.
  induction ui as [|ev ui IH]; simpl.
  - split; [intros _ c r [] | reflexivity].
  - destruct (last_drag ui) as [r0|].
    + split; [discriminate|]. intros H. exfalso.
      assert (Hsome : Some r0 = None).
      { apply IH. intros c r Hin. apply (H c r). right. exact Hin. }
      discriminate Hsome.
    + destruct IH as [IH _]. specialize (IH eq_refl).
      destruct ev as [c r| | |xl yl|];
        try (split; [|reflexivity]; intros _ c' r' [Heq|Hin];
             [discriminate Heq | exact (IH c' r' Hin)]).
      split; [discriminate|]. intros H. exfalso.
      apply (H c r). left. reflexivity.
Qed.

(** The event loop, against the session told by its events: it comes
    back exactly when the session terminates, and the candidate is then
    the rectangle of the last drag handled, or the one held before. *)
Lemma plt_show_session :
  forall ui s,
    fig_open s = true -> selecting_roi s = true -> rect_selector s = true ->
    (terminates (holds_candidate s) ui = false ->
     snd (plt_show E s ui) = Blocked) /\
    (terminates (holds_candidate s) ui = true ->
     exists closed,
       snd (plt_show E s ui) = Returned closed /\
       roi closed = match last_drag (handled (holds_candidate s) ui) with
                    | Some r => Some r
                    | None => roi s
                    end).
Proof.
  induction ui as [|ev ui IH]; intros s Hopen Hsel Hrect.
  - split; [|discriminate]. intros _. simpl. rewrite Hopen. reflexivity.
  - rewrite plt_show_step by exact Hopen. cbn [snd].
    destruct (after_dispatch_flags s ev) as [Hsel' Hrect'].
    rewrite Hsel in Hsel'. rewrite Hrect in Hrect'.
    destruct ev as [c r| | |xl yl|].
    + destruct (after_dispatch_release s c r Hsel Hrect) as [Hroi' Hopen'].
      rewrite Hopen in Hopen'.
      specialize (IH _ Hopen' Hsel' Hrect').
      unfold holds_candidate in IH at 1 2 3. rewrite Hroi' in IH.
      cbn [terminates handled is_close is_confirm is_release orb andb].
      rewrite orb_true_r. destruct IH as [IH1 IH2]. split; [exact IH1|].
      intros Ht. destruct (IH2 Ht) as (closed & Hrun & Hroi).
      exists closed. split; [exact Hrun|]. rewrite Hroi. cbn [last_drag].
      destruct (last_drag (handled true ui)); reflexivity.
    + unfold holds_candidate. destruct (roi s) as [r0|] eqn:Hroi.
      * assert (Hafter : after_dispatch E s ConfirmClicked = plt_close s).
        { unfold after_dispatch. simpl. unfold confirm_roi. rewrite Hroi.
          reflexivity. }
        rewrite Hafter, plt_show_closed by reflexivity.
        split; [discriminate|]. intros _. exists (plt_close s).
        split; [reflexivity|]. exact Hroi.
      * assert (Hafter : after_dispatch E s ConfirmClicked = s).
        { unfold after_dispatch. simpl. unfold confirm_roi. rewrite Hroi.
          reflexivity. }
        rewrite Hafter. specialize (IH s Hopen Hsel Hrect).
        unfold holds_candidate in IH. rewrite Hroi in IH.
        cbn [terminates handled is_close is_confirm is_release orb andb].
        destruct IH as [IH1 IH2]. split; [exact IH1|].
        intros Ht. destruct (IH2 Ht) as (closed & Hrun & Hclosed).
        exists closed. split; [exact Hrun|]. rewrite Hclosed. cbn [last_drag].
        destruct (last_drag (handled false ui)); reflexivity.
    + pose proof (after_dispatch_open s ResetZoomClicked Hopen eq_refl eq_refl)
        as Hopen'.
      pose proof (after_dispatch_roi s ResetZoomClicked eq_refl) as Hroi'.
      specialize (IH _ Hopen' Hsel' Hrect').
      unfold holds_candidate in *. rewrite Hroi' in IH.
      cbn [terminates handled is_close is_confirm is_release orb andb].
      rewrite orb_false_r. destruct IH as [IH1 IH2]. split; [exact IH1|].
      intros Ht. destruct (IH2 Ht) as (closed & Hrun & Hclosed).
      exists closed. split; [exact Hrun|]. rewrite Hclosed. cbn [last_drag].
      destruct (last_drag (handled _ ui)); reflexivity.
    + pose proof (after_dispatch_open s (Navigated xl yl) Hopen eq_refl eq_refl)
        as Hopen'.
      pose proof (after_dispatch_roi s (Navigated xl yl) eq_refl) as Hroi'.
      specialize (IH _ Hopen' Hsel' Hrect').
      unfold holds_candidate in *. rewrite Hroi' in IH.
      cbn [terminates handled is_close is_confirm is_release orb andb].
      rewrite orb_false_r. destruct IH as [IH1 IH2]. split; [exact IH1|].
      intros Ht. destruct (IH2 Ht) as (closed & Hrun & Hclosed).
      exists closed. split; [exact Hrun|]. rewrite Hclosed. cbn [last_drag].
      destruct (last_drag (handled _ ui)); reflexivity.
    + assert (Hafter : after_dispatch E s WindowClosed = plt_close s)
        by reflexivity.
      rewrite Hafter, plt_show_closed by reflexivity.
      split; [discriminate|]. intros _. exists (plt_close s).
      split; reflexivity.
Qed.

(** C3, as the code has it. On a selector as [get_roi] makes it (figure
    open, no candidate), [select_roi] comes back exactly when the
    session terminates. It then raises "No ROI selected" exactly when
    no drag was released among the events handled, and returns the
    rectangle of the last drag released otherwise, whether the figure
    was closed by a click on confirm or by closing the window. *)
Theorem select_roi_fails_without_candidate :
  forall (self : ROISelector) (imgArr : Array2D) (ui : list ui_event),
    fig_open self = true ->
    roi self = None ->
    (terminates false ui = false ->
     snd (select_roi E self imgArr ui) = Blocked) /\
    (terminates false ui = true ->
     (snd (select_roi E self imgArr ui) = Raised NoRoiSelected <->
      forall c r, ~ In (RectangleReleased c r) (handled false ui)) /\
     (forall r,
         last_drag (handled false ui) = Some r ->
         exists self',
           snd (select_roi E self imgArr ui) = Returned (self', r))) /\
    (last_drag (handled false ui) = None <->
     forall c r, ~ In (RectangleReleased c r) (handled false ui)).
Proof.
  intros self imgArr ui Hopen Hroi.
  set (s0 := select_roi_setup E self imgArr).
  assert (Hroi0 : roi s0 = None) by exact Hroi.
  destruct (plt_show_session ui s0 Hopen eq_refl eq_refl) as [Hblock Hterm].
  unfold holds_candidate in Hblock, Hterm. rewrite Hroi0 in Hblock, Hterm.
  rewrite select_roi_outcome. fold s0.
  split; [|split].
  - intros Hnt. rewrite (Hblock Hnt). reflexivity.
  - intros Ht. destruct (Hterm Ht) as (closed & Hrun & Hclosed).
    rewrite Hrun, Hclosed. rewrite <- last_drag_none.
    destruct (last_drag (handled false ui)) as [r0|].
    + split.
      * split; discriminate.
      * intros r Heq. injection Heq as <-. eexists. reflexivity.
    + split.
      * split; reflexivity.
      * intros r Heq. discriminate Heq.
  - apply last_drag_none.
Qed.

End Session.

(** C3 on two sessions that end with a closed window: one with a click
    on confirm and a zoom but no drag, one in which a rectangle is
    dragged after the click and confirm is not clicked again. *)
Lemma select_roi_fails_without_candidate_witness :
  snd (select_roi Demo.env ROISelector_init Demo.image
         [ConfirmClicked; Navigated (1, 2)%Q (3, 4)%Q; WindowClosed])
  = Raised NoRoiSelected /\
  exists self',
    snd (select_roi Demo.env ROISelector_init Demo.image
           [ConfirmClicked; Demo.drag; Navigated (1, 2)%Q (3, 4)%Q;
            WindowClosed; ConfirmClicked])
    = Returned (self', (1, 2, 5, 4)%Z).
Proof.
  split.
  - destruct (select_roi_fails_without_candidate Demo.env ROISelector_init
                Demo.image
                [ConfirmClicked; Navigated (1, 2)%Q (3, 4)%Q; WindowClosed]
                eq_refl eq_refl) as (_ & Hterm & _).
    destruct (Hterm eq_refl) as [Hraise _]. apply Hraise.
    intros c r [H|[H|[H|[]]]]; discriminate H.
  - destruct (select_roi_fails_without_candidate Demo.env ROISelector_init
                Demo.image
                [ConfirmClicked; Demo.drag; Navigated (1, 2)%Q (3, 4)%Q;
                 WindowClosed; ConfirmClicked]
                eq_refl eq_refl) as (_ & Hterm & _).
    destruct (Hterm eq_refl) as [_ Hreturn]. apply Hreturn. reflexivity.
Defined.

(** C3 as stated fails: a rectangle is dragged and the window closed; the
    confirm button is never clicked, and [select_roi] returns the dragged
    rectangle instead of raising. *)
Lemma select_roi_returns_unconfirmed_candidate :
  let ui := [Demo.drag; WindowClosed] in
  confirm_fired Demo.env
    (select_roi_setup Demo.env ROISelector_init Demo.image) ui = false /\
  (exists self', snd (select_roi Demo.env ROISelector_init Demo.image ui)
                 = Returned (self', (1, 2, 5, 4)%Z)) /\
  ~ (forall (self : ROISelector) (imgArr : Array2D) (ui : list ui_event)
            (t : list (event Demo.env)) (closed : ROISelector),
        plt_show Demo.env (select_roi_setup Demo.env self imgArr) ui
        = (t, Returned closed) ->
        confirm_fired Demo.env (select_roi_setup Demo.env self imgArr) ui = false ->
        snd (select_roi Demo.env self imgArr ui) = Raised NoRoiSelected).
Proof.
  intros ui. split; [reflexivity|]. split.
  - eexists. vm_compute. reflexivity.
  - intros H.
    destruct (plt_show Demo.env
                (select_roi_setup Demo.env ROISelector_init Demo.image) ui)
      as [t o] eqn:Hrun.
    assert (Ho : exists closed, o = Returned closed).
    { vm_compute in Hrun. inversion Hrun. eexists. reflexivity. }
    destruct Ho as [closed Ho]. subst o.
    specialize (H ROISelector_init Demo.image ui t closed Hrun eq_refl).
    vm_compute in H. discriminate H.
Qed.

Section Evaluator.

Variable E : Env.

(** The events of [m] come first in those of [bind m k]. *)
Lemma bind_trace {A B : Type} (m : M E A) (k : A -> M E B) :
  exists t o, bind m k = (fst m ++ t, o).
Proof.
  destruct m as [t [a|e|]]; simpl.
  - destruct (k a) as [t' o]. do 2 eexists. reflexivity.
  - exists [], (Raised e). rewrite app_nil_r. reflexivity.
  - exists [], Blocked. rewrite app_nil_r. reflexivity.
Qed.

Lemma size_zero_iff :
  forall arr, size arr = 0 <-> nrows arr = 0 \/ ncols arr = 0.
Proof.
  intros arr. unfold size. split.
  - intros H. apply Nat.eq_mul_0 in H. exact H.
  - intros [H|H]; rewrite H; lia.
Qed.

(** After a successful decode, [process_image] returns: a value, or
    [None]. *)
Lemma process_image_decoded :
  forall path frequency roi arr,
    LoadImageAsArray E path = Ok arr ->
    exists t v, process_image E path frequency roi = (Loaded path :: t, Returned v).
Proof.
  intros path frequency roi arr Hload. unfold process_image, call.
  rewrite Hload. simpl.
  set (a := match roi with
            | Some (x1, y1, x2, y2) => crop arr y1 y2 x1 x2
            | None => arr
            end).
  destruct (Nat.eqb (size a) 0).
  - do 2 eexists. reflexivity.
  - simpl. destruct (CalculateMtf E a) as [res|e]; simpl.
    + destruct (GetMtfValue E res frequency) as [v|e]; simpl;
        do 2 eexists; reflexivity.
    + do 2 eexists. reflexivity.
Qed.

(** A failed decode leaves [process_image] with its exception. *)
Lemma process_image_undecoded :
  forall path frequency roi e,
    LoadImageAsArray E path = Err e ->
    process_image E path frequency roi = ([Loaded path], Raised e).
Proof.
  intros path frequency roi e Hload. unfold process_image, call.
  rewrite Hload. reflexivity.
Qed.

(** The stages of [process_image] on a decoded image. *)
Lemma process_image_unfold :
  forall path frequency roi arr,
    LoadImageAsArray E path = Ok arr ->
    process_image E path frequency roi
    = if Nat.eqb (size (cropped arr roi)) 0 then ([Loaded path], Returned None)
      else match CalculateMtf E (cropped arr roi) with
           | Err _ => ([Loaded path; Calculated (cropped arr roi)], Returned None)
           | Ok res =>
               ([Loaded path; Calculated (cropped arr roi);
                 Evaluated res frequency],
                match GetMtfValue E res frequency with
                | Ok v => Returned (Some v)
                | Err _ => Returned None
                end)
           end.
Proof.
  intros path frequency roi arr Hload. unfold process_image, call.
  rewrite Hload. simpl.
  change (match roi with
          | Some (x1, y1, x2, y2) => crop arr y1 y2 x1 x2
          | None => arr
          end) with (cropped arr roi).
  destruct (Nat.eqb (size (cropped arr roi)) 0); [reflexivity|].
  simpl. destruct (CalculateMtf E (cropped arr roi)) as [res|e]; simpl.
  - destruct (GetMtfValue E res frequency) as [v|e]; reflexivity.
  - reflexivity.
Qed.

(** What one turn of the loop does, by the outcome of [process_image]:
    the entry is stored before the line is printed, and stays whether
    or not [sys.stdout] takes the line. *)
Lemma batch_step_unfold :
  forall frequency roi results path,
    batch_step E frequency roi results path
    = match process_image E path frequency (Some roi) with
      | (t, Returned (Some v)) =>
          (t ++ [Printed (mtf_line E path frequency v)],
           Returned (dict_setitem E results path v))
      | (t, Returned None) => (t, Returned results)
      | (t, Raised e) => (t, Returned results)
      | (t, Blocked) => (t, Blocked)
      end.
Proof.
  intros frequency roi results path. unfold batch_step.
  destruct (process_image E path frequency (Some roi)) as [t [[v|]|e|]].
  - unfold print_stdout, call. cbn [bind try_except].
    destruct (stdout_write E (mtf_line E path frequency v)) as [[]|e];
      simpl; rewrite ?app_nil_r; reflexivity.
  - simpl. rewrite ?app_nil_r. reflexivity.
  - simpl. rewrite ?app_nil_r. reflexivity.
  - reflexivity.
Qed.

(** C2, as the code has it. [process_image] raises exactly when the
    decoding of the path raises, and then with that exception, which
    the handler of the loop body absorbs: the turn of the loop returns
    the mapping it was given. Once the image is decoded, an empty crop,
    a failure of the curve computation and a failure of its evaluation
    each end in a returned [None]. *)
Theorem process_image_raises_only_on_decode :
  forall (path : string) (frequency : float E) (roi : option rect),
    (forall e, LoadImageAsArray E path = Err e ->
               process_image E path frequency roi = ([Loaded path], Raised e) /\
               forall (r : rect) (results : dict E),
                 batch_step E frequency r results path
                 = ([Loaded path], Returned results)) /\
    (forall arr,
        LoadImageAsArray E path = Ok arr ->
        (size (cropped arr roi) = 0 ->
         process_image E path frequency roi = ([Loaded path], Returned None)) /\
        (forall e,
            size (cropped arr roi) <> 0 ->
            CalculateMtf E (cropped arr roi) = Err e ->
            process_image E path frequency roi
            = ([Loaded path; Calculated (cropped arr roi)], Returned None)) /\
        (forall res e,
            size (cropped arr roi) <> 0 ->
            CalculateMtf E (cropped arr roi) = Ok res ->
            GetMtfValue E res frequency = Err e ->
            process_image E path frequency roi
            = ([Loaded path; Calculated (cropped arr roi);
                Evaluated res frequency], Returned None))) /\
    (forall e, snd (process_image E path frequency roi) = Raised e ->
               LoadImageAsArray E path = Err e).
Proof.
  intros path frequency roi. split; [|split].
  - intros e Hload. split.
    + apply process_image_undecoded. exact Hload.
    + intros r results. rewrite batch_step_unfold.
      rewrite (process_image_undecoded path frequency (Some r) e Hload).
      reflexivity.
  - intros arr Hload.
    rewrite (process_image_unfold path frequency roi arr Hload).
    split; [|split].
    + intros Hsize. rewrite Hsize. reflexivity.
    + intros e Hsize Hcalc. apply Nat.eqb_neq in Hsize.
      rewrite Hsize, Hcalc. reflexivity.
    + intros res e Hsize Hcalc Hget. apply Nat.eqb_neq in Hsize.
      rewrite Hsize, Hcalc, Hget. reflexivity.
  - intros e Hraised.
    destruct (LoadImageAsArray E path) as [arr|e'] eqn:Hload.
    + destruct (process_image_decoded path frequency roi arr Hload)
        as (t & v & Hrun).
      rewrite Hrun in Hraised. discriminate Hraised.
    + rewrite (process_image_undecoded path frequency roi e' Hload) in Hraised.
      simpl in Hraised. inversion Hraised. reflexivity.
Qed.

(** C6. When the image is decoded and the crop [array[y1:y2, x1:x2]] has
    no row or no column, [process_image] returns [None]: nothing is
    raised, and the decoding is the only call into [mtf] (the curve is
    not computed). *)
Theorem process_image_empty_crop :
  forall (path : string) (frequency : float E) (x1 y1 x2 y2 : Z)
         (arr : Array2D),
    LoadImageAsArray E path = Ok arr ->
    nrows (crop arr y1 y2 x1 x2) = 0 \/ ncols (crop arr y1 y2 x1 x2) = 0 ->
    process_image E path frequency (Some (x1, y1, x2, y2))
    = ([Loaded path], Returned None).
Proof.
  intros path frequency x1 y1 x2 y2 arr Hload Hempty.
  apply size_zero_iff in Hempty.
  unfold process_image, call. rewrite Hload. simpl.
  rewrite Hempty. reflexivity.
Qed.

Lemma batch_step_returns :
  forall frequency roi results path,
  exists t results',
    batch_step E frequency roi results path = (t, Returned results').
Proof.
  intros frequency roi results path. rewrite batch_step_unfold.
  destruct (process_image E path frequency (Some roi)) as [t o] eqn:Hrun.
  destruct o as [[v|]|e|].
  - do 2 eexists. reflexivity.
  - do 2 eexists. reflexivity.
  - do 2 eexists. reflexivity.
  - destruct (LoadImageAsArray E path) as [arr|e] eqn:Hload.
    + destruct (process_image_decoded path frequency (Some roi) arr Hload)
        as (t' & v & Heq).
      congruence.
    + rewrite (process_image_undecoded path frequency (Some roi) e Hload) in Hrun.
      discriminate Hrun.
Qed.

Lemma batch_loop_returns :
  forall frequency roi image_paths results,
  exists t results',
    batch_loop E frequency roi results image_paths = (t, Returned results').
Proof.
  intros frequency roi image_paths.
  induction image_paths as [|path rest IH]; intros results; simpl.
  - do 2 eexists. reflexivity.
  - destruct (batch_step_returns frequency roi results path) as (t1 & r1 & H1).
    rewrite H1. simpl.
    destruct (IH r1) as (t2 & r2 & H2). rewrite H2.
    do 2 eexists. reflexivity.
Qed.

(** C10, as the code has it. Every exception of the [try] block is
    absorbed by the handler of the loop body: a turn of the loop
    returns, the loop goes on with the remaining paths from the mapping
    that the turn left, and it returns a mapping whatever the paths.
    When [process_image] raises (as it does when the decoding fails),
    that mapping is the one the turn was given. When the [print] of
    line 152 raises, it holds the entry that line 151 stored. *)
Theorem batch_loop_absorbs_exceptions :
  forall (frequency : float E) (roi : rect) (results : dict E)
         (path : string) (rest : list string),
    (forall t e,
        process_image E path frequency (Some roi) = (t, Raised e) ->
        batch_step E frequency roi results path = (t, Returned results)) /\
    (forall t v e,
        process_image E path frequency (Some roi) = (t, Returned (Some v)) ->
        stdout_write E (mtf_line E path frequency v) = Err e ->
        batch_step E frequency roi results path
        = (t ++ [Printed (mtf_line E path frequency v)],
           Returned (dict_setitem E results path v))) /\
    (exists t results',
        batch_step E frequency roi results path = (t, Returned results') /\
        batch_loop E frequency roi results (path :: rest)
        = (t ++ fst (batch_loop E frequency roi results' rest),
           snd (batch_loop E frequency roi results' rest))) /\
    exists t' results',
      batch_loop E frequency roi results (path :: rest) = (t', Returned results').
Proof.
  intros frequency roi results path rest. split; [|split; [|split]].
  - intros t e Hrun. rewrite batch_step_unfold, Hrun. reflexivity.
  - intros t v e Hrun _. rewrite batch_step_unfold, Hrun. reflexivity.
  - destruct (batch_step_returns frequency roi results path) as (t & r & Hstep).
    exists t, r. split; [exact Hstep|].
    simpl. rewrite Hstep. simpl.
    destruct (batch_loop E frequency roi r rest). reflexivity.
  - apply batch_loop_returns.
Qed.

(** C7. When the filtered list of paths is empty, [batch_process] raises
    "No images found" and has done nothing before (no image decoded, no
    figure shown). When it is not empty, nothing is raised at that
    point: the run goes on with [get_roi] on the first path and then
    the loop, and its first event is the decoding of that path. *)
Theorem batch_process_no_images :
  forall (fs : Glob.filesystem) (ui : list ui_event)
         (directory_path : string) (frequency : float E),
    (discover fs directory_path = [] ->
     batch_process E fs ui directory_path frequency = ([], Raised NoImagesFound)) /\
    (forall first rest,
        discover fs directory_path = first :: rest ->
        batch_process E fs ui directory_path frequency
        = bind (get_roi E first ui)
               (fun roi =>
                  bind (batch_loop E frequency roi [] (first :: rest)) ret) /\
        exists t o,
          batch_process E fs ui directory_path frequency = (Loaded first :: t, o)).
Proof.
  intros fs ui directory_path frequency. split.
  - intros Hempty. unfold batch_process. rewrite Hempty. reflexivity.
  - intros first rest Hpaths.
    assert (Heq : batch_process E fs ui directory_path frequency
                  = bind (get_roi E first ui)
                      (fun roi =>
                         bind (batch_loop E frequency roi [] (first :: rest)) ret)).
    { unfold batch_process. rewrite Hpaths. reflexivity. }
    split; [exact Heq|]. rewrite Heq.
    unfold get_roi.
    destruct (bind_trace (call (Loaded first) (LoadImageAsArray E first))
                (fun imgArr =>
                   bind (select_roi E ROISelector_init imgArr ui)
                        (fun sr => ret (snd sr))))
      as (t1 & o1 & H1).
    rewrite H1.
    destruct (bind_trace
                (fst (call (Loaded first) (LoadImageAsArray E first)) ++ t1, o1)
                (fun roi =>
                   bind (batch_loop E frequency roi [] (first :: rest)) ret))
      as (t2 & o2 & H2).
    rewrite H2. simpl. do 2 eexists. reflexivity.
Qed.

End Evaluator.

(* ------------------------------------------------------------------ *)
(** ** Strings *)

Module StrFacts.

Local Open Scope string_scope.

Lemma append_nil_r : forall s : string, s ++ "" = s.
Proof. induction s as [|a s IH]; simpl; [reflexivity | now rewrite IH]. Qed.

Lemma append_assoc : forall a b c : string, (a ++ b) ++ c = a ++ (b ++ c).
Proof. induction a as [|x a IH]; intros; simpl; [reflexivity | now rewrite IH]. Qed.

Lemma append_inj_l : forall p a b : string, p ++ a = p ++ b -> a = b.
Proof.
  induction p as [|x p IH]; simpl; intros a b H.
  - exact H.
  - inversion H. apply IH. assumption.
Qed.

Lemma length_append :
  forall a b : string,
    String.length (a ++ b) = String.length a + String.length b.
Proof. induction a as [|x a IH]; intros b; simpl; [reflexivity | now rewrite IH]. Qed.

Lemma append_empty : forall a b : string, a ++ b = "" -> a = "" /\ b = "".
Proof. intros [|x a] b H; simpl in H; [auto | discriminate]. Qed.

Lemma contains_char_app :
  forall c a b,
    Str.contains_char c (a ++ b)
    = (Str.contains_char c a || Str.contains_char c b)%bool.
Proof.
  induction a as [|x a IH]; intros b; simpl.
  - reflexivity.
  - rewrite IH. now rewrite orb_assoc.
Qed.

Lemma count_char_app :
  forall c a b,
    Str.count_char c (a ++ b) = Str.count_char c a + Str.count_char c b.
Proof.
  induction a as [|x a IH]; intros b; simpl.
  - reflexivity.
  - rewrite IH. lia.
Qed.

Lemma count_char_absent :
  forall c s, Str.contains_char c s = false -> Str.count_char c s = 0.
Proof.
  induction s as [|x s IH]; simpl; intros H.
  - reflexivity.
  - apply orb_false_iff in H. destruct H as [H1 H2].
    rewrite H1. simpl. apply IH. exact H2.
Qed.

Lemma split_nonempty : forall c s, Str.split c s <> [].
Proof.
  intros c s. destruct s as [|a s]; simpl.
  - discriminate.
  - destruct (Ascii.eqb a c); [discriminate|].
    destruct (Str.split c s); discriminate.
Qed.

(** [len(s.split(c)) == s.count(c) + 1]. *)
Lemma split_length :
  forall c s, List.length (Str.split c s) = S (Str.count_char c s).
Proof.
  induction s as [|a s IH]; simpl.
  - reflexivity.
  - destruct (Ascii.eqb a c); simpl.
    + now rewrite IH.
    + destruct (Str.split c s) eqn:Hs; simpl in *; [discriminate | exact IH].
Qed.

Lemma split_absent :
  forall c s, Str.contains_char c s = false -> Str.split c s = [s].
Proof.
  induction s as [|a s IH]; simpl; intros H.
  - reflexivity.
  - apply orb_false_iff in H. destruct H as [H1 H2].
    rewrite H1, (IH H2). reflexivity.
Qed.

Lemma split_app_sep :
  forall c a b,
    Str.contains_char c a = false ->
    Str.split c (a ++ String c b) = a :: Str.split c b.
Proof.
  induction a as [|x a IH]; simpl; intros b H.
  - rewrite Ascii.eqb_refl. reflexivity.
  - apply orb_false_iff in H. destruct H as [H1 H2].
    rewrite H1, (IH b H2). reflexivity.
Qed.

(** [c.join(pieces).split(c) == pieces] when no piece holds [c]. *)
Lemma split_join :
  forall c pieces,
    pieces <> [] ->
    Forall (fun p => Str.contains_char c p = false) pieces ->
    Str.split c (Str.join c pieces) = pieces.
Proof.
  induction pieces as [|p ps IH]; intros Hne Hall.
  - contradiction.
  - inversion Hall as [|? ? Hp Hps]; subst.
    destruct ps as [|q ps].
    + simpl. apply split_absent. exact Hp.
    + change (Str.join c (p :: q :: ps)) with (p ++ String c (Str.join c (q :: ps))).
      rewrite split_app_sep by exact Hp.
      rewrite IH; [reflexivity | discriminate | exact Hps].
Qed.

Lemma join_inj :
  forall c a b,
    a <> [] -> b <> [] ->
    Forall (fun p => Str.contains_char c p = false) a ->
    Forall (fun p => Str.contains_char c p = false) b ->
    Str.join c a = Str.join c b -> a = b.
Proof.
  intros c a b Ha Hb Fa Fb H.
  rewrite <- (split_join c a Ha Fa), <- (split_join c b Hb Fb), H.
  reflexivity.
Qed.

Lemma join_snoc :
  forall c ps p,
    ps <> [] ->
    Str.join c (ps ++ [p]) = Str.join c ps ++ String c p.
Proof.
  induction ps as [|q ps IH]; intros p Hne.
  - contradiction.
  - destruct ps as [|r ps].
    + reflexivity.
    + change (Str.join c ((q :: r :: ps) ++ [p]))
        with (q ++ String c (Str.join c ((r :: ps) ++ [p]))).
      rewrite IH by discriminate.
      change (Str.join c (q :: r :: ps)) with (q ++ String c (Str.join c (r :: ps))).
      rewrite append_assoc. reflexivity.
Qed.

Lemma endswith_char_snoc :
  forall c s x, Str.endswith_char c (s ++ String x "") = Ascii.eqb x c.
Proof.
  induction s as [|a s IH]; intros x; simpl.
  - reflexivity.
  - destruct (s ++ String x "") eqn:Hs.
    + destruct s; discriminate.
    + rewrite <- Hs. apply IH.
Qed.

Lemma endswith_char_app :
  forall c a b, b <> "" -> Str.endswith_char c (a ++ b) = Str.endswith_char c b.
Proof.
  induction a as [|x a IH]; intros b Hb; simpl.
  - reflexivity.
  - destruct (a ++ b) eqn:Hab.
    + apply append_empty in Hab. destruct Hab. contradiction.
    + rewrite <- Hab. apply IH. exact Hb.
Qed.

Lemma endswith_char_absent :
  forall c s, Str.contains_char c s = false -> Str.endswith_char c s = false.
Proof.
  induction s as [|a s IH]; simpl; intros H.
  - reflexivity.
  - apply orb_false_iff in H. destruct H as [H1 H2].
    destruct s; [exact H1 | apply IH; exact H2].
Qed.

Lemma startswith_char_absent :
  forall c s, Str.contains_char c s = false -> Str.startswith_char c s = false.
Proof.
  intros c [|a s]; simpl; intros H.
  - reflexivity.
  - apply orb_false_iff in H. tauto.
Qed.

Lemma rstrip_snoc_other :
  forall c s x, Ascii.eqb x c = false ->
                Str.rstrip c (s ++ String x "") = s ++ String x "".
Proof.
  induction s as [|a s IH]; intros x Hx; simpl.
  - rewrite Hx. reflexivity.
  - rewrite (IH x Hx). destruct (s ++ String x "") eqn:Hs.
    + destruct s; discriminate.
    + reflexivity.
Qed.

Lemma rstrip_snoc_same :
  forall c s, Str.rstrip c (s ++ String c "") = Str.rstrip c s.
Proof.
  induction s as [|a s IH]; simpl.
  - rewrite Ascii.eqb_refl. reflexivity.
  - rewrite IH. reflexivity.
Qed.

Lemma rstrip_contains :
  forall c x s, Str.contains_char x (Str.rstrip c s) = true ->
                Str.contains_char x s = true.
Proof.
  induction s as [|a s IH]; simpl; intros H.
  - discriminate.
  - destruct (Str.rstrip c s) eqn:Hr.
    + destruct (Ascii.eqb a c); simpl in H; [discriminate|].
      rewrite orb_false_r in H. rewrite H. reflexivity.
    + simpl in H. apply orb_true_iff in H. destruct H as [H|H].
      * rewrite H. reflexivity.
      * rewrite IH; [apply orb_true_r | exact H].
Qed.

Lemma all_char_contains_other :
  forall c x s, Ascii.eqb x c = false -> Str.contains_char x s = true ->
                Str.all_char c s = false.
Proof.
  induction s as [|a s IH]; simpl; intros Hx H.
  - discriminate.
  - apply orb_true_iff in H. destruct H as [H|H].
    + apply Ascii.eqb_eq in H. subst a. rewrite Hx. reflexivity.
    + rewrite (IH Hx H). apply andb_false_r.
Qed.

Lemma endswith_refl : forall s, Str.endswith s s = true.
Proof. intros [|a s]; simpl; rewrite ?Ascii.eqb_refl, ?String.eqb_refl; reflexivity. Qed.

Lemma endswith_nil :
  forall suffix, Str.endswith "" suffix = String.eqb "" suffix.
Proof. intros suffix. cbn [Str.endswith]. apply orb_false_r. Qed.

Lemma endswith_cons :
  forall a s suffix,
    Str.endswith (String a s) suffix
    = (String.eqb (String a s) suffix || Str.endswith s suffix)%bool.
Proof. reflexivity. Qed.

Lemma endswith_spec :
  forall s suffix,
    Str.endswith s suffix = true <-> exists pre, s = pre ++ suffix.
Proof.
  induction s as [|a s IH]; intros suffix.
  - rewrite endswith_nil. split.
    + intros H. apply String.eqb_eq in H. subst. exists "". reflexivity.
    + intros [pre H]. symmetry in H. apply append_empty in H.
      destruct H as [_ H]. subst. reflexivity.
  - rewrite endswith_cons. split.
    + intros H. apply orb_true_iff in H. destruct H as [H|H].
      * apply String.eqb_eq in H. exists "". simpl. exact H.
      * apply IH in H. destruct H as [pre H]. exists (String a pre).
        simpl. now rewrite H.
    + intros [pre H]. apply orb_true_iff. destruct pre as [|x pre]; simpl in H.
      * left. apply String.eqb_eq. exact H.
      * right. injection H as Ha Hs. apply IH. exists pre. exact Hs.
Qed.

Lemma endswith_app :
  forall pre s suffix,
    Str.endswith s suffix = true -> Str.endswith (pre ++ s) suffix = true.
Proof.
  intros pre s suffix H. apply endswith_spec in H. destruct H as [q H].
  apply endswith_spec. exists (pre ++ q). rewrite H. now rewrite append_assoc.
Qed.

End StrFacts.

(* ------------------------------------------------------------------ *)
(** ** posixpath *)

Module PosixpathFacts.

Import StrFacts.
Local Open Scope string_scope.

Import Tree.

Lemma cut_last_sep_absent :
  forall t, Str.contains_char Posixpath.sep t = false ->
            Posixpath.cut_last_sep t = ("", t).
Proof.
  induction t as [|a t IH]; simpl; intros H.
  - reflexivity.
  - apply orb_false_iff in H. destruct H as [H1 H2].
    rewrite (IH H2), H1. reflexivity.
Qed.

(** The cut falls where the last separator is. *)
Lemma cut_last_sep_app :
  forall h t,
    Str.contains_char Posixpath.sep t = false ->
    h = "" \/ Str.endswith_char Posixpath.sep h = true ->
    Posixpath.cut_last_sep (h ++ t) = (h, t).
Proof.
  induction h as [|a h IH]; intros t Ht Hh.
  - simpl. apply cut_last_sep_absent. exact Ht.
  - destruct h as [|b h].
    + destruct Hh as [Hh|Hh]; [discriminate|].
      simpl in Hh. simpl. rewrite (cut_last_sep_absent t Ht), Hh. reflexivity.
    + assert (Hh' : Str.endswith_char Posixpath.sep (String b h) = true).
      { destruct Hh as [Hh|Hh]; [discriminate | exact Hh]. }
      change ((String a (String b h)) ++ t) with (String a (String b h ++ t)).
      cbn [Posixpath.cut_last_sep].
      rewrite (IH t Ht (or_intror Hh')).
      destruct (Ascii.eqb a Posixpath.sep); reflexivity.
Qed.

(** [join(a, b)] when [b] does not start with the separator. *)
Lemma join_relative :
  forall a b,
    Str.startswith_char Posixpath.sep b = false ->
    Posixpath.join a b
    = if (String.eqb a "" || Str.endswith_char Posixpath.sep a)%bool
      then a ++ b else a ++ String Posixpath.sep b.
Proof. intros a b H. unfold Posixpath.join. rewrite H. reflexivity. Qed.

Lemma join_stars :
  forall d, Posixpath.join d "**" = stem d ++ "**".
Proof.
  intros d. unfold Posixpath.join, stem. simpl.
  destruct (String.eqb d "" || Str.endswith_char Posixpath.sep d)%bool.
  - reflexivity.
  - rewrite append_assoc. reflexivity.
Qed.

Lemma stem_cut :
  forall d, stem d = "" \/ Str.endswith_char Posixpath.sep (stem d) = true.
Proof.
  intros d. unfold stem.
  destruct (String.eqb d "") eqn:He; simpl.
  - left. apply String.eqb_eq. exact He.
  - destruct (Str.endswith_char Posixpath.sep d) eqn:Hs.
    + right. exact Hs.
    + right. apply endswith_char_snoc.
Qed.

Lemma split_stars :
  forall d, snd (Posixpath.split (Posixpath.join d "**")) = "**".
Proof.
  intros d. rewrite join_stars. unfold Posixpath.split.
  rewrite cut_last_sep_app; [|reflexivity|apply stem_cut].
  destruct (negb (String.eqb (stem d) "") && negb (Str.all_char Posixpath.sep (stem d)))%bool;
    reflexivity.
Qed.

Lemma scan_dir_magic :
  forall d, Glob.has_magic d = false -> Glob.has_magic (Tree.scan_dir d) = false.
Proof.
  intros d Hd. unfold Tree.scan_dir. rewrite join_stars. unfold Posixpath.split.
  rewrite cut_last_sep_app; [|reflexivity|apply stem_cut].
  assert (Hstem : forall c, Ascii.eqb c Posixpath.sep = false ->
                            Str.contains_char c d = false ->
                            Str.contains_char c (stem d) = false).
  { intros c Hc H. unfold stem.
    destruct (String.eqb d "" || Str.endswith_char Posixpath.sep d)%bool; [exact H|].
    rewrite contains_char_app, H. cbn [Str.contains_char orb].
    rewrite Ascii.eqb_sym, Hc. reflexivity. }
  assert (Hstrip : forall c, Str.contains_char c (stem d) = false ->
                             Str.contains_char c (Str.rstrip Posixpath.sep (stem d)) = false).
  { intros c H. destruct (Str.contains_char c (Str.rstrip Posixpath.sep (stem d))) eqn:Hr;
      [|reflexivity].
    apply rstrip_contains in Hr. congruence. }
  unfold Glob.has_magic in *.
  apply orb_false_iff in Hd. destruct Hd as [Hd H3].
  apply orb_false_iff in Hd. destruct Hd as [H1 H2].
  destruct (negb (String.eqb (stem d) "") && negb (Str.all_char Posixpath.sep (stem d)))%bool;
    simpl.
  - rewrite !Hstrip; auto.
  - rewrite !Hstem; auto.
Qed.

(** [posixpath.split] finds the two parts of the pattern again. *)
Lemma split_join3 :
  forall d b,
    Str.contains_char Posixpath.sep b = false ->
    Posixpath.split (Posixpath.join3 d "**" b) = (Posixpath.join d "**", b).
Proof.
  intros d b Hb. unfold Posixpath.join3. rewrite join_stars.
  rewrite join_relative by (apply startswith_char_absent; exact Hb).
  assert (Hend : Str.endswith_char Posixpath.sep (stem d ++ "**") = false).
  { rewrite endswith_char_app by discriminate. reflexivity. }
  assert (Hne : String.eqb (stem d ++ "**") "" = false).
  { apply String.eqb_neq. intros H. apply append_empty in H.
    destruct H. discriminate. }
  rewrite Hne, Hend. simpl orb. cbv iota.
  unfold Posixpath.split.
  replace ((stem d ++ "**") ++ String Posixpath.sep b)
    with (((stem d ++ "**") ++ String Posixpath.sep "") ++ b)
    by (rewrite !append_assoc; reflexivity).
  rewrite cut_last_sep_app;
    [|exact Hb|right; apply endswith_char_snoc].
  assert (Hne' : String.eqb ((stem d ++ "**") ++ String Posixpath.sep "") "" = false).
  { apply String.eqb_neq. intros H. apply append_empty in H.
    destruct H. discriminate. }
  assert (Hall : Str.all_char Posixpath.sep ((stem d ++ "**") ++ String Posixpath.sep "") = false).
  { apply all_char_contains_other with (x := "*"%char); [reflexivity|].
    rewrite !contains_char_app. simpl. rewrite orb_true_r. reflexivity. }
  rewrite Hne', Hall. simpl andb. cbv iota.
  rewrite rstrip_snoc_same.
  replace (stem d ++ "**") with ((stem d ++ "*") ++ String "*"%char "")
    by (rewrite append_assoc; reflexivity).
  rewrite rstrip_snoc_other by reflexivity. reflexivity.
Qed.

End PosixpathFacts.

(* ------------------------------------------------------------------ *)
(** ** The order on strings and [sorted] *)

Module SortedFacts.

Lemma ascii_compare_refl : forall a, Ascii.compare a a = Eq.
Proof. intros a. unfold Ascii.compare. apply N.compare_refl. Qed.

Lemma compare_refl : forall s, String.compare s s = Eq.
Proof.
  induction s as [|a s IH]; simpl.
  - reflexivity.
  - rewrite ascii_compare_refl. exact IH.
Qed.

Lemma compare_lt_trans :
  forall a b c,
    String.compare a b = Lt -> String.compare b c = Lt -> String.compare a c = Lt.
Proof.
  induction a as [|x a IH]; intros [|y b] [|z c] Hab Hbc; simpl in *;
    try discriminate; try reflexivity.
  unfold Ascii.compare in *.
  destruct (N.compare_spec (N_of_ascii x) (N_of_ascii y)) as [Exy|Lxy|Gxy];
    try discriminate;
    destruct (N.compare_spec (N_of_ascii y) (N_of_ascii z)) as [Eyz|Lyz|Gyz];
    try discriminate.
  - rewrite Exy, Eyz, N.compare_refl. apply (IH b c); assumption.
  - rewrite Exy. apply N.compare_lt_iff in Lyz. rewrite Lyz. reflexivity.
  - rewrite <- Eyz. apply N.compare_lt_iff in Lxy. rewrite Lxy. reflexivity.
  - assert (H : (N_of_ascii x < N_of_ascii z)%N) by lia.
    apply N.compare_lt_iff in H. rewrite H. reflexivity.
Qed.

Lemma le_refl : forall a, Str.le a a.
Proof. intros a. unfold Str.le, String.leb. now rewrite compare_refl. Qed.

Lemma le_trans : forall a b c, Str.le a b -> Str.le b c -> Str.le a c.
Proof.
  unfold Str.le, String.leb. intros a b c Hab Hbc.
  destruct (String.compare a b) eqn:Eab; try discriminate;
    destruct (String.compare b c) eqn:Ebc; try discriminate.
  - apply String.compare_eq_iff in Eab, Ebc. subst. now rewrite compare_refl.
  - apply String.compare_eq_iff in Eab. subst. now rewrite Ebc.
  - apply String.compare_eq_iff in Ebc. subst. now rewrite Eab.
  - now rewrite (compare_lt_trans a b c Eab Ebc).
Qed.

Lemma le_total : forall a b, Str.le a b \/ Str.le b a.
Proof. intros a b. apply String.leb_total. Qed.

Lemma insert_sorted_perm :
  forall x l, Permutation (x :: l) (insert_sorted x l).
Proof.
  induction l as [|y l IH]; simpl.
  - apply Permutation_refl.
  - destruct (String.leb x y).
    + apply Permutation_refl.
    + apply perm_trans with (y :: x :: l); [apply perm_swap|].
      apply perm_skip. exact IH.
Qed.

Lemma sorted_perm : forall l, Permutation l (sorted l).
Proof.
  induction l as [|x l IH]; simpl.
  - apply perm_nil.
  - apply perm_trans with (x :: sorted l).
    + apply perm_skip. exact IH.
    + apply insert_sorted_perm.
Qed.

Lemma insert_sorted_ordered :
  forall x l, StronglySorted Str.le l -> StronglySorted Str.le (insert_sorted x l).
Proof.
  induction l as [|y l IH]; intros Hl; simpl.
  - constructor; constructor.
  - inversion Hl as [|? ? Hl' Hy]; subst.
    destruct (String.leb x y) eqn:Hxy.
    + constructor; [exact Hl|]. constructor; [exact Hxy|].
      eapply Forall_impl; [|exact Hy].
      intros z Hz. apply le_trans with y; assumption.
    + constructor; [apply IH; exact Hl'|].
      apply (Permutation_Forall (insert_sorted_perm x l)).
      constructor; [|exact Hy].
      destruct (le_total x y) as [H|H]; [unfold Str.le in H; congruence | exact H].
Qed.

(** [sorted] returns its argument in ascending order. *)
Lemma sorted_ordered : forall l, StronglySorted Str.le (sorted l).
Proof.
  induction l as [|x l IH]; simpl.
  - constructor.
  - apply insert_sorted_ordered. exact IH.
Qed.

Lemma filter_ordered :
  forall (f : string -> bool) l,
    StronglySorted Str.le l -> StronglySorted Str.le (filter f l).
Proof.
  induction l as [|x l IH]; intros Hl; simpl.
  - constructor.
  - inversion Hl as [|? ? Hl' Hx]; subst.
    destruct (f x).
    + constructor; [apply IH; exact Hl'|].
      apply Forall_forall. intros y Hy. apply filter_In in Hy.
      rewrite Forall_forall in Hx. apply Hx. tauto.
    + apply IH. exact Hl'.
Qed.

Lemma sorted_in : forall l x, In x (sorted l) <-> In x l.
Proof.
  intros l x. split; intros H.
  - eapply Permutation_in; [apply Permutation_sym, sorted_perm | exact H].
  - eapply Permutation_in; [apply sorted_perm | exact H].
Qed.

Lemma sorted_nodup : forall l, NoDup l -> NoDup (sorted l).
Proof.
  intros l H. eapply Permutation_NoDup; [apply sorted_perm | exact H].
Qed.

End SortedFacts.

(* ------------------------------------------------------------------ *)
(** ** The two patterns of the program *)

Module FnmatchFacts.

Import StrFacts.

(** A pattern that begins with "*" matches the names of which some
    suffix matches the rest of the pattern. *)
Lemma matches_star_cons :
  forall ts a s,
    Fnmatch.matches (Fnmatch.Star :: ts) (String a s)
    = (Fnmatch.matches ts (String a s)
       || Fnmatch.matches (Fnmatch.Star :: ts) s)%bool.
Proof. reflexivity. Qed.

Lemma matches_star_nil :
  forall ts,
    Fnmatch.matches (Fnmatch.Star :: ts) "" = Fnmatch.matches ts "".
Proof. intros ts. cbn [Fnmatch.matches]. apply orb_false_r. Qed.

Lemma matches_star_suffixes :
  forall ts (accepts : string -> bool),
    (forall s, Fnmatch.matches ts s = accepts s) ->
    forall s,
      Fnmatch.matches (Fnmatch.Star :: ts) s
      = (accepts s
         || match s with
            | EmptyString => false
            | String _ s' => Fnmatch.matches (Fnmatch.Star :: ts) s'
            end)%bool.
Proof.
  intros ts accepts H [|a s].
  - rewrite matches_star_nil, H, orb_false_r. reflexivity.
  - rewrite matches_star_cons, H. reflexivity.
Qed.

Lemma jpeg_tail :
  forall s,
    Fnmatch.matches
      [Fnmatch.Lit "."; Fnmatch.Lit "j"; Fnmatch.Lit "p"; Fnmatch.Lit "e";
       Fnmatch.Lit "g"] s
    = String.eqb s ".jpeg".
Proof.
  intros s.
  destruct s as [|c1 [|c2 [|c3 [|c4 [|c5 [|c6 s]]]]]]; try reflexivity;
    cbn [Fnmatch.matches String.eqb];
    repeat match goal with
           | |- context [Ascii.eqb ?a ?c] => destruct (Ascii.eqb a c)
           end; reflexivity.
Qed.

Lemma jpg_png_tail :
  forall s,
    Fnmatch.matches
      [Fnmatch.Lit "."; Fnmatch.OneOf false ["j"%char; "p"%char];
       Fnmatch.OneOf false ["p"%char; "n"%char]; Fnmatch.Lit "g"] s
    = (String.eqb s ".jpg" || String.eqb s ".jng"
       || String.eqb s ".ppg" || String.eqb s ".png")%bool.
Proof.
  intros s.
  destruct s as [|c1 [|c2 [|c3 [|c4 [|c5 s]]]]]; try reflexivity;
    cbn [Fnmatch.matches String.eqb Fnmatch.mem existsb xorb];
    repeat match goal with
           | |- context [Ascii.eqb ?a ?c] => destruct (Ascii.eqb a c)
           end; reflexivity.
Qed.

(** "*.jpeg" matches the names that end in ".jpeg". *)
Lemma fnmatch_jpeg :
  forall name,
    Fnmatch.fnmatchcase name "*.jpeg" = Str.endswith name ".jpeg".
Proof.
  intros name. unfold Fnmatch.fnmatchcase.
  change (Fnmatch.translate "*.jpeg")
    with [Fnmatch.Star; Fnmatch.Lit "."; Fnmatch.Lit "j"; Fnmatch.Lit "p";
          Fnmatch.Lit "e"; Fnmatch.Lit "g"].
  induction name as [|a name IH].
  - reflexivity.
  - rewrite (matches_star_suffixes _ _ jpeg_tail), endswith_cons, IH.
    reflexivity.
Qed.

(** "*.[jp][pn]g" matches the names that end in ".jpg", ".jng", ".ppg"
    or ".png". *)
Lemma fnmatch_jpg_png :
  forall name,
    Fnmatch.fnmatchcase name "*.[jp][pn]g"
    = (Str.endswith name ".jpg" || Str.endswith name ".jng"
       || Str.endswith name ".ppg" || Str.endswith name ".png")%bool.
Proof.
  intros name. unfold Fnmatch.fnmatchcase.
  change (Fnmatch.translate "*.[jp][pn]g")
    with [Fnmatch.Star; Fnmatch.Lit ".";
          Fnmatch.OneOf false ["j"%char; "p"%char];
          Fnmatch.OneOf false ["p"%char; "n"%char]; Fnmatch.Lit "g"].
  induction name as [|a name IH].
  - reflexivity.
  - rewrite (matches_star_suffixes _ _ jpg_png_tail), !endswith_cons, IH.
    repeat match goal with
           | |- context [String.eqb ?x ?y] => destruct (String.eqb x y)
           end;
      repeat match goal with
             | |- context [Str.endswith ?x ?y] => destruct (Str.endswith x y)
             end; reflexivity.
Qed.

(** Of two suffixes of a name, the shorter is a suffix of the longer. *)
Lemma endswith_shorter :
  forall s a b,
    Str.endswith s a = true -> Str.endswith s b = true ->
    String.length b <= String.length a ->
    Str.endswith a b = true.
Proof.
  intros s a b Ha Hb Hlen.
  apply endswith_spec in Ha, Hb. destruct Ha as [p Ha], Hb as [q Hb].
  subst s. revert q Hb. induction p as [|x p IH]; intros q Hb.
  - simpl in Hb. apply endswith_spec. exists q. exact Hb.
  - destruct q as [|y q].
    + exfalso. simpl in Hb. apply (f_equal String.length) in Hb.
      simpl in Hb. rewrite length_append in Hb. lia.
    + simpl in Hb. injection Hb as _ Hb. apply (IH q Hb).
Qed.

Lemma patterns_disjoint :
  forall name,
    Fnmatch.fnmatchcase name "*.[jp][pn]g" = true ->
    Fnmatch.fnmatchcase name "*.jpeg" = true -> False.
Proof.
  intros name H1 H2. rewrite fnmatch_jpg_png in H1. rewrite fnmatch_jpeg in H2.
  repeat (apply orb_true_iff in H1; destruct H1 as [H1|H1]);
    pose proof (endswith_shorter name _ _ H2 H1) as H;
    (specialize (H ltac:(simpl; lia)); vm_compute in H; discriminate H).
Qed.

End FnmatchFacts.

(* ------------------------------------------------------------------ *)
(** ** Directory trees and [glob] *)

Module GlobFacts.

Import Glob Tree StrFacts PosixpathFacts.

(** Induction on a tree, with the hypothesis for every entry of a
    directory. *)
Lemma node_induction (P : node -> Prop) :
  P File ->
  (forall entries, Forall (fun e => P (snd e)) entries -> P (Dir entries)) ->
  forall n, P n.
Proof.
  intros HF HD. fix IH 1. intros [|entries].
  - exact HF.
  - apply HD. induction entries as [|[x child] es IHes].
    + constructor.
    + constructor; [apply IH | exact IHes].
Qed.

Lemma rlistdir_cons :
  forall x child es,
    _rlistdir (Dir ((x, child) :: es))
    = (if (is_dir child && negb (_ishidden x))%bool
       then (x, content child)
              :: map (fun yl => (_join x (fst yl), snd yl)) (_rlistdir child)
       else [])
      ++ _rlistdir (Dir es).
Proof. reflexivity. Qed.

Lemma chains_cons :
  forall x child es,
    chains (Dir ((x, child) :: es))
    = (if (is_dir child && negb (_ishidden x))%bool
       then ([x], content child)
              :: map (fun yl => (x :: fst yl, snd yl)) (chains child)
       else [])
      ++ chains (Dir es).
Proof. reflexivity. Qed.

Lemma valid_name_spec :
  forall x, valid_name x = true ->
            x <> ""%string /\ Str.contains_char Posixpath.sep x = false.
Proof.
  intros x H. unfold valid_name in H. apply andb_true_iff in H.
  destruct H as [H1 H2]. apply negb_true_iff in H1, H2.
  split; [apply String.eqb_neq; exact H1 | exact H2].
Qed.

Lemma distinct_spec : forall names, distinct names = true -> NoDup names.
Proof.
  induction names as [|x names IH]; simpl; intros H.
  - constructor.
  - apply andb_true_iff in H. destruct H as [H1 H2]. constructor.
    + intros Hin. apply negb_true_iff in H1.
      assert (Hex : existsb (String.eqb x) names = true).
      { apply existsb_exists. exists x. split; [exact Hin | apply String.eqb_refl]. }
      congruence.
    + apply IH. exact H2.
Qed.

Lemma well_formed_cons :
  forall x child es,
    well_formed (Dir ((x, child) :: es)) = true ->
    valid_name x = true /\ well_formed child = true /\
    well_formed (Dir es) = true /\ ~ In x (map fst es).
Proof.
  intros x child es H.
  change (well_formed (Dir ((x, child) :: es)))
    with (distinct (x :: map fst es)
          && (valid_name x && well_formed child
              && (fix each (es : list (string * node)) : bool :=
                    match es with
                    | [] => true
                    | (x, child) :: es' =>
                        valid_name x && well_formed child && each es'
                    end) es))%bool in H.
  apply andb_true_iff in H. destruct H as [Hd H].
  apply andb_true_iff in H. destruct H as [H He].
  apply andb_true_iff in H. destruct H as [Hx Hc].
  pose proof (distinct_spec _ Hd) as Hnd. inversion Hnd; subst.
  simpl in Hd. apply andb_true_iff in Hd. destruct Hd as [_ Hd].
  repeat split; try assumption.
  simpl. rewrite Hd, He. reflexivity.
Qed.

Lemma well_formed_names :
  forall es, well_formed (Dir es) = true ->
             NoDup (map fst es) /\
             Forall (fun x => valid_name x = true) (map fst es).
Proof.
  induction es as [|[x child] es IH]; intros H.
  - split; constructor.
  - apply well_formed_cons in H. destruct H as (Hx & _ & Hes & Hnin).
    destruct (IH Hes) as [Hnd Hall]. split; simpl; constructor; assumption.
Qed.

Lemma chains_good :
  forall n, well_formed n = true -> Forall good_chain (chains n).
Proof.
  induction n as [|entries IH] using node_induction; intros Hwf.
  - constructor.
  - induction entries as [|[x child] es IHes].
    + constructor.
    + rewrite chains_cons. inversion IH as [|? ? Hchild Hrest]; subst.
      apply well_formed_cons in Hwf. destruct Hwf as (Hx & Hc & Hes & _).
      apply Forall_app. split; [|apply IHes; assumption].
      destruct (is_dir child && negb (_ishidden x))%bool; [|constructor].
      constructor.
      * repeat split; simpl.
        -- discriminate.
        -- constructor; [exact Hx | constructor].
        -- destruct child; [reflexivity | exact Hc].
      * apply Forall_forall. intros yl Hin. apply in_map_iff in Hin.
        destruct Hin as ([ys l] & Heq & Hin). subst yl.
        simpl in Hchild. specialize (Hchild Hc).
        rewrite Forall_forall in Hchild. destruct (Hchild _ Hin) as (H1 & H2 & H3).
        repeat split; simpl in *.
        -- discriminate.
        -- constructor; assumption.
        -- exact H3.
Qed.

(** The separator-joined name of a chain of valid names. *)
Lemma join_valid :
  forall ys,
    ys <> [] ->
    Forall (fun x => valid_name x = true) ys ->
    Str.join Posixpath.sep ys <> ""%string /\
    Str.startswith_char Posixpath.sep (Str.join Posixpath.sep ys) = false /\
    Str.endswith_char Posixpath.sep (Str.join Posixpath.sep ys) = false.
Proof.
  induction ys as [|x ys IH]; intros Hne Hall.
  - contradiction.
  - inversion Hall as [|? ? Hx Hys]; subst.
    apply valid_name_spec in Hx. destruct Hx as [Hx1 Hx2].
    destruct ys as [|y ys].
    + simpl. repeat split.
      * exact Hx1.
      * apply startswith_char_absent. exact Hx2.
      * apply endswith_char_absent. exact Hx2.
    + destruct (IH ltac:(discriminate) Hys) as (J1 & J2 & J3).
      set (j := Str.join Posixpath.sep (y :: ys)) in *.
      change (Str.join Posixpath.sep (x :: y :: ys))
        with (x ++ String Posixpath.sep j)%string.
      repeat split.
      * intros H. apply append_empty in H. destruct H. contradiction.
      * destruct x as [|a x]; [contradiction|].
        simpl in *. apply orb_false_iff in Hx2. tauto.
      * rewrite endswith_char_app by discriminate.
        destruct j as [|b j']; [contradiction | exact J3].
Qed.

Lemma _join_valid :
  forall x ys,
    valid_name x = true ->
    ys <> [] ->
    Forall (fun y => valid_name y = true) ys ->
    _join x (Str.join Posixpath.sep ys) = Str.join Posixpath.sep (x :: ys).
Proof.
  intros x ys Hx Hne Hall.
  destruct (join_valid ys Hne Hall) as (J1 & J2 & _).
  apply valid_name_spec in Hx. destruct Hx as [Hx1 Hx2].
  unfold _join.
  apply String.eqb_neq in Hx1, J1. rewrite Hx1, J1. simpl.
  rewrite join_relative by exact J2.
  rewrite Hx1, (endswith_char_absent _ _ Hx2). simpl.
  destruct ys; [contradiction | reflexivity].
Qed.

(** [_rlistdir] names the directories of the chains. *)
Lemma rlistdir_chains :
  forall n,
    well_formed n = true ->
    _rlistdir n
    = map (fun yl => (Str.join Posixpath.sep (fst yl), snd yl)) (chains n).
Proof.
  induction n as [|entries IH] using node_induction; intros Hwf.
  - reflexivity.
  - induction entries as [|[x child] es IHes].
    + reflexivity.
    + rewrite rlistdir_cons, chains_cons.
      inversion IH as [|? ? Hchild Hrest]; subst.
      apply well_formed_cons in Hwf. destruct Hwf as (Hx & Hc & Hes & _).
      rewrite map_app, (IHes Hrest Hes). f_equal.
      destruct (is_dir child && negb (_ishidden x))%bool; [|reflexivity].
      simpl. f_equal. simpl in Hchild. rewrite (Hchild Hc), !map_map.
      apply map_ext_in. intros [ys l] Hin.
      pose proof (chains_good child Hc) as Hgood.
      rewrite Forall_forall in Hgood. destruct (Hgood _ Hin) as (G1 & G2 & _).
      cbn [fst snd] in *. rewrite (_join_valid x ys Hx G1 G2). reflexivity.
Qed.

Lemma chains_head :
  forall es yl,
    In yl (chains (Dir es)) ->
    exists x rest, fst yl = x :: rest /\ In x (map fst es).
Proof.
  induction es as [|[x child] es IH]; intros yl Hin.
  - contradiction.
  - rewrite chains_cons in Hin. apply in_app_iff in Hin.
    destruct Hin as [Hin|Hin].
    + destruct (is_dir child && negb (_ishidden x))%bool; [|contradiction].
      destruct Hin as [Hin|Hin].
      * subst yl. exists x, []. split; [reflexivity | left; reflexivity].
      * apply in_map_iff in Hin. destruct Hin as (zl & Heq & _). subst yl.
        exists x, (fst zl). split; [reflexivity | left; reflexivity].
    + destruct (IH yl Hin) as (x' & rest & H1 & H2).
      exists x', rest. split; [exact H1 | right; exact H2].
Qed.

(** No directory is listed twice. *)
Lemma chains_nodup :
  forall n, well_formed n = true -> NoDup (map fst (chains n)).
Proof.
  induction n as [|entries IH] using node_induction; intros Hwf.
  - constructor.
  - induction entries as [|[x child] es IHes].
    + constructor.
    + rewrite chains_cons, map_app.
      inversion IH as [|? ? Hchild Hrest]; subst.
      apply well_formed_cons in Hwf. destruct Hwf as (Hx & Hc & Hes & Hnin).
      assert (Hdisj : forall ys rest,
                 In ys (map fst (chains (Dir es))) -> ys <> x :: rest).
      { intros ys rest Hys Heq. apply in_map_iff in Hys.
        destruct Hys as (yl & Hfst & Hyl).
        destruct (chains_head es yl Hyl) as (x' & rest' & H1 & H2).
        rewrite Hfst, Heq in H1. injection H1 as H1 _. subst x'.
        contradiction. }
      destruct (is_dir child && negb (_ishidden x))%bool; simpl.
      * constructor.
        -- intros Hin. apply in_app_iff in Hin. destruct Hin as [Hin|Hin].
           ++ rewrite map_map in Hin. apply in_map_iff in Hin.
              destruct Hin as (yl & Heq & Hyl). simpl in Heq.
              pose proof (chains_good child Hc) as Hgood.
              rewrite Forall_forall in Hgood. destruct (Hgood _ Hyl) as (G1 & _).
              injection Heq as Heq. contradiction.
           ++ apply (Hdisj [x] [] Hin). reflexivity.
        -- apply NoDup_app.
           ++ rewrite map_map.
              change (map (fun yl => fst (x :: fst yl, snd yl)) (chains child))
                with (map (fun yl => x :: fst yl) (chains child)).
              rewrite <- (map_map fst (cons x)).
              apply Finite.Injective_map_NoDup.
              ** intros a b Hab. injection Hab as Hab. exact Hab.
              ** simpl in Hchild. apply Hchild. exact Hc.
           ++ apply IHes; assumption.
           ++ intros ys Hin1 Hin2. rewrite map_map in Hin1.
              apply in_map_iff in Hin1. destruct Hin1 as (yl & Heq & _).
              simpl in Heq. apply (Hdisj ys (fst yl) Hin2). symmetry. exact Heq.
      * apply IHes; assumption.
Qed.

Lemma reaches_weaken :
  forall e d ys l, ys <> [] -> reaches d ys l -> reaches (e :: d) ys l.
Proof.
  intros e d ys l Hne H. destruct H as [d|d x sub dirs l Hin Hr].
  - contradiction.
  - apply reaches_below with sub; [right; exact Hin | exact Hr].
Qed.

(** Every chain is a way down the tree through visible directories. *)
Lemma chains_sound :
  forall n ys l,
    In (ys, l) (chains n) ->
    ys <> [] /\ reaches (content n) ys l /\ visible ys.
Proof.
  induction n as [|entries IH] using node_induction; intros ys l Hin.
  - contradiction.
  - simpl content. induction entries as [|[x child] es IHes].
    + contradiction.
    + rewrite chains_cons in Hin. inversion IH as [|? ? Hchild Hrest]; subst.
      apply in_app_iff in Hin. destruct Hin as [Hin|Hin].
      * destruct (is_dir child) eqn:Hdir; [|contradiction].
        destruct (_ishidden x) eqn:Hhid; [contradiction|].
        destruct child as [|sub]; [discriminate|].
        simpl in Hin. destruct Hin as [Hin|Hin].
        -- injection Hin as <- <-. repeat split.
           ++ discriminate.
           ++ apply reaches_below with sub; [left; reflexivity | constructor].
           ++ constructor; [exact Hhid | constructor].
        -- apply in_map_iff in Hin. destruct Hin as ([zs l'] & Heq & Hzl).
           simpl in Heq. injection Heq as <- <-.
           destruct (Hchild zs l' Hzl) as (_ & Hr & Hv). repeat split.
           ++ discriminate.
           ++ apply reaches_below with sub; [left; reflexivity | exact Hr].
           ++ constructor; [exact Hhid | exact Hv].
      * destruct (IHes Hrest Hin) as (Hne & Hr & Hv).
        repeat split; try assumption.
        apply reaches_weaken; assumption.
Qed.

Lemma chains_entry :
  forall d x sub,
    In (x, Dir sub) d ->
    _ishidden x = false ->
    In ([x], sub) (chains (Dir d)) /\
    forall yl, In yl (chains (Dir sub)) ->
               In (x :: fst yl, snd yl) (chains (Dir d)).
Proof.
  induction d as [|[x' child] d IH]; intros x sub Hin Hhid.
  - contradiction.
  - rewrite chains_cons. destruct Hin as [Heq|Hin].
    + injection Heq as -> ->. simpl is_dir. rewrite Hhid. simpl. split.
      * left. reflexivity.
      * intros yl Hyl. right. apply in_app_iff. left.
        apply in_map_iff. exists yl. split; [reflexivity | exact Hyl].
    + destruct (IH x sub Hin Hhid) as [H1 H2]. split.
      * apply in_app_iff. right. exact H1.
      * intros yl Hyl. apply in_app_iff. right. apply H2. exact Hyl.
Qed.

(** Every way down through visible directories is a chain. *)
Lemma chains_complete :
  forall d ys l,
    reaches d ys l -> ys <> [] -> visible ys -> In (ys, l) (chains (Dir d)).
Proof.
  intros d ys l H. induction H as [d|d x sub dirs l Hin Hr IH]; intros Hne Hv.
  - contradiction.
  - inversion Hv as [|? ? Hx Hdirs]; subst.
    destruct (chains_entry d x sub Hin Hx) as [H1 H2].
    destruct dirs as [|y dirs].
    + inversion Hr; subst. exact H1.
    + apply (H2 (y :: dirs, l)). apply IH; [discriminate | exact Hdirs].
Qed.

Lemma listdir_all : forall l, _listdir l false = l.
Proof.
  unfold _listdir. induction l as [|e l IH]; simpl in *; [reflexivity | now rewrite IH].
Qed.

(** What [_glob1] returns for a pattern that does not start with a dot:
    the visible names of the listing that match. *)
Lemma glob1_spec :
  forall l pattern name,
    _ishidden pattern = false ->
    (In name (_glob1 l pattern false) <->
     In name (map fst l) /\ _ishidden name = false /\
     Fnmatch.fnmatchcase name pattern = true).
Proof.
  intros l pattern name Hp. unfold _glob1, Fnmatch.filter.
  rewrite listdir_all, Hp. simpl negb. cbv iota.
  rewrite !filter_In, negb_true_iff. tauto.
Qed.

Lemma glob1_nodup :
  forall l pattern,
    NoDup (map fst l) -> NoDup (_glob1 l pattern false).
Proof.
  intros l pattern H. unfold _glob1, Fnmatch.filter.
  rewrite listdir_all. apply NoDup_filter.
  destruct (negb (_ishidden pattern)); [apply NoDup_filter|]; exact H.
Qed.

Lemma glob1_names :
  forall l pattern name,
    In name (_glob1 l pattern false) -> In name (map fst l).
Proof.
  intros l pattern name H. unfold _glob1, Fnmatch.filter in H.
  rewrite listdir_all in H. apply filter_In in H. destruct H as [H _].
  destruct (negb (_ishidden pattern)); [apply filter_In in H; tauto | exact H].
Qed.

(** [join(d, rel)] is [join(d, "")] followed by [rel]. *)
Lemma join_prefix :
  forall d rel,
    Str.startswith_char Posixpath.sep rel = false ->
    Posixpath.join d rel = (Posixpath.join d "" ++ rel)%string.
Proof.
  intros d rel H. rewrite (join_relative d rel H), (join_relative d "" eq_refl).
  destruct (String.eqb d "" || Str.endswith_char Posixpath.sep d)%bool.
  - rewrite append_nil_r. reflexivity.
  - rewrite append_assoc. reflexivity.
Qed.

Lemma prefix_cut :
  forall d,
    Posixpath.join d "" = ""%string \/
    Str.endswith_char Posixpath.sep (Posixpath.join d "") = true.
Proof.
  intros d. rewrite (join_relative d "" eq_refl).
  destruct (String.eqb d "") eqn:He; simpl.
  - left. apply String.eqb_eq in He. subst. reflexivity.
  - destruct (Str.endswith_char Posixpath.sep d) eqn:Hs.
    + right. rewrite append_nil_r. exact Hs.
    + right. apply endswith_char_snoc.
Qed.

(** How [glob] spells the entry [name] of the directory [ys]. *)
Lemma joined_path :
  forall d ys name,
    Forall (fun x => valid_name x = true) ys ->
    valid_name name = true ->
    Posixpath.join (Posixpath.join d (Str.join Posixpath.sep ys)) name
    = (Posixpath.join d "" ++ Str.join Posixpath.sep (ys ++ [name]))%string.
Proof.
  intros d ys name Hys Hname.
  apply valid_name_spec in Hname. destruct Hname as [_ Hn].
  pose proof (startswith_char_absent _ _ Hn) as Hstart.
  destruct ys as [|y ys].
  - simpl. rewrite (join_relative _ name Hstart).
    destruct (prefix_cut d) as [H|H]; rewrite H; simpl.
    + reflexivity.
    + rewrite orb_true_r. reflexivity.
  - destruct (join_valid (y :: ys) ltac:(discriminate) Hys) as (J1 & J2 & J3).
    rewrite (join_prefix d _ J2), (join_relative _ name Hstart).
    rewrite join_snoc by discriminate.
    set (rel := Str.join Posixpath.sep (y :: ys)) in *.
    assert (Hne : String.eqb (Posixpath.join d "" ++ rel) "" = false).
    { apply String.eqb_neq. intros H. apply append_empty in H.
      destruct H. contradiction. }
    rewrite Hne, (endswith_char_app _ _ rel J1), J3. simpl.
    rewrite append_assoc. reflexivity.
Qed.

Lemma flat_map_pointwise {A B C D : Type}
      (F : B -> list D) (g : A -> B) (h : C -> D) (H : A -> list C) :
  forall L,
    (forall a, In a L -> F (g a) = map h (H a)) ->
    flat_map F (map g L) = map h (flat_map H L).
Proof.
  induction L as [|a L IH]; intros Hpt; simpl.
  - reflexivity.
  - rewrite map_app, (Hpt a (or_introl eq_refl)), IH; [reflexivity|].
    intros b Hb. apply Hpt. right. exact Hb.
Qed.

(** The directories [_glob2] lists, as chains: the root first. *)
Lemma glob2_good :
  forall d,
    well_formed (Dir d) = true ->
    Forall (fun yl => Forall (fun x => valid_name x = true) (fst yl) /\
                      well_formed (Dir (snd yl)) = true)
           (([], d) :: chains (Dir d)).
Proof.
  intros d Hwf. constructor.
  - split; [constructor | exact Hwf].
  - eapply Forall_impl; [|apply chains_good; exact Hwf].
    intros yl (_ & H2 & H3). split; assumption.
Qed.

(** [glob] on a pattern of the program: the matched entries of the
    tree, each spelled as a path. *)
Lemma glob_matches :
  forall fs directory_path pattern,
    has_magic directory_path = false ->
    well_formed (Dir (root fs)) = true ->
    Str.contains_char Posixpath.sep pattern = false ->
    has_magic pattern = true ->
    _isrecursive pattern = false ->
    glob fs (Posixpath.join3 directory_path "**" pattern)
    = map (path_of directory_path) (matches_in pattern (root fs)).
Proof.
  intros fs D B HD Hwf HB Hmagic Hrec. unfold glob.
  rewrite (split_join3 D B HB).
  pose proof (split_stars D) as Hstars.
  pose proof (scan_dir_magic D HD) as Hscan. unfold scan_dir in Hscan.
  unfold path_of, scan_dir.
  destruct (Posixpath.split (Posixpath.join D "**")) as [d2 b2].
  simpl in Hstars, Hscan. subst b2. cbn [fst].
  rewrite Hscan, Hmagic, Hrec. simpl andb. cbv iota.
  unfold _glob2, matches_in. rewrite (rlistdir_chains _ Hwf).
  change ((""%string, root fs)
            :: map (fun yl => (Str.join Posixpath.sep (fst yl), snd yl))
                   (chains (Dir (root fs))))
    with (map (fun yl : list string * listing =>
                 (Str.join Posixpath.sep (fst yl), snd yl))
              (([], root fs) :: chains (Dir (root fs)))).
  apply flat_map_pointwise.
  intros [ys l] Hin. cbn [fst snd].
  pose proof (glob2_good _ Hwf) as Hgood. rewrite Forall_forall in Hgood.
  destruct (Hgood _ Hin) as [Hys Hl]. cbn [fst snd] in Hys, Hl.
  rewrite map_map. apply map_ext_in. intros name Hname.
  apply glob1_names in Hname.
  destruct (well_formed_names _ Hl) as [_ Hvalid].
  rewrite Forall_forall in Hvalid.
  apply joined_path; [exact Hys | apply Hvalid; exact Hname].
Qed.

(** The matched entries are the visible entries of the tree whose name
    matches the pattern. *)
Lemma matches_in_spec :
  forall pattern d segs,
    _ishidden pattern = false ->
    (In segs (matches_in pattern d) <->
     exists ys name,
       segs = ys ++ [name] /\ has_entry d ys name /\ visible segs /\
       Fnmatch.fnmatchcase name pattern = true).
Proof.
  intros pattern d segs Hp. unfold matches_in. rewrite in_flat_map. split.
  - intros ([ys l] & Hin & Hsegs). cbn [fst snd] in Hsegs.
    apply in_map_iff in Hsegs. destruct Hsegs as (name & <- & Hname).
    apply (glob1_spec l pattern name Hp) in Hname.
    destruct Hname as (Hl & Hvis & Hmatch).
    assert (Hr : reaches d ys l /\ visible ys).
    { destruct Hin as [Hin|Hin].
      - injection Hin as <- <-. split; constructor.
      - apply chains_sound in Hin. simpl in Hin. tauto. }
    destruct Hr as [Hr Hv].
    exists ys, name. repeat split; try assumption.
    + exists l. split; assumption.
    + apply Forall_app. split; [exact Hv | constructor; [exact Hvis | constructor]].
  - intros (ys & name & -> & (l & Hr & Hl) & Hv & Hmatch).
    apply Forall_app in Hv. destruct Hv as [Hv Hname].
    inversion Hname as [|? ? Hvis _]; subst.
    exists (ys, l). split.
    + destruct ys as [|y ys].
      * inversion Hr; subst. left. reflexivity.
      * right. apply chains_complete; [exact Hr | discriminate | exact Hv].
    + cbn [fst snd]. apply in_map_iff. exists name. split; [reflexivity|].
      apply glob1_spec; [exact Hp | tauto].
Qed.

Lemma matches_in_valid :
  forall pattern d segs,
    well_formed (Dir d) = true ->
    In segs (matches_in pattern d) ->
    segs <> [] /\ Forall (fun x => valid_name x = true) segs.
Proof.
  intros pattern d segs Hwf Hin. unfold matches_in in Hin.
  apply in_flat_map in Hin. destruct Hin as ([ys l] & Hin & Hsegs).
  cbn [fst snd] in Hsegs. apply in_map_iff in Hsegs.
  destruct Hsegs as (name & <- & Hname).
  pose proof (glob2_good _ Hwf) as Hgood. rewrite Forall_forall in Hgood.
  destruct (Hgood _ Hin) as [Hys Hl]. cbn [fst snd] in Hys, Hl.
  apply glob1_names in Hname.
  destruct (well_formed_names _ Hl) as [_ Hvalid].
  rewrite Forall_forall in Hvalid. split.
  - intros H. apply app_eq_nil in H. destruct H. discriminate.
  - apply Forall_app. split; [exact Hys|].
    constructor; [apply Hvalid; exact Hname | constructor].
Qed.

Lemma flat_map_nodup {A B C : Type} (H : A * B -> list C) :
  forall L,
    NoDup (map fst L) ->
    (forall a, In a L -> NoDup (H a)) ->
    (forall a b x, In a L -> In b L -> In x (H a) -> In x (H b) -> fst a = fst b) ->
    NoDup (flat_map H L).
Proof.
  induction L as [|a L IH]; intros Hnd Heach Hkey; simpl.
  - constructor.
  - inversion Hnd as [|? ? Hnin Hnd']; subst. apply NoDup_app.
    + apply Heach. left. reflexivity.
    + apply IH.
      * exact Hnd'.
      * intros b Hb. apply Heach. right. exact Hb.
      * intros b c x Hb Hc. apply Hkey; right; assumption.
    + intros x Hx1 Hx2. apply in_flat_map in Hx2.
      destruct Hx2 as (b & Hb & Hx2). apply Hnin.
      rewrite (Hkey a b x (or_introl eq_refl) (or_intror Hb) Hx1 Hx2).
      apply in_map. exact Hb.
Qed.

(** No entry is matched twice. *)
Lemma matches_in_nodup :
  forall pattern d,
    well_formed (Dir d) = true -> NoDup (matches_in pattern d).
Proof.
  intros pattern d Hwf. unfold matches_in.
  pose proof (glob2_good _ Hwf) as Hgood. rewrite Forall_forall in Hgood.
  apply flat_map_nodup.
  - change (NoDup ([] :: map fst (chains (Dir d)))). constructor.
    + intros Hin. apply in_map_iff in Hin. destruct Hin as (yl & Heq & Hyl).
      pose proof (chains_good _ Hwf) as Hc. rewrite Forall_forall in Hc.
      destruct (Hc _ Hyl) as (Hne & _). contradiction.
    + apply chains_nodup. exact Hwf.
  - intros [ys l] Hin. cbn [fst snd].
    apply Finite.Injective_map_NoDup.
    + intros a b Hab. apply app_inj_tail in Hab. tauto.
    + apply glob1_nodup. destruct (Hgood _ Hin) as [_ Hl].
      apply well_formed_names in Hl. tauto.
  - intros [ys l] [ys' l'] x _ _ Hx Hx'. cbn [fst snd] in *.
    apply in_map_iff in Hx, Hx'.
    destruct Hx as (n & <- & _), Hx' as (n' & Heq & _).
    apply app_inj_tail in Heq. symmetry. tauto.
Qed.

(** Two entries have two paths. *)
Lemma path_of_inj :
  forall directory_path a b,
    a <> [] -> b <> [] ->
    Forall (fun x => valid_name x = true) a ->
    Forall (fun x => valid_name x = true) b ->
    path_of directory_path a = path_of directory_path b -> a = b.
Proof.
  intros D a b Ha Hb Fa Fb H. unfold path_of in H.
  apply append_inj_l in H.
  apply (join_inj Posixpath.sep a b Ha Hb); [| |exact H].
  - eapply Forall_impl; [|exact Fa]. intros x Hx.
    apply valid_name_spec in Hx. tauto.
  - eapply Forall_impl; [|exact Fb]. intros x Hx.
    apply valid_name_spec in Hx. tauto.
Qed.

End GlobFacts.

(* ------------------------------------------------------------------ *)
(** ** Discovery *)

Module DiscoveryFacts.

Import Glob Tree StrFacts GlobFacts.

Lemma well_formed_in :
  forall d x child,
    well_formed (Dir d) = true -> In (x, child) d ->
    valid_name x = true /\ well_formed child = true.
Proof.
  induction d as [|[x' child'] d IH]; intros x child Hwf Hin.
  - contradiction.
  - apply well_formed_cons in Hwf. destruct Hwf as (Hx & Hc & Hd & _).
    destruct Hin as [Heq|Hin].
    + injection Heq as <- <-. split; assumption.
    + apply IH; assumption.
Qed.

Lemma has_entry_valid :
  forall d ys name,
    well_formed (Dir d) = true -> has_entry d ys name ->
    Forall (fun x => valid_name x = true) (ys ++ [name]).
Proof.
  intros d ys name Hwf (l & Hr & Hl).
  induction Hr as [d|d x sub dirs l Hin Hr IH].
  - simpl. constructor; [|constructor].
    destruct (well_formed_names _ Hwf) as [_ Hall].
    rewrite Forall_forall in Hall. apply Hall. exact Hl.
  - destruct (well_formed_in d x (Dir sub) Hwf Hin) as [Hx Hsub].
    simpl. constructor; [exact Hx | apply IH; assumption].
Qed.

(** The scan, on the tree: both patterns, every depth. *)
Lemma scan_matches :
  forall fs directory_path,
    has_magic directory_path = false ->
    well_formed (Dir (root fs)) = true ->
    scan fs directory_path
    = sorted (map (path_of directory_path)
                  (matches_in "*.[jp][pn]g" (root fs)
                   ++ matches_in "*.jpeg" (root fs))).
Proof.
  intros fs D HD Hwf. unfold scan.
  rewrite (glob_matches fs D "*.[jp][pn]g" HD Hwf) by reflexivity.
  rewrite (glob_matches fs D "*.jpeg" HD Hwf) by reflexivity.
  rewrite map_app. reflexivity.
Qed.

Lemma scan_in :
  forall fs directory_path p,
    has_magic directory_path = false ->
    well_formed (Dir (root fs)) = true ->
    (In p (scan fs directory_path) <->
     exists segs, p = path_of directory_path segs /\ scanned (root fs) segs).
Proof.
  intros fs D p HD Hwf. rewrite (scan_matches fs D HD Hwf).
  rewrite SortedFacts.sorted_in, in_map_iff. split.
  - intros (segs & <- & Hin). exists segs. split; [reflexivity|].
    apply in_app_iff in Hin. destruct Hin as [Hin|Hin];
      apply matches_in_spec in Hin; try reflexivity;
      destruct Hin as (ys & name & H1 & H2 & H3 & H4);
      exists ys, name; tauto.
  - intros (segs & -> & ys & name & H1 & H2 & H3 & [H4|H4]);
      exists segs; (split; [reflexivity|]); apply in_app_iff;
      [left|right]; apply matches_in_spec; try reflexivity;
      exists ys, name; tauto.
Qed.

Lemma scan_nodup :
  forall fs directory_path,
    has_magic directory_path = false ->
    well_formed (Dir (root fs)) = true ->
    NoDup (scan fs directory_path).
Proof.
  intros fs D HD Hwf. rewrite (scan_matches fs D HD Hwf).
  apply SortedFacts.sorted_nodup.
  apply Finite.Injective_map_NoDup_in.
  - intros a b Ha Hb Hab.
    assert (Hvalid : forall segs,
               In segs (matches_in "*.[jp][pn]g" (root fs)
                        ++ matches_in "*.jpeg" (root fs)) ->
               segs <> [] /\ Forall (fun x => valid_name x = true) segs).
    { intros segs Hin. apply in_app_iff in Hin.
      destruct Hin as [Hin|Hin]; eapply matches_in_valid; eassumption. }
    destruct (Hvalid a Ha) as [A1 A2]. destruct (Hvalid b Hb) as [B1 B2].
    apply (path_of_inj D a b); assumption.
  - apply NoDup_app; try (apply matches_in_nodup; exact Hwf).
    intros segs H1 H2.
    apply matches_in_spec in H1; [|reflexivity].
    apply matches_in_spec in H2; [|reflexivity].
    destruct H1 as (ys & name & E1 & _ & _ & M1).
    destruct H2 as (ys' & name' & E2 & _ & _ & M2).
    rewrite E1 in E2. apply app_inj_tail in E2. destruct E2 as [_ <-].
    exact (FnmatchFacts.patterns_disjoint name M1 M2).
Qed.

(** The scan, entry by entry, in the words of the extensions: the
    names ".jng" and ".ppg" set aside, an entry is found exactly when
    its name ends in ".jpg", ".jpeg" or ".png" and no name on the way
    to it starts with a dot. *)
Lemma scan_by_extension :
  forall fs directory_path ys name,
    has_magic directory_path = false ->
    well_formed (Dir (root fs)) = true ->
    has_entry (root fs) ys name ->
    Str.endswith name ".jng" = false ->
    Str.endswith name ".ppg" = false ->
    (In (path_of directory_path (ys ++ [name])) (scan fs directory_path) <->
     (Str.endswith name ".jpg" = true \/ Str.endswith name ".jpeg" = true \/
      Str.endswith name ".png" = true) /\
     visible (ys ++ [name])).
Proof.
  intros fs D ys name HD Hwf Hentry Hjng Hppg.
  rewrite (scan_in fs D _ HD Hwf).
  pose proof (has_entry_valid _ _ _ Hwf Hentry) as Hvalid.
  split.
  - intros (segs & Heq & ys' & name' & Hsegs & He & Hv & Hm).
    pose proof (has_entry_valid _ _ _ Hwf He) as Hvalid'.
    rewrite <- Hsegs in Hvalid'.
    apply path_of_inj in Heq; try assumption.
    + subst segs. apply app_inj_tail in Hsegs. destruct Hsegs as [_ <-].
      split; [|exact Hv].
      destruct Hm as [Hm|Hm].
      * rewrite FnmatchFacts.fnmatch_jpg_png, Hjng, Hppg in Hm.
        rewrite !orb_false_r in Hm. apply orb_true_iff in Hm. tauto.
      * rewrite FnmatchFacts.fnmatch_jpeg in Hm. tauto.
    + intros H. apply app_eq_nil in H. destruct H. discriminate.
    + subst segs. intros H. apply app_eq_nil in H. destruct H. discriminate.
  - intros (Hext & Hv).
    exists (ys ++ [name]). split; [reflexivity|].
    exists ys, name. repeat split; try assumption.
    destruct Hext as [H|[H|H]].
    + left. rewrite FnmatchFacts.fnmatch_jpg_png, H. reflexivity.
    + right. rewrite FnmatchFacts.fnmatch_jpeg. exact H.
    + left. rewrite FnmatchFacts.fnmatch_jpg_png, H. apply orb_true_r.
Qed.

Lemma discover_in :
  forall fs directory_path p,
    In p (discover fs directory_path) <->
    In p (scan fs directory_path) /\ (depth directory_path p <= 4)%Z.
Proof.
  intros fs D p. unfold discover. rewrite filter_In, Z.leb_le. tauto.
Qed.

Lemma discover_nodup :
  forall fs directory_path,
    has_magic directory_path = false ->
    well_formed (Dir (root fs)) = true ->
    NoDup (discover fs directory_path).
Proof.
  intros fs D HD Hwf. unfold discover. apply NoDup_filter.
  apply scan_nodup; assumption.
Qed.

Lemma discover_ordered :
  forall fs directory_path,
    StronglySorted Str.le (discover fs directory_path).
Proof.
  intros fs D. unfold discover, scan. apply SortedFacts.filter_ordered.
  apply SortedFacts.sorted_ordered.
Qed.

End DiscoveryFacts.

(* ------------------------------------------------------------------ *)
(** ** The depth of an entry *)

Module DepthFacts.

Import Glob Tree StrFacts PosixpathFacts GlobFacts.

Lemma all_char_open_end :
  forall c s, s <> ""%string -> Str.endswith_char c s = false ->
              Str.all_char c s = false.
Proof.
  induction s as [|a s IH]; intros Hne Hend.
  - contradiction.
  - destruct s as [|b s].
    + simpl in *. rewrite Hend. reflexivity.
    + assert (Hend' : Str.endswith_char c (String b s) = false) by exact Hend.
      assert (Hne' : String b s <> ""%string) by discriminate.
      remember (String b s) as s' eqn:Hs'. simpl.
      rewrite (IH Hne' Hend'). apply andb_false_r.
Qed.

Lemma rstrip_open_end :
  forall c s, Str.endswith_char c s = false -> Str.rstrip c s = s.
Proof.
  induction s as [|a s IH]; intros Hend.
  - reflexivity.
  - destruct s as [|b s].
    + simpl in *. rewrite Hend. reflexivity.
    + assert (Hend' : Str.endswith_char c (String b s) = false) by exact Hend.
      remember (String b s) as s' eqn:Hs'. simpl.
      rewrite (IH Hend'). subst s'. reflexivity.
Qed.

(** For a directory path that is not empty and does not end in the
    separator, [glob] spells the paths with that very prefix. *)
Lemma scan_dir_plain :
  forall d, d <> ""%string -> Str.endswith_char Posixpath.sep d = false ->
            scan_dir d = d.
Proof.
  intros d Hne Hend. unfold scan_dir. rewrite join_stars. unfold stem.
  apply String.eqb_neq in Hne. rewrite Hne, Hend. simpl orb. cbv iota.
  unfold Posixpath.split.
  rewrite cut_last_sep_app;
    [|reflexivity | right; apply endswith_char_snoc].
  assert (Hd : Str.all_char Posixpath.sep d = false).
  { apply all_char_open_end; [apply String.eqb_neq; exact Hne | exact Hend]. }
  assert (Hall : Str.all_char Posixpath.sep (d ++ String Posixpath.sep "") = false).
  { clear - Hd. induction d as [|a d IH]; simpl in *; [discriminate|].
    destruct (Ascii.eqb a Posixpath.sep); simpl in *; [apply IH; exact Hd | reflexivity]. }
  assert (Hne' : String.eqb (d ++ String Posixpath.sep "") "" = false).
  { apply String.eqb_neq. intros H. apply append_empty in H.
    destruct H. discriminate. }
  rewrite Hne', Hall. simpl andb. cbv iota. cbn [fst].
  rewrite rstrip_snoc_same. apply rstrip_open_end. exact Hend.
Qed.

Lemma join_count :
  forall segs,
    segs <> [] ->
    Forall (fun x => valid_name x = true) segs ->
    S (Str.count_char Posixpath.sep (Str.join Posixpath.sep segs))
    = List.length segs.
Proof.
  induction segs as [|x segs IH]; intros Hne Hall.
  - contradiction.
  - inversion Hall as [|? ? Hx Hsegs]; subst.
    apply valid_name_spec in Hx. destruct Hx as [_ Hx].
    destruct segs as [|y segs].
    + simpl. rewrite (count_char_absent _ _ Hx). reflexivity.
    + change (Str.join Posixpath.sep (x :: y :: segs))
        with (x ++ String Posixpath.sep (Str.join Posixpath.sep (y :: segs)))%string.
      rewrite count_char_app, (count_char_absent _ _ Hx).
      cbn [Str.count_char]. rewrite Ascii.eqb_refl.
      change (List.length (x :: y :: segs)) with (S (List.length (y :: segs))).
      rewrite <- (IH ltac:(discriminate) Hsegs). lia.
Qed.

(** For such a directory path, the depth that line 133 computes for an
    entry is the number of names on the way from the root to it, its
    own included. *)
Lemma depth_of_entry :
  forall d segs,
    d <> ""%string -> Str.endswith_char Posixpath.sep d = false ->
    segs <> [] ->
    Forall (fun x => valid_name x = true) segs ->
    depth d (path_of d segs) = Z.of_nat (List.length segs).
Proof.
  intros d segs Hne Hend Hsegs Hvalid. unfold depth, path_of.
  rewrite (scan_dir_plain d Hne Hend), (join_relative d "" eq_refl).
  apply String.eqb_neq in Hne. rewrite Hne, Hend. simpl orb. cbv iota.
  rewrite !split_length, !count_char_app.
  cbn [Str.count_char]. rewrite Ascii.eqb_refl.
  rewrite <- (join_count segs Hsegs Hvalid). lia.
Qed.

End DepthFacts.

(** C5, as the code has it. On a well-formed tree, for a directory
    path without wildcard characters, the paths that [batch_process]
    keeps are those found by the scan, which has no depth bound, whose
    number of segments exceeds that of [directory_path] by at most 4;
    the list holds each path once and is in ascending order. What the
    scan finds are entries of the tree that no dot-prefixed name leads
    to; the names ".jng" and ".ppg" set aside, it finds an entry at
    any depth exactly when its name ends in ".jpg", ".jpeg" or ".png"
    and no name on the way to it starts with a dot. *)
Theorem discover_within_depth :
  forall (fs : Glob.filesystem) (directory_path : string),
    Glob.has_magic directory_path = false ->
    Tree.well_formed (Glob.Dir (Glob.root fs)) = true ->
    discover fs directory_path
    = filter (fun path => (depth directory_path path <=? 4)%Z)
             (scan fs directory_path) /\
    (forall p, In p (discover fs directory_path) <->
               In p (scan fs directory_path) /\
               (depth directory_path p <= 4)%Z) /\
    (forall p, In p (scan fs directory_path) ->
               exists ys name,
                 p = Tree.path_of directory_path (ys ++ [name]) /\
                 Tree.has_entry (Glob.root fs) ys name /\
                 Tree.visible (ys ++ [name])) /\
    (forall ys name,
        Tree.has_entry (Glob.root fs) ys name ->
        Str.endswith name ".jng" = false ->
        Str.endswith name ".ppg" = false ->
        (In (Tree.path_of directory_path (ys ++ [name])) (scan fs directory_path)
         <->
         (Str.endswith name ".jpg" = true \/ Str.endswith name ".jpeg" = true \/
          Str.endswith name ".png" = true) /\
         Tree.visible (ys ++ [name]))) /\
    NoDup (discover fs directory_path) /\
    StronglySorted Str.le (discover fs directory_path).
Proof.
  intros fs D HD Hwf.
  split; [reflexivity|]. split; [|split; [|split; [|split]]].
  - intros p. apply DiscoveryFacts.discover_in.
  - intros p Hin. apply (DiscoveryFacts.scan_in fs D p HD Hwf) in Hin.
    destruct Hin as (segs & Hp & ys & name & Hsegs & Hentry & Hvis & _).
    exists ys, name. subst segs. auto.
  - intros ys name Hentry Hjng Hppg.
    apply DiscoveryFacts.scan_by_extension; assumption.
  - apply DiscoveryFacts.discover_nodup; assumption.
  - apply DiscoveryFacts.discover_ordered.
Qed.

(** C5 on the demo tree: [img3.png], six segments below "root", is found
    by the scan and dropped by the filter. *)
Lemma discover_within_depth_witness :
  In "root/a/b/c/d/e/img3.png" (scan Demo.fs "root") /\
  ~ In "root/a/b/c/d/e/img3.png" (discover Demo.fs "root") /\
  discover Demo.fs "root"
  = ["root/a/b/img2.jpg"; "root/a/img1.png"; "root/scan.jng"] /\
  NoDup (discover Demo.fs "root") /\
  StronglySorted Str.le (discover Demo.fs "root").
Proof.
  destruct (discover_within_depth Demo.fs "root" eq_refl eq_refl)
    as (Hfilter & Hin & _ & Hscan & Hnodup & Hsorted).
  assert (Hentry : Tree.has_entry (Glob.root Demo.fs)
                     ["a"; "b"; "c"; "d"; "e"] "img3.png").
  { eexists. split.
    - eapply Tree.reaches_below; [left; reflexivity|].
      eapply Tree.reaches_below; [right; right; left; reflexivity|].
      eapply Tree.reaches_below; [right; left; reflexivity|].
      eapply Tree.reaches_below; [left; reflexivity|].
      eapply Tree.reaches_below; [right; left; reflexivity|].
      apply Tree.reaches_here.
    - left. reflexivity. }
  split; [|split; [|split; [|split]]].
  - change "root/a/b/c/d/e/img3.png"
      with (Tree.path_of "root" (["a"; "b"; "c"; "d"; "e"] ++ ["img3.png"])).
    apply (proj2 (Hscan _ _ Hentry eq_refl eq_refl)).
    split; [right; right; reflexivity | repeat constructor].
  - intros H. apply (proj1 (Hin _)) in H. destruct H as [_ Hdepth].
    vm_compute in Hdepth. apply Hdepth. reflexivity.
  - rewrite Hfilter. vm_compute. reflexivity.
  - exact Hnodup.
  - exact Hsorted.
Defined.

(** C5 as stated fails: [thumb.png] of the demo tree has a name that
    ends in ".png" and lies two segments below "root", and it is not
    among the discovered paths, for the directory ".cache" that holds
    it has a name that starts with a dot. *)
Lemma discover_skips_hidden_png :
  Tree.has_entry (Glob.root Demo.fs) [".cache"] "thumb.png" /\
  Str.endswith "thumb.png" ".png" = true /\
  Tree.path_of "root" ([".cache"] ++ ["thumb.png"]) = "root/.cache/thumb.png" /\
  depth "root" "root/.cache/thumb.png" = 2%Z /\
  ~ In "root/.cache/thumb.png" (discover Demo.fs "root").
Proof.
  split; [|split; [reflexivity|split; [reflexivity|split; [reflexivity|]]]].
  - eexists. split.
    + eapply Tree.reaches_below; [right; left; reflexivity|].
      apply Tree.reaches_here.
    + left. reflexivity.
  - intros H. vm_compute in H.
    repeat (destruct H as [H|H]; [discriminate H|]). exact H.
Qed.

Section Batch.

Variable E : Env.

Lemma dict_setitem_fresh :
  forall (d : dict E) k v,
    ~ In k (dict_keys E d) -> dict_setitem E d k v = d ++ [(k, v)].
Proof.
  induction d as [|[k' v'] d IH]; intros k v Hk; simpl.
  - reflexivity.
  - simpl in Hk. destruct (String.eqb k' k) eqn:He.
    + apply String.eqb_eq in He. exfalso. apply Hk. left. exact He.
    + rewrite IH; [reflexivity|]. intros Hin. apply Hk. right. exact Hin.
Qed.

Lemma process_image_not_blocked :
  forall path frequency roi t,
    process_image E path frequency roi <> (t, Blocked).
Proof.
  intros path frequency roi t Hrun.
  destruct (LoadImageAsArray E path) as [arr|e] eqn:Hload.
  - destruct (process_image_decoded E path frequency roi arr Hload)
      as (t' & v & Heq).
    congruence.
  - rewrite (process_image_undecoded E path frequency roi e Hload) in Hrun.
    discriminate Hrun.
Qed.

(** One turn of the loop puts the entry of the path, if it has one,
    behind those already there. *)
Lemma batch_step_entry :
  forall frequency roi results path,
    ~ In path (dict_keys E results) ->
    exists t,
      batch_step E frequency roi results path
      = (t, Returned (results ++ entry_of E frequency roi path)).
Proof.
  intros frequency roi results path Hfresh.
  rewrite batch_step_unfold. unfold entry_of.
  destruct (process_image E path frequency (Some roi)) as [t o] eqn:Hrun.
  destruct o as [[v|]|e|]; simpl.
  - rewrite (dict_setitem_fresh results path v Hfresh). eexists. reflexivity.
  - rewrite !app_nil_r. eexists. reflexivity.
  - rewrite !app_nil_r. eexists. reflexivity.
  - exfalso. exact (process_image_not_blocked _ _ _ _ Hrun).
Qed.

Lemma entry_of_keys :
  forall frequency roi path kv,
    In kv (entry_of E frequency roi path) -> fst kv = path.
Proof.
  intros frequency roi path kv. unfold entry_of.
  destruct (snd (process_image E path frequency (Some roi))) as [[v|]|e|];
    simpl; intros H; try contradiction.
  destruct H as [<-|[]]. reflexivity.
Qed.

Lemma mem_spec :
  forall p seen, existsb (String.eqb p) seen = true <-> In p seen.
Proof.
  intros p seen. rewrite existsb_exists. split.
  - intros (x & Hx & He). apply String.eqb_eq in He. subst. exact Hx.
  - intros H. exists p. split; [exact H | apply String.eqb_refl].
Qed.

Lemma first_occurrences_in :
  forall paths seen p,
    In p (first_occurrences seen paths) <-> In p paths /\ ~ In p seen.
Proof.
  induction paths as [|q rest IH]; intros seen p; simpl.
  - tauto.
  - destruct (existsb (String.eqb q) seen) eqn:Hq.
    + apply mem_spec in Hq. rewrite IH. split.
      * tauto.
      * intros [[->|H] Hn]; [contradiction | tauto].
    + assert (Hn : ~ In q seen).
      { intros H. apply mem_spec in H. congruence. }
      simpl. rewrite IH. simpl. split.
      * intros [->|[H1 H2]]; tauto.
      * intros [[->|H] Hs]; [tauto|].
        destruct (string_dec q p) as [->|Hne]; [tauto|]. right. tauto.
Qed.

Lemma first_occurrences_nodup :
  forall paths seen, NoDup (first_occurrences seen paths).
Proof.
  induction paths as [|q rest IH]; intros seen; simpl.
  - constructor.
  - destruct (existsb (String.eqb q) seen); [apply IH|].
    constructor; [|apply IH].
    rewrite first_occurrences_in. simpl. tauto.
Qed.

Lemma first_occurrences_ordered :
  forall paths seen,
    StronglySorted Str.le paths ->
    StronglySorted Str.le (first_occurrences seen paths).
Proof.
  induction paths as [|q rest IH]; intros seen Hs; simpl.
  - constructor.
  - inversion Hs as [|? ? Hrest Hq]; subst.
    destruct (existsb (String.eqb q) seen); [apply IH; exact Hrest|].
    constructor; [apply IH; exact Hrest|].
    apply Forall_forall. intros x Hx. apply first_occurrences_in in Hx.
    rewrite Forall_forall in Hq. apply Hq. tauto.
Qed.

(** Nothing is dropped from a list without repetition. *)
Lemma first_occurrences_all :
  forall paths seen,
    NoDup paths -> (forall p, In p paths -> ~ In p seen) ->
    first_occurrences seen paths = paths.
Proof.
  induction paths as [|q rest IH]; intros seen Hnd Hseen; simpl.
  - reflexivity.
  - inversion Hnd as [|? ? Hq Hrest]; subst.
    destruct (existsb (String.eqb q) seen) eqn:Hm.
    + apply mem_spec in Hm. exfalso. apply (Hseen q); [left; reflexivity | exact Hm].
    + rewrite IH; [reflexivity | exact Hrest|].
      intros p Hp [<-|Hs]; [contradiction|].
      apply (Hseen p); [right; exact Hp | exact Hs].
Qed.

Lemma dict_setitem_same :
  forall (d : dict E) k v,
    NoDup (dict_keys E d) -> In (k, v) d -> dict_setitem E d k v = d.
Proof.
  induction d as [|[k' v'] d IH]; intros k v Hnd Hin.
  - contradiction.
  - simpl in Hnd. inversion Hnd as [|? ? Hk' Hnd']; subst. simpl.
    destruct (String.eqb k' k) eqn:He.
    + apply String.eqb_eq in He. subst k'.
      destruct Hin as [Heq|Hin].
      * injection Heq as ->. reflexivity.
      * exfalso. apply Hk'. apply (in_map fst) in Hin. exact Hin.
    + destruct Hin as [Heq|Hin].
      * injection Heq as -> _. rewrite String.eqb_refl in He. discriminate He.
      * rewrite (IH k v Hnd' Hin). reflexivity.
Qed.

(** A mapping as the loop builds it: no key twice, and under each key
    the value that [process_image] returns for it. *)
Lemma batch_step_known :
  forall frequency roi results path,
    NoDup (dict_keys E results) ->
    (forall kv, In kv results -> entry_of E frequency roi (fst kv) = [kv]) ->
    In path (dict_keys E results) \/ entry_of E frequency roi path = [] ->
    exists t, batch_step E frequency roi results path = (t, Returned results).
Proof.
  intros frequency roi results path Hnd Hcons Hknown.
  assert (Hentry : entry_of E frequency roi path = []
                   \/ exists v, In (path, v) results /\
                                entry_of E frequency roi path = [(path, v)]).
  { destruct Hknown as [Hin|Hnone]; [|left; exact Hnone].
    apply in_map_iff in Hin. destruct Hin as ([k v] & Hk & Hin).
    simpl in Hk. subst k. right. exists v. split; [exact Hin|].
    apply (Hcons (path, v) Hin). }
  rewrite batch_step_unfold. unfold entry_of in Hentry.
  destruct (process_image E path frequency (Some roi)) as [t o] eqn:Hrun.
  simpl in Hentry.
  destruct o as [[v|]|e|]; simpl.
  - destruct Hentry as [Hnone|(w & Hin & Heq)]; [discriminate Hnone|].
    injection Heq as ->.
    rewrite (dict_setitem_same results path w Hnd Hin). eexists. reflexivity.
  - eexists. reflexivity.
  - eexists. reflexivity.
  - exfalso. exact (process_image_not_blocked _ _ _ _ Hrun).
Qed.

(** The loop adds, behind the entries it starts from, those of the paths
    it meets for the first time. *)
Lemma batch_loop_entries :
  forall frequency roi image_paths results seen,
    NoDup (dict_keys E results) ->
    (forall kv, In kv results -> entry_of E frequency roi (fst kv) = [kv]) ->
    (forall k, In k (dict_keys E results) -> In k seen) ->
    (forall k, In k seen ->
               In k (dict_keys E results) \/ entry_of E frequency roi k = []) ->
    exists t,
      batch_loop E frequency roi results image_paths
      = (t, Returned (results
                      ++ flat_map (entry_of E frequency roi)
                                  (first_occurrences seen image_paths))).
Proof.
  intros frequency roi image_paths.
  induction image_paths as [|path rest IH];
    intros results seen Hnd Hcons Hsub Hseen.
  - simpl. rewrite app_nil_r. eexists. reflexivity.
  - cbn [batch_loop first_occurrences].
    destruct (existsb (String.eqb path) seen) eqn:Hmem.
    + apply mem_spec in Hmem.
      destruct (batch_step_known frequency roi results path Hnd Hcons
                  (Hseen path Hmem)) as [t1 H1].
      rewrite H1. simpl.
      destruct (IH results seen Hnd Hcons Hsub Hseen) as [t2 H2].
      rewrite H2. eexists. reflexivity.
    + assert (Hfresh : ~ In path (dict_keys E results)).
      { intros H. apply Hsub in H. apply mem_spec in H. congruence. }
      destruct (batch_step_entry frequency roi results path Hfresh) as [t1 H1].
      rewrite H1. simpl.
      destruct (IH (results ++ entry_of E frequency roi path) (path :: seen))
        as [t2 H2].
      * unfold dict_keys. rewrite map_app. apply NoDup_app; [exact Hnd | |].
        -- unfold entry_of.
           destruct (snd (process_image E path frequency (Some roi)))
             as [[v|]|e|]; simpl; repeat constructor; intros [].
        -- intros k Hk1 Hk2. apply in_map_iff in Hk2.
           destruct Hk2 as (kv & Hfst & Hkv). apply entry_of_keys in Hkv.
           rewrite Hkv in Hfst. subst k. contradiction.
      * intros kv Hkv. apply in_app_iff in Hkv. destruct Hkv as [Hkv|Hkv].
        -- apply Hcons. exact Hkv.
        -- pose proof (entry_of_keys _ _ _ _ Hkv) as Hk. rewrite Hk.
           unfold entry_of in *.
           destruct (snd (process_image E path frequency (Some roi)))
             as [[v|]|e|]; simpl in Hkv; try contradiction.
           destruct Hkv as [<-|[]]. reflexivity.
      * intros k Hk. unfold dict_keys in Hk. rewrite map_app in Hk.
        apply in_app_iff in Hk. destruct Hk as [Hk|Hk].
        -- right. apply Hsub. exact Hk.
        -- apply in_map_iff in Hk. destruct Hk as (kv & Hfst & Hkv).
           apply entry_of_keys in Hkv. left. congruence.
      * intros k [<-|Hk].
        -- destruct (entry_of E frequency roi path) as [|kv l] eqn:He.
           ++ right. reflexivity.
           ++ left. unfold dict_keys. rewrite map_app. apply in_app_iff. right.
              assert (Hkv : In kv (entry_of E frequency roi path))
                by (rewrite He; left; reflexivity).
              apply entry_of_keys in Hkv. left. exact Hkv.
        -- destruct (Hseen k Hk) as [H|H]; [left|right; exact H].
           unfold dict_keys. rewrite map_app. apply in_app_iff. left. exact H.
      * rewrite H2. cbn [flat_map]. rewrite <- app_assoc. eexists. reflexivity.
Qed.

Lemma entries_keys :
  forall frequency roi image_paths,
    dict_keys E (flat_map (entry_of E frequency roi) image_paths)
    = filter (evaluates E frequency roi) image_paths.
Proof.
  intros frequency roi image_paths. unfold dict_keys.
  induction image_paths as [|path rest IH]; simpl.
  - reflexivity.
  - rewrite map_app, IH. unfold entry_of at 1, evaluates at 2.
    destruct (snd (process_image E path frequency (Some roi))) as [[v|]|e|];
      reflexivity.
Qed.

Lemma entries_in :
  forall frequency roi image_paths p v,
    In (p, v) (flat_map (entry_of E frequency roi) image_paths) <->
    In p image_paths /\
    snd (process_image E p frequency (Some roi)) = Returned (Some v).
Proof.
  intros frequency roi image_paths p v. rewrite in_flat_map. split.
  - intros (path & Hpath & Hin). pose proof (entry_of_keys _ _ _ _ Hin) as Hk.
    simpl in Hk. subst path. split; [exact Hpath|].
    unfold entry_of in Hin.
    destruct (snd (process_image E p frequency (Some roi))) as [[w|]|e|];
      simpl in Hin; try contradiction.
    destruct Hin as [Heq|[]]. injection Heq as <-. reflexivity.
  - intros [Hp Hrun]. exists p. split; [exact Hp|].
    unfold entry_of. rewrite Hrun. left. reflexivity.
Qed.

(** C1. A mapping returned by [batch_process] holds, for the ROI that
    [get_roi] returned on the first path, one entry [(path, value)] for
    each discovered path for which [process_image] returned a value, and
    no other; the entries stand in the order in which the discovered
    paths first occur, which is ascending, and no key occurs twice. On a
    well-formed tree no discovered path occurs twice. *)
Theorem batch_process_results :
  forall (fs : Glob.filesystem) (ui : list ui_event) (directory_path : string)
         (frequency : float E) (t : list (event E)) (results : dict E),
    batch_process E fs ui directory_path frequency = (t, Returned results) ->
    exists (roi : rect) (first : string) (rest : list string),
      discover fs directory_path = first :: rest /\
      snd (get_roi E first ui) = Returned roi /\
      results = flat_map (entry_of E frequency roi)
                         (dedup (discover fs directory_path)) /\
      (forall p v,
          In (p, v) results <->
          In p (discover fs directory_path) /\
          snd (process_image E p frequency (Some roi)) = Returned (Some v)) /\
      dict_keys E results
      = filter (evaluates E frequency roi) (dedup (discover fs directory_path)) /\
      NoDup (dict_keys E results) /\
      StronglySorted Str.le (dict_keys E results) /\
      (Glob.has_magic directory_path = false ->
       Tree.well_formed (Glob.Dir (Glob.root fs)) = true ->
       dedup (discover fs directory_path) = discover fs directory_path).
Proof.
  intros fs ui D frequency t results Hrun.
  unfold batch_process in Hrun.
  pose proof (DiscoveryFacts.discover_ordered fs D) as Hord.
  destruct (discover fs D) as [|first rest] eqn:Hpaths; [discriminate Hrun|].
  destruct (get_roi E first ui) as [t0 [roi|e|]] eqn:Hroi;
    [|discriminate Hrun|discriminate Hrun].
  destruct (batch_loop_entries frequency roi (first :: rest) [] [])
    as [t1 Hloop].
  { constructor. }
  { intros kv []. }
  { intros k []. }
  { intros k []. }
  unfold bind at 1 in Hrun. rewrite Hloop in Hrun. simpl in Hrun.
  injection Hrun as _ Hres.
  exists roi, first, rest.
  assert (Heq : results = flat_map (entry_of E frequency roi)
                                   (dedup (first :: rest))).
  { symmetry. exact Hres. }
  split; [reflexivity|]. split; [rewrite Hroi; reflexivity|].
  split; [exact Heq|].
  rewrite Heq. split; [|split; [apply entries_keys|]].
  - intros p v. rewrite entries_in. unfold dedup.
    rewrite first_occurrences_in. simpl. tauto.
  - rewrite entries_keys. split; [|split].
    + apply NoDup_filter. apply first_occurrences_nodup.
    + apply SortedFacts.filter_ordered.
      apply first_occurrences_ordered. exact Hord.
    + intros HD Hwf. rewrite <- Hpaths.
      apply first_occurrences_all.
      * apply DiscoveryFacts.discover_nodup; assumption.
      * intros p _ [].
Qed.

End Batch.

(** C1 on the demo tree: a rectangle is dragged and confirmed; of the
    three discovered paths one has a value, one fails to decode and one
    has an empty crop. *)
Lemma batch_process_results_witness :
  exists t results,
    batch_process Demo.env Demo.fs [Demo.drag; ConfirmClicked] "root" Demo.half
    = (t, Returned results) /\
    results = [("root/a/b/img2.jpg", Demo.half)] /\
    exists roi,
      results = flat_map (entry_of Demo.env Demo.half roi) (discover Demo.fs "root") /\
      NoDup (dict_keys Demo.env results) /\
      StronglySorted Str.le (dict_keys Demo.env results).
Proof.
  destruct (batch_process Demo.env Demo.fs [Demo.drag; ConfirmClicked] "root"
              Demo.half) as [t o] eqn:Hrun.
  assert (Ho : o = Returned [("root/a/b/img2.jpg", Demo.half)]).
  { vm_compute in Hrun. injection Hrun as _ <-. reflexivity. }
  subst o. exists t. eexists. split; [reflexivity|]. split; [reflexivity|].
  destruct (batch_process_results Demo.env Demo.fs [Demo.drag; ConfirmClicked]
              "root" Demo.half t _ Hrun)
    as (roi & first & rest & _ & _ & Hres & _ & _ & Hnodup & Hsorted & Hall).
  exists roi. rewrite <- (Hall eq_refl eq_refl).
  split; [exact Hres|]. split; [exact Hnodup | exact Hsorted].
Defined.

(** C4, as the code has it. On a well-formed tree, for a directory
    path without wildcard characters (which [glob] would read as a
    pattern), an entry whose name ends neither in ".jng" nor in ".ppg"
    is among the discovered paths exactly when its name ends in ".jpg",
    ".jpeg" or ".png" (in lower case), no name on the way to it starts
    with a dot, and its path has at most 4 segments more than
    [directory_path]. *)
Theorem discover_by_extension :
  forall (fs : Glob.filesystem) (directory_path : string)
         (ys : list string) (name : string),
    Glob.has_magic directory_path = false ->
    Tree.well_formed (Glob.Dir (Glob.root fs)) = true ->
    Tree.has_entry (Glob.root fs) ys name ->
    Str.endswith name ".jng" = false ->
    Str.endswith name ".ppg" = false ->
    (In (Tree.path_of directory_path (ys ++ [name])) (discover fs directory_path)
     <->
     (Str.endswith name ".jpg" = true \/ Str.endswith name ".jpeg" = true \/
      Str.endswith name ".png" = true) /\
     Tree.visible (ys ++ [name]) /\
     (depth directory_path (Tree.path_of directory_path (ys ++ [name])) <= 4)%Z).
Proof.
  intros fs D ys name HD Hwf Hentry Hjng Hppg.
  rewrite DiscoveryFacts.discover_in.
  rewrite (DiscoveryFacts.scan_in fs D _ HD Hwf).
  pose proof (DiscoveryFacts.has_entry_valid _ _ _ Hwf Hentry) as Hvalid.
  split.
  - intros [(segs & Heq & ys' & name' & E & He & Hv & Hm) Hdepth].
    pose proof (DiscoveryFacts.has_entry_valid _ _ _ Hwf He) as Hvalid'.
    rewrite <- E in Hvalid'.
    apply GlobFacts.path_of_inj in Heq; try assumption.
    + subst segs. apply app_inj_tail in E. destruct E as [_ <-].
      split; [|split; assumption].
      destruct Hm as [Hm|Hm].
      * rewrite FnmatchFacts.fnmatch_jpg_png, Hjng, Hppg in Hm.
        rewrite !orb_false_r in Hm. apply orb_true_iff in Hm. tauto.
      * rewrite FnmatchFacts.fnmatch_jpeg in Hm. tauto.
    + intros H. apply app_eq_nil in H. destruct H. discriminate.
    + subst segs. intros H. apply app_eq_nil in H. destruct H. discriminate.
  - intros (Hext & Hv & Hdepth). split; [|exact Hdepth].
    exists (ys ++ [name]). split; [reflexivity|].
    exists ys, name. repeat split; try assumption.
    destruct Hext as [H|[H|H]].
    + left. rewrite FnmatchFacts.fnmatch_jpg_png, H. reflexivity.
    + right. rewrite FnmatchFacts.fnmatch_jpeg. exact H.
    + left. rewrite FnmatchFacts.fnmatch_jpg_png, H. apply orb_true_r.
Qed.

(** C4 on [a/img1.png] of the demo tree. *)
Lemma discover_by_extension_witness :
  Tree.has_entry (Glob.root Demo.fs) ["a"] "img1.png" /\
  In "root/a/img1.png" (discover Demo.fs "root").
Proof.
  assert (He : Tree.has_entry (Glob.root Demo.fs) ["a"] "img1.png").
  { eexists. split.
    - eapply Tree.reaches_below; [left; reflexivity | apply Tree.reaches_here].
    - left. reflexivity. }
  split; [exact He|].
  change "root/a/img1.png" with (Tree.path_of "root" (["a"] ++ ["img1.png"])).
  apply (discover_by_extension Demo.fs "root" ["a"] "img1.png"
           eq_refl eq_refl He eq_refl eq_refl).
  split; [right; right; reflexivity|]. split.
  - repeat constructor.
  - vm_compute. discriminate.
Defined.

(** C4 as stated fails: [img3.png] of the demo tree has a name that ends
    in ".png" and is not among the discovered paths, for its path has
    six segments more than "root". *)
Lemma discover_drops_deep_png :
  Tree.has_entry (Glob.root Demo.fs) ["a"; "b"; "c"; "d"; "e"] "img3.png" /\
  Str.endswith "img3.png" ".png" = true /\
  Tree.path_of "root" (["a"; "b"; "c"; "d"; "e"] ++ ["img3.png"])
  = "root/a/b/c/d/e/img3.png" /\
  ~ In "root/a/b/c/d/e/img3.png" (discover Demo.fs "root").
Proof.
  split; [|split; [reflexivity|split; [reflexivity|]]].
  - eexists. split.
    + eapply Tree.reaches_below; [left; reflexivity|].
      eapply Tree.reaches_below; [right; right; left; reflexivity|].
      eapply Tree.reaches_below; [right; left; reflexivity|].
      eapply Tree.reaches_below; [left; reflexivity|].
      eapply Tree.reaches_below; [right; left; reflexivity|].
      apply Tree.reaches_here.
    + left. reflexivity.
  - intros H. vm_compute in H.
    repeat (destruct H as [H|H]; [discriminate H|]). exact H.
Qed.

(** The pattern "*.[jp][pn]g" also matches ".jng" and ".ppg":
    [scan.jng] of the demo tree is among the discovered paths. *)
Lemma discover_keeps_jng :
  In "root/scan.jng" (discover Demo.fs "root") /\
  Fnmatch.fnmatchcase "scan.jng" "*.[jp][pn]g" = true /\
  Fnmatch.fnmatchcase "film.ppg" "*.[jp][pn]g" = true.
Proof.
  split; [|split; reflexivity]. vm_compute. tauto.
Qed.

(** C2 on the demo image that does not decode, and on a 1 x 2 crop of
    [img2.jpg], in which no curve is found. *)
Lemma process_image_raises_only_on_decode_witness :
  process_image Demo.env "root/a/img1.png" Demo.half None
  = ([Loaded "root/a/img1.png"], Raised (OtherException "UnidentifiedImageError")) /\
  batch_step Demo.env Demo.half (1, 2, 5, 4)%Z [] "root/a/img1.png"
  = ([Loaded "root/a/img1.png"], Returned []) /\
  process_image Demo.env "root/a/b/img2.jpg" Demo.half (Some (0, 0, 2, 1)%Z)
  = ([Loaded "root/a/b/img2.jpg";
      Calculated (cropped Demo.image (Some (0, 0, 2, 1)%Z))],
     Returned None).
Proof.
  destruct (process_image_raises_only_on_decode Demo.env "root/a/img1.png"
              Demo.half None) as (Herr & _ & _).
  destruct (Herr (OtherException "UnidentifiedImageError") eq_refl)
    as [Hraise Habsorb].
  destruct (process_image_raises_only_on_decode Demo.env "root/a/b/img2.jpg"
              Demo.half (Some (0, 0, 2, 1)%Z)) as (_ & Hok & _).
  destruct (Hok Demo.image eq_refl) as (_ & Hcalc & _).
  split; [exact Hraise|]. split; [apply Habsorb|].
  apply (Hcalc (ValueError "no edge found")); [discriminate | reflexivity].
Defined.

(** C2 as stated fails: the decoding of [img1.png] raises, and so does
    [process_image]. *)
Lemma process_image_raises_on_decode_failure :
  snd (process_image Demo.env "root/a/img1.png" Demo.half (Some (1, 2, 5, 4)%Z))
  = Raised (OtherException "UnidentifiedImageError") /\
  ~ (forall (path : string) (frequency : float Demo.env) (roi : option rect) (e : exn),
        snd (process_image Demo.env path frequency roi) <> Raised e).
Proof.
  split; [reflexivity|].
  intros H.
  apply (H "root/a/img1.png" Demo.half (Some (1, 2, 5, 4)%Z)
           (OtherException "UnidentifiedImageError")).
  reflexivity.
Qed.

(** C6 on an ROI that lies outside the 6 x 8 demo image. *)
Lemma process_image_empty_crop_witness :
  LoadImageAsArray Demo.env "root/a/b/img2.jpg" = Ok Demo.image /\
  nrows (crop Demo.image 200 400 100 500) = 0 /\
  process_image Demo.env "root/a/b/img2.jpg" Demo.half
                (Some (100, 200, 500, 400)%Z)
  = ([Loaded "root/a/b/img2.jpg"], Returned None).
Proof.
  split; [reflexivity|]. split; [reflexivity|].
  apply (process_image_empty_crop Demo.env "root/a/b/img2.jpg" Demo.half
           100 200 500 400 Demo.image).
  - reflexivity.
  - left. reflexivity.
Defined.

(** C10 on the demo image that does not decode, and on an image whose
    path the console cannot print, with one path after it. *)
Lemma batch_loop_absorbs_exceptions_witness :
  let roi := (1, 2, 5, 4)%Z in
  let results := [("root/a/b/img2.jpg", Demo.half)] in
  batch_step Demo.env Demo.half roi results "root/a/img1.png"
  = ([Loaded "root/a/img1.png"], Returned results) /\
  snd (batch_step Demo.ascii_env Demo.half roi results Demo.accented)
  = Returned (results ++ [(Demo.accented, Demo.half)]) /\
  exists t' results',
    batch_loop Demo.ascii_env Demo.half roi results
               [Demo.accented; "root/scan.jng"]
    = (t', Returned results').
Proof.
  intros roi results.
  destruct (batch_loop_absorbs_exceptions Demo.env Demo.half roi results
              "root/a/img1.png" ["root/scan.jng"]) as (Hraised & _ & _ & _).
  destruct (batch_loop_absorbs_exceptions Demo.ascii_env Demo.half roi results
              Demo.accented ["root/scan.jng"]) as (_ & Hprint & _ & Hloop).
  split; [|split; [|exact Hloop]].
  - apply (Hraised _ (OtherException "UnidentifiedImageError")). reflexivity.
  - rewrite (Hprint [Loaded Demo.accented;
                     Calculated (cropped Demo.image (Some roi));
                     Evaluated (E := Demo.ascii_env) 8 Demo.half]
                    Demo.half (OtherException "UnicodeEncodeError"));
      reflexivity.
Defined.

(** C10 as stated fails: in front of a console that cannot print the
    path, the value of the image is computed and stored, the [print] of
    line 152 raises, and the handler leaves the new entry in the
    mapping. *)
Lemma batch_loop_keeps_unprinted_entry :
  let roi := (1, 2, 5, 4)%Z in
  try_raises Demo.ascii_env Demo.half roi Demo.accented /\
  snd (batch_step Demo.ascii_env Demo.half roi [] Demo.accented)
  = Returned [(Demo.accented, Demo.half)] /\
  ~ (forall (results : dict Demo.ascii_env) (path : string),
        try_raises Demo.ascii_env Demo.half roi path ->
        snd (batch_step Demo.ascii_env Demo.half roi results path)
        = Returned results).
Proof.
  intros roi.
  assert (Hraises : try_raises Demo.ascii_env Demo.half roi Demo.accented).
  { right.
    exists [Loaded Demo.accented; Calculated (cropped Demo.image (Some roi));
            Evaluated (E := Demo.ascii_env) 8 Demo.half],
           Demo.half, (OtherException "UnicodeEncodeError").
    split; reflexivity. }
  split; [exact Hraises|]. split; [reflexivity|].
  intros H. specialize (H [] Demo.accented Hraises).
  vm_compute in H. discriminate H.
Qed.

(** C7 on a directory that holds no image. *)
Lemma batch_process_no_images_witness :
  discover Demo.empty_fs "root" = [] /\
  batch_process Demo.env Demo.empty_fs [Demo.drag; ConfirmClicked] "root" Demo.half
  = ([], Raised NoImagesFound).
Proof.
  split; [reflexivity|].
  destruct (batch_process_no_images Demo.env Demo.empty_fs
              [Demo.drag; ConfirmClicked] "root" Demo.half) as [Hempty _].
  apply Hempty. reflexivity.
Defined.

(* ================================================================== *)
(** * Further properties *)

(* ------------------------------------------------------------------ *)
(** ** The session of [select_roi] *)

Section SessionFacts.

Variable E : Env.

(** X1. [select_roi] on a selector with an open figure: whatever
    happened before, short of a click on confirm or a closed window,
    once a rectangle is released and confirm is clicked with only view
    changes in between, the call returns the truncated corners of that
    rectangle; what comes after the click is not looked at. *)
Theorem select_roi_returns_confirmed_drag :
  forall (self : ROISelector) (imgArr : Array2D)
         (pre mid post : list ui_event) (eclick erelease : MouseEvent),
    fig_open self = true ->
    (forall ev, In ev pre -> is_close ev = false /\ is_confirm ev = false) ->
    (forall ev, In ev mid -> view_only ev = true) ->
    exists t self',
      select_roi E self imgArr
        (pre ++ RectangleReleased eclick erelease :: mid ++ ConfirmClicked :: post)
      = (t, Returned (self', rect_of eclick erelease)).
Proof.
  intros self imgArr pre mid post c r Hopen Hpre Hmid.
  set (s0 := select_roi_setup E self imgArr).
  assert (Hopen0 : fig_open s0 = true) by exact Hopen.
  destruct (plt_show_prefix E pre s0 Hopen0 Hpre)
    as (t1 & s1 & O1 & S1 & R1 & _ & P1).
  assert (S1' : selecting_roi s1 = true) by (rewrite S1; reflexivity).
  assert (R1' : rect_selector s1 = true) by (rewrite R1; reflexivity).
  destruct (after_dispatch_release E s1 c r S1' R1') as [Hroi2 Hopen2].
  set (s2 := after_dispatch E s1 (RectangleReleased c r)) in *.
  rewrite O1 in Hopen2.
  destruct (plt_show_prefix E mid s2 Hopen2) as (t3 & s3 & O3 & _ & _ & Q3 & P3).
  { intros ev Hin. specialize (Hmid ev Hin). destruct ev; try discriminate; auto. }
  assert (Hroi3 : roi s3 = Some (rect_of c r)).
  { rewrite Q3; [exact Hroi2|].
    intros ev Hin. specialize (Hmid ev Hin). destruct ev; try discriminate; auto. }
  assert (Hshow : exists t, plt_show E s0
                    (pre ++ RectangleReleased c r :: mid ++ ConfirmClicked :: post)
                  = (t, Returned (plt_close s3))).
  { rewrite P1. rewrite plt_show_step by exact O1. fold s2.
    rewrite P3. rewrite plt_show_step by exact O3.
    assert (Hafter : after_dispatch E s3 ConfirmClicked = plt_close s3).
    { unfold after_dispatch. simpl. unfold confirm_roi. rewrite Hroi3. reflexivity. }
    rewrite Hafter, plt_show_closed by reflexivity. simpl. eexists. reflexivity. }
  destruct Hshow as [t Hshow].
  unfold select_roi. fold s0. rewrite Hshow. simpl.
  change (roi s3) with (roi s3). rewrite Hroi3. simpl.
  do 2 eexists. reflexivity.
Qed.

End SessionFacts.

(** X1 on a session with an earlier drag, a zoom after the second drag
    and a stray event after the click on confirm. *)
Lemma select_roi_returns_confirmed_drag_witness :
  exists t self',
    select_roi Demo.env ROISelector_init Demo.image
      ([RectangleReleased (Demo.click 0 0) (Demo.click 1 1); ResetZoomClicked]
       ++ RectangleReleased (Demo.click (3 # 2) (5 # 2))
                            (Demo.click (21 # 4) (19 # 4))
       :: [Navigated (1, 2)%Q (3, 4)%Q] ++ ConfirmClicked :: [WindowClosed])
    = (t, Returned (self', (1, 2, 5, 4)%Z)).
Proof.
  apply (select_roi_returns_confirmed_drag Demo.env ROISelector_init Demo.image
           [RectangleReleased (Demo.click 0 0) (Demo.click 1 1); ResetZoomClicked]
           [Navigated (1, 2)%Q (3, 4)%Q] [WindowClosed]
           (Demo.click (3 # 2) (5 # 2)) (Demo.click (21 # 4) (19 # 4))).
  - reflexivity.
  - intros ev [<-|[<-|[]]]; split; reflexivity.
  - intros ev [<-|[]]. reflexivity.
Defined.

Section SessionEdges.

Variable E : Env.

Lemma plt_show_waits :
  forall ui self,
    fig_open self = true -> roi self = None ->
    (forall ev, In ev ui -> is_release ev = false /\ is_close ev = false) ->
    plt_show E self ui
    = (map (fun _ => Printed "No ROI selected yet.") (filter is_confirm ui),
       Blocked).
Proof.
  induction ui as [|ev ui IH]; intros self Hopen Hroi Hui.
  - simpl. rewrite Hopen. reflexivity.
  - rewrite plt_show_step by exact Hopen.
    destruct (Hui ev (or_introl eq_refl)) as [Hrel Hclose].
    assert (Hrest : forall ev', In ev' ui ->
                                is_release ev' = false /\ is_close ev' = false).
    { intros ev' Hin. apply Hui. right. exact Hin. }
    pose proof (after_dispatch_roi E self ev Hrel) as Hroi'.
    rewrite Hroi in Hroi'.
    destruct ev as [c r| | |xl yl|]; try discriminate.
    + assert (Hafter : after_dispatch E self ConfirmClicked = self).
      { unfold after_dispatch. simpl. unfold confirm_roi. rewrite Hroi. reflexivity. }
      rewrite Hafter, (IH self Hopen Hroi Hrest).
      simpl. unfold confirm_roi. rewrite Hroi. reflexivity.
    + rewrite (IH _ (after_dispatch_open E self ResetZoomClicked Hopen
                       eq_refl eq_refl) Hroi' Hrest).
      simpl. destruct (reset_zoom_returns E self) as [s' Hs']. rewrite Hs'.
      reflexivity.
    + rewrite (IH _ (after_dispatch_open E self (Navigated xl yl) Hopen
                       eq_refl eq_refl) Hroi' Hrest).
      reflexivity.
Qed.

(** X3. [select_roi] on a selector without candidate and with an open
    figure: as long as no rectangle is released and the window is not
    closed, the call does not return; every click on confirm prints
    "No ROI selected yet." and nothing else is printed. *)
Theorem select_roi_waits_for_a_candidate :
  forall (self : ROISelector) (imgArr : Array2D) (ui : list ui_event),
    fig_open self = true ->
    roi self = None ->
    (forall ev, In ev ui -> is_release ev = false /\ is_close ev = false) ->
    select_roi E self imgArr ui
    = (Shown imgArr
         :: map (fun _ => Printed "No ROI selected yet.") (filter is_confirm ui),
       Blocked).
Proof.
  intros self imgArr ui Hopen Hroi Hui. unfold select_roi.
  rewrite (plt_show_waits ui (select_roi_setup E self imgArr) Hopen Hroi Hui).
  reflexivity.
Qed.

End SessionEdges.

(** X3 on three clicks on confirm around a zoom. *)
Lemma select_roi_waits_for_a_candidate_witness :
  select_roi Demo.env ROISelector_init Demo.image
    [ConfirmClicked; Navigated (1, 2)%Q (3, 4)%Q; ConfirmClicked; ConfirmClicked]
  = ([Shown Demo.image; Printed "No ROI selected yet.";
      Printed "No ROI selected yet."; Printed "No ROI selected yet."],
     Blocked).
Proof.
  apply (select_roi_waits_for_a_candidate Demo.env ROISelector_init Demo.image
           [ConfirmClicked; Navigated (1, 2)%Q (3, 4)%Q; ConfirmClicked;
            ConfirmClicked]).
  - reflexivity.
  - reflexivity.
  - intros ev [<-|[<-|[<-|[<-|[]]]]]; split; reflexivity.
Defined.

(* ------------------------------------------------------------------ *)
(** ** The stages of [process_image] *)

Section Stages.

Variable E : Env.

(** X5. [process_image] returns a value exactly when the image decodes,
    the cropped array is not empty, the curve is computed from it and
    the curve has a value at the frequency; the value is that one. *)
Theorem process_image_returns_value_iff :
  forall (path : string) (frequency : float E) (roi : option rect) (v : float E),
    snd (process_image E path frequency roi) = Returned (Some v) <->
    exists arr res,
      LoadImageAsArray E path = Ok arr /\
      size (cropped arr roi) <> 0 /\
      CalculateMtf E (cropped arr roi) = Ok res /\
      GetMtfValue E res frequency = Ok v.
Proof.
  intros path frequency roi v. split.
  - intros Hrun. destruct (LoadImageAsArray E path) as [arr|e] eqn:Hload.
    + rewrite (process_image_unfold E path frequency roi arr Hload) in Hrun.
      destruct (Nat.eqb (size (cropped arr roi)) 0) eqn:Hsize;
        [discriminate Hrun|].
      apply Nat.eqb_neq in Hsize.
      destruct (CalculateMtf E (cropped arr roi)) as [res|e] eqn:Hcalc;
        [|discriminate Hrun].
      simpl in Hrun.
      destruct (GetMtfValue E res frequency) as [w|e] eqn:Hget;
        [|discriminate Hrun].
      injection Hrun as ->. exists arr, res. auto.
    + rewrite (process_image_undecoded E path frequency roi e Hload) in Hrun.
      discriminate Hrun.
  - intros (arr & res & Hload & Hsize & Hcalc & Hget).
    rewrite (process_image_unfold E path frequency roi arr Hload).
    apply Nat.eqb_neq in Hsize. rewrite Hsize, Hcalc. simpl.
    rewrite Hget. reflexivity.
Qed.

(** X6. The two guarded stages of [process_image], on a decoded image
    with a crop that is not empty: when the curve computation raises,
    [None] is returned and the curve evaluation is not called; when the
    evaluation raises, [None] is returned after the three calls. *)
Theorem process_image_stage_failures :
  forall (path : string) (frequency : float E) (roi : option rect)
         (arr : Array2D),
    LoadImageAsArray E path = Ok arr ->
    size (cropped arr roi) <> 0 ->
    (forall e, CalculateMtf E (cropped arr roi) = Err e ->
               process_image E path frequency roi
               = ([Loaded path; Calculated (cropped arr roi)], Returned None)) /\
    (forall res e, CalculateMtf E (cropped arr roi) = Ok res ->
                   GetMtfValue E res frequency = Err e ->
                   process_image E path frequency roi
                   = ([Loaded path; Calculated (cropped arr roi);
                       Evaluated res frequency], Returned None)).
Proof.
  intros path frequency roi arr Hload Hsize.
  rewrite (process_image_unfold E path frequency roi arr Hload).
  apply Nat.eqb_neq in Hsize. rewrite Hsize. split.
  - intros e Hcalc. rewrite Hcalc. reflexivity.
  - intros res e Hcalc Hget. rewrite Hcalc, Hget. reflexivity.
Qed.

Lemma slice_length_reversed :
  forall start stop n,
    (0 <= stop <= start)%Z -> slice_length start stop n = 0.
Proof.
  intros start stop n H. unfold slice_length, slice_indices, clip_index.
  destruct (Z.ltb_spec start 0); destruct (Z.ltb_spec stop 0); lia.
Qed.

(** X7. An ROI whose second corner is not beyond the first, in x or in
    y (corners not negative), gives an empty crop of every image:
    [process_image] returns [None] after the decoding, without any
    computation. *)
Theorem process_image_reversed_roi :
  forall (path : string) (frequency : float E) (x1 y1 x2 y2 : Z)
         (arr : Array2D),
    LoadImageAsArray E path = Ok arr ->
    (0 <= x2 <= x1)%Z \/ (0 <= y2 <= y1)%Z ->
    process_image E path frequency (Some (x1, y1, x2, y2))
    = ([Loaded path], Returned None).
Proof.
  intros path frequency x1 y1 x2 y2 arr Hload Hrev.
  rewrite (process_image_unfold E path frequency _ arr Hload).
  assert (Hsize : size (cropped arr (Some (x1, y1, x2, y2))) = 0).
  { unfold size, cropped. simpl. destruct Hrev as [H|H].
    - rewrite (slice_length_reversed x1 x2 _ H). lia.
    - rewrite (slice_length_reversed y1 y2 _ H). lia. }
  rewrite Hsize. reflexivity.
Qed.

(** X8. For an ROI inside the image, [process_image] computes the curve
    from the rows [y1..y2-1] and the columns [x1..x2-1] of the decoded
    array: [y2 - y1] rows, [x2 - x1] columns, cell (i, j) being cell
    (y1 + i, x1 + j) of the image. *)
Theorem process_image_computes_on_the_roi :
  forall (path : string) (frequency : float E) (x1 y1 x2 y2 : Z)
         (arr : Array2D),
    LoadImageAsArray E path = Ok arr ->
    (0 <= y1 < y2)%Z -> (y2 <= Z.of_nat (nrows arr))%Z ->
    (0 <= x1 < x2)%Z -> (x2 <= Z.of_nat (ncols arr))%Z ->
    exists a t o,
      process_image E path frequency (Some (x1, y1, x2, y2))
      = (Loaded path :: Calculated a :: t, o) /\
      nrows a = Z.to_nat (y2 - y1) /\
      ncols a = Z.to_nat (x2 - x1) /\
      forall i j, cell a i j = cell arr (i + Z.to_nat y1) (j + Z.to_nat x1).
Proof.
  intros path frequency x1 y1 x2 y2 arr Hload Hy Hy' Hx Hx'.
  rewrite (process_image_unfold E path frequency _ arr Hload).
  set (a := cropped arr (Some (x1, y1, x2, y2))).
  assert (Hclip : forall i n, (0 <= i)%Z -> (i <= Z.of_nat n)%Z ->
                              clip_index i n = Z.to_nat i).
  { intros i n H0 Hn. unfold clip_index. destruct (Z.ltb_spec i 0); lia. }
  assert (Hrows : nrows a = Z.to_nat (y2 - y1)).
  { unfold a, cropped. simpl. unfold slice_length, slice_indices.
    rewrite !Hclip by lia. lia. }
  assert (Hcols : ncols a = Z.to_nat (x2 - x1)).
  { unfold a, cropped. simpl. unfold slice_length, slice_indices.
    rewrite !Hclip by lia. lia. }
  assert (Hcell : forall i j, cell a i j
                              = cell arr (i + Z.to_nat y1) (j + Z.to_nat x1)).
  { intros i j. unfold a, cropped. simpl. rewrite !Hclip by lia. reflexivity. }
  assert (Hsize : Nat.eqb (size a) 0 = false).
  { apply Nat.eqb_neq. unfold size. rewrite Hrows, Hcols. nia. }
  rewrite Hsize.
  destruct (CalculateMtf E a) as [res|e]; exists a; do 2 eexists;
    (split; [reflexivity|]); auto.
Qed.

(** X9. Line 93 hands the corners to the slice as they are, so that a
    negative first corner counts from the far edge of the image: with
    [-ncols <= x1 < 0], [process_image] computes the curve from the
    columns [ncols + x1 .. x2 - 1] of the decoded array, that is from
    the right part of the image, and returns [None] without computing
    when [x2] does not lie beyond column [ncols + x1]. *)
Theorem crop_negative_corner_wraps :
  forall (path : string) (frequency : float E) (x1 y1 x2 y2 : Z)
         (arr : Array2D),
    LoadImageAsArray E path = Ok arr ->
    (0 <= y1 < y2)%Z -> (y2 <= Z.of_nat (nrows arr))%Z ->
    (- Z.of_nat (ncols arr) <= x1 < 0)%Z ->
    (0 <= x2 <= Z.of_nat (ncols arr))%Z ->
    ((Z.of_nat (ncols arr) + x1 < x2)%Z ->
     exists a t o,
       process_image E path frequency (Some (x1, y1, x2, y2))
       = (Loaded path :: Calculated a :: t, o) /\
       nrows a = Z.to_nat (y2 - y1) /\
       ncols a = Z.to_nat (x2 - (Z.of_nat (ncols arr) + x1)) /\
       forall i j,
         cell a i j
         = cell arr (i + Z.to_nat y1)
                    (j + Z.to_nat (Z.of_nat (ncols arr) + x1))) /\
    ((x2 <= Z.of_nat (ncols arr) + x1)%Z ->
     process_image E path frequency (Some (x1, y1, x2, y2))
     = ([Loaded path], Returned None)).
Proof.
  intros path frequency x1 y1 x2 y2 arr Hload Hy Hy' Hx1 Hx2.
  rewrite (process_image_unfold E path frequency _ arr Hload).
  set (a := cropped arr (Some (x1, y1, x2, y2))).
  assert (Hclip : forall i n, (0 <= i)%Z -> (i <= Z.of_nat n)%Z ->
                              clip_index i n = Z.to_nat i).
  { intros i n H0 Hn. unfold clip_index. destruct (Z.ltb_spec i 0); lia. }
  assert (Hstart : clip_index x1 (ncols arr)
                   = Z.to_nat (Z.of_nat (ncols arr) + x1)).
  { unfold clip_index. destruct (Z.ltb_spec x1 0); lia. }
  assert (Hrows : nrows a = Z.to_nat (y2 - y1)).
  { unfold a, cropped. simpl. unfold slice_length, slice_indices.
    rewrite !Hclip by lia. lia. }
  assert (Hcols : ncols a = Z.to_nat (x2 - (Z.of_nat (ncols arr) + x1))).
  { unfold a, cropped. simpl. unfold slice_length, slice_indices.
    rewrite Hstart, Hclip by lia. lia. }
  split.
  - intros Hbeyond.
    assert (Hcell : forall i j,
               cell a i j
               = cell arr (i + Z.to_nat y1)
                          (j + Z.to_nat (Z.of_nat (ncols arr) + x1))).
    { intros i j. unfold a, cropped. simpl.
      rewrite Hstart, Hclip by lia. reflexivity. }
    assert (Hsize : Nat.eqb (size a) 0 = false).
    { apply Nat.eqb_neq. unfold size. rewrite Hrows, Hcols. nia. }
    rewrite Hsize.
    destruct (CalculateMtf E a) as [res|e]; exists a; do 2 eexists;
      (split; [reflexivity|]); auto.
  - intros Hshort.
    assert (Hsize : Nat.eqb (size a) 0 = true).
    { apply Nat.eqb_eq. unfold size. rewrite Hcols. nia. }
    rewrite Hsize. reflexivity.
Qed.

End Stages.

(** X5 on the demo image [img2.jpg] and the dragged rectangle. *)
Lemma process_image_returns_value_iff_witness :
  snd (process_image Demo.env "root/a/b/img2.jpg" Demo.half
                     (Some (1, 2, 5, 4)%Z))
  = Returned (Some Demo.half).
Proof.
  apply (process_image_returns_value_iff Demo.env "root/a/b/img2.jpg" Demo.half
           (Some (1, 2, 5, 4)%Z) Demo.half).
  exists Demo.image, 8. repeat split; try reflexivity. discriminate.
Defined.

(** X6 on a 1 x 2 crop of the demo image, in which no curve is found. *)
Lemma process_image_stage_failures_witness :
  process_image Demo.env "root/a/b/img2.jpg" Demo.half (Some (0, 0, 2, 1)%Z)
  = ([Loaded "root/a/b/img2.jpg";
      Calculated (cropped Demo.image (Some (0, 0, 2, 1)%Z))],
     Returned None).
Proof.
  destruct (process_image_stage_failures Demo.env "root/a/b/img2.jpg" Demo.half
              (Some (0, 0, 2, 1)%Z) Demo.image eq_refl) as [Hcalc _].
  - discriminate.
  - apply (Hcalc (ValueError "no edge found")). reflexivity.
Defined.

(** X7 on a rectangle dragged from right to left. *)
Lemma process_image_reversed_roi_witness :
  process_image Demo.env "root/a/b/img2.jpg" Demo.half (Some (5, 2, 1, 4)%Z)
  = ([Loaded "root/a/b/img2.jpg"], Returned None).
Proof.
  apply (process_image_reversed_roi Demo.env "root/a/b/img2.jpg" Demo.half
           5 2 1 4 Demo.image eq_refl).
  left. lia.
Defined.

(** X8 on the demo image and the dragged rectangle. *)
Lemma process_image_computes_on_the_roi_witness :
  exists a t o,
    process_image Demo.env "root/a/b/img2.jpg" Demo.half (Some (1, 2, 5, 4)%Z)
    = (Loaded "root/a/b/img2.jpg" :: Calculated a :: t, o) /\
    nrows a = 2 /\ ncols a = 4.
Proof.
  destruct (process_image_computes_on_the_roi Demo.env "root/a/b/img2.jpg"
              Demo.half 1 2 5 4 Demo.image eq_refl)
    as (a & t & o & Hrun & Hrows & Hcols & _); try (simpl; lia).
  exists a, t, o. split; [exact Hrun|]. split; [exact Hrows | exact Hcols].
Defined.

(** X9 on the 6 x 8 demo image and a rectangle dragged from three
    columns left of it: the columns [-3:7] are the columns 5 and 6. *)
Lemma crop_negative_corner_wraps_witness :
  exists a t o,
    process_image Demo.env "root/a/b/img2.jpg" Demo.half (Some (-3, 0, 7, 6)%Z)
    = (Loaded "root/a/b/img2.jpg" :: Calculated a :: t, o) /\
    nrows a = 6 /\ ncols a = 2 /\
    forall i j, cell a i j = cell Demo.image i (j + 5).
Proof.
  destruct (crop_negative_corner_wraps Demo.env "root/a/b/img2.jpg" Demo.half
              (-3) 0 7 6 Demo.image eq_refl) as [Hwrap _]; try (simpl; lia).
  destruct Hwrap as (a & t & o & Hrun & Hrows & Hcols & Hcell);
    [simpl; lia|].
  exists a, t, o. split; [exact Hrun|]. split; [exact Hrows|].
  split; [exact Hcols|].
  intros i j. rewrite Hcell. reflexivity.
Defined.

(* ------------------------------------------------------------------ *)
(** ** The run of [batch_process] *)

Section Run.

Variable E : Env.

Lemma loaded_paths_app :
  forall a b : list (event E),
    loaded_paths E (a ++ b) = loaded_paths E a ++ loaded_paths E b.
Proof. intros a b. unfold loaded_paths. apply flat_map_app. Qed.

Lemma printed_lines_app :
  forall a b : list (event E),
    printed_lines E (a ++ b) = printed_lines E a ++ printed_lines E b.
Proof. intros a b. unfold printed_lines. apply flat_map_app. Qed.

Lemma shown_images_app :
  forall a b : list (event E),
    shown_images E (a ++ b) = shown_images E a ++ shown_images E b.
Proof. intros a b. unfold shown_images. apply flat_map_app. Qed.

(** [process_image] decodes its path, prints nothing and shows nothing. *)
Lemma process_image_trace :
  forall path frequency roi,
    loaded_paths E (fst (process_image E path frequency roi)) = [path] /\
    printed_lines E (fst (process_image E path frequency roi)) = [] /\
    shown_images E (fst (process_image E path frequency roi)) = [].
Proof.
  intros path frequency roi.
  destruct (LoadImageAsArray E path) as [arr|e] eqn:Hload.
  - rewrite (process_image_unfold E path frequency roi arr Hload).
    destruct (Nat.eqb (size (cropped arr roi)) 0); [repeat split|].
    destruct (CalculateMtf E (cropped arr roi)); repeat split.
  - rewrite (process_image_undecoded E path frequency roi e Hload).
    repeat split.
Qed.

(** The events of one turn of the loop: those of [process_image], then
    the line of the entry, if there is one. *)
Lemma batch_step_trace :
  forall frequency roi results path,
    fst (batch_step E frequency roi results path)
    = fst (process_image E path frequency (Some roi))
      ++ map (fun kv => Printed (mtf_line E (fst kv) frequency (snd kv)))
             (entry_of E frequency roi path).
Proof.
  intros frequency roi results path.
  rewrite (batch_step_unfold E). unfold entry_of.
  destruct (process_image E path frequency (Some roi)) as [t o] eqn:Hrun.
  destruct o as [[v|]|e|]; simpl; rewrite ?app_nil_r; reflexivity.
Qed.

Lemma batch_loop_trace :
  forall frequency roi image_paths results,
    loaded_paths E (fst (batch_loop E frequency roi results image_paths))
    = image_paths /\
    printed_lines E (fst (batch_loop E frequency roi results image_paths))
    = map (fun kv => mtf_line E (fst kv) frequency (snd kv))
          (flat_map (entry_of E frequency roi) image_paths) /\
    shown_images E (fst (batch_loop E frequency roi results image_paths)) = [].
Proof.
  intros frequency roi image_paths.
  induction image_paths as [|path rest IH]; intros results.
  - repeat split.
  - cbn [batch_loop flat_map].
    pose proof (batch_step_trace frequency roi results path) as Hstep.
    destruct (batch_step_returns E frequency roi results path)
      as (t1 & r1 & H1).
    rewrite H1 in Hstep |- *. simpl in Hstep. simpl bind.
    destruct (IH r1) as (L & P & S).
    destruct (batch_loop E frequency roi r1 rest) as [t2 o2].
    simpl in L, P, S |- *.
    destruct (process_image_trace path frequency (Some roi)) as (L1 & P1 & S1).
    assert (Hmap_l : forall l : list (string * float E),
               loaded_paths E
                 (map (fun kv => Printed (mtf_line E (fst kv) frequency (snd kv))) l)
               = []).
    { induction l; [reflexivity | exact IHl]. }
    assert (Hmap_s : forall l : list (string * float E),
               shown_images E
                 (map (fun kv => Printed (mtf_line E (fst kv) frequency (snd kv))) l)
               = []).
    { induction l; [reflexivity | exact IHl]. }
    assert (Hmap_p : forall l : list (string * float E),
               printed_lines E
                 (map (fun kv => Printed (mtf_line E (fst kv) frequency (snd kv))) l)
               = map (fun kv => mtf_line E (fst kv) frequency (snd kv)) l).
    { induction l; [reflexivity | simpl; f_equal; exact IHl]. }
    rewrite Hstep. split; [|split].
    + rewrite !loaded_paths_app, L1, Hmap_l, L. reflexivity.
    + rewrite !printed_lines_app, P1, Hmap_p, P, map_app. reflexivity.
    + rewrite !shown_images_app, S1, Hmap_s, S. reflexivity.
Qed.


(** The session prints and shows, and decodes nothing. *)
Lemma plt_show_trace :
  forall ui self,
    loaded_paths E (fst (plt_show E self ui)) = [] /\
    shown_images E (fst (plt_show E self ui)) = [].
Proof.
  induction ui as [|ev ui IH]; intros self.
  - simpl. destruct (fig_open self); split; reflexivity.
  - destruct (fig_open self) eqn:Hopen.
    + rewrite plt_show_step by exact Hopen. cbn [fst].
      rewrite loaded_paths_app, shown_images_app.
      destruct (IH (after_dispatch E self ev)) as [L S]. rewrite L, S.
      assert (Hd : loaded_paths E (fst (dispatch E self ev)) = [] /\
                   shown_images E (fst (dispatch E self ev)) = []).
      { destruct ev as [c r| | |xl yl|]; simpl.
        - destruct (rect_selector self); split; reflexivity.
        - unfold confirm_roi. destruct (roi self); split; reflexivity.
        - destruct (reset_zoom_returns E self) as [s' Hs']. rewrite Hs'.
          split; reflexivity.
        - split; reflexivity.
        - split; reflexivity. }
      destruct Hd as [Ld Sd]. rewrite Ld, Sd. split; reflexivity.
    + rewrite plt_show_closed by exact Hopen. split; reflexivity.
Qed.

Lemma get_roi_decoded :
  forall first ui imgArr,
    LoadImageAsArray E first = Ok imgArr ->
    get_roi E first ui
    = (Loaded first :: Shown imgArr
         :: fst (plt_show E (select_roi_setup E ROISelector_init imgArr) ui),
       match snd (plt_show E (select_roi_setup E ROISelector_init imgArr) ui) with
       | Returned closed =>
           match roi closed with
           | Some r => Returned r
           | None => Raised NoRoiSelected
           end
       | Raised e => Raised e
       | Blocked => Blocked
       end).
Proof.
  intros first ui imgArr Hload. unfold get_roi, call, select_roi.
  rewrite Hload. simpl.
  destruct (plt_show E (select_roi_setup E ROISelector_init imgArr) ui)
    as [t [closed|e|]]; simpl.
  - destruct (roi closed); simpl; rewrite ?app_nil_r; reflexivity.
  - reflexivity.
  - reflexivity.
Qed.

(** X11. When the first discovered image does not decode,
    [batch_process] raises the exception of the decoder: no figure is
    shown and no other image is touched. *)
Theorem batch_process_reference_image_undecoded :
  forall (fs : Glob.filesystem) (ui : list ui_event) (directory_path : string)
         (frequency : float E) (first : string) (rest : list string) (e : exn),
    discover fs directory_path = first :: rest ->
    LoadImageAsArray E first = Err e ->
    batch_process E fs ui directory_path frequency = ([Loaded first], Raised e).
Proof.
  intros fs ui D frequency first rest e Hpaths Hload.
  unfold batch_process. rewrite Hpaths. unfold get_roi, call.
  rewrite Hload. reflexivity.
Qed.

(** X12. When the figure is closed while the selector holds no
    candidate, [batch_process] raises "No ROI selected": the first image
    was decoded and shown, and no image is evaluated. *)
Theorem batch_process_without_roi :
  forall (fs : Glob.filesystem) (ui : list ui_event) (directory_path : string)
         (frequency : float E) (first : string) (rest : list string)
         (imgArr : Array2D) (t : list (event E)) (closed : ROISelector),
    discover fs directory_path = first :: rest ->
    LoadImageAsArray E first = Ok imgArr ->
    plt_show E (select_roi_setup E ROISelector_init imgArr) ui
    = (t, Returned closed) ->
    roi closed = None ->
    batch_process E fs ui directory_path frequency
    = (Loaded first :: Shown imgArr :: t, Raised NoRoiSelected).
Proof.
  intros fs ui D frequency first rest imgArr t closed Hpaths Hload Hshow Hroi.
  unfold batch_process. rewrite Hpaths.
  rewrite (get_roi_decoded first ui imgArr Hload), Hshow. simpl.
  rewrite Hroi. reflexivity.
Qed.

(** X13. In a run of [batch_process] that returns, one figure is shown,
    with the first discovered image, and the images decoded are, in
    order, that first image for the selection and then every discovered
    path once, whether its evaluation succeeds or not. *)
Theorem batch_process_decodes_each_path :
  forall (fs : Glob.filesystem) (ui : list ui_event) (directory_path : string)
         (frequency : float E) (t : list (event E)) (results : dict E),
    batch_process E fs ui directory_path frequency = (t, Returned results) ->
    exists first rest imgArr,
      discover fs directory_path = first :: rest /\
      LoadImageAsArray E first = Ok imgArr /\
      shown_images E t = [imgArr] /\
      loaded_paths E t = first :: discover fs directory_path.
Proof.
  intros fs ui D frequency t results Hrun. unfold batch_process in Hrun.
  destruct (discover fs D) as [|first rest] eqn:Hpaths; [discriminate Hrun|].
  destruct (LoadImageAsArray E first) as [imgArr|e] eqn:Hload.
  - rewrite (get_roi_decoded first ui imgArr Hload) in Hrun.
    destruct (plt_show_trace ui (select_roi_setup E ROISelector_init imgArr))
      as [L S].
    destruct (plt_show E (select_roi_setup E ROISelector_init imgArr) ui)
      as [t0 [closed|e|]]; cbn [fst snd] in Hrun, L, S;
      [|discriminate Hrun|discriminate Hrun].
    destruct (roi closed) as [r|]; [|discriminate Hrun].
    destruct (batch_loop_trace frequency r (first :: rest) []) as (Ll & _ & Sl).
    unfold bind at 1 in Hrun.
    destruct (batch_loop E frequency r [] (first :: rest)) as [t1 [d|e|]];
      cbn [fst snd] in Ll, Sl; simpl in Hrun; try discriminate Hrun.
    injection Hrun as <- _.
    exists first, rest, imgArr.
    split; [reflexivity|]. split; [exact Hload|]. split.
    + change (shown_images E ([Loaded first; Shown imgArr] ++ t0 ++ t1 ++ [])
              = [imgArr]).
      rewrite !shown_images_app, S, Sl. reflexivity.
    + change (loaded_paths E ([Loaded first; Shown imgArr] ++ t0 ++ t1 ++ [])
              = first :: first :: rest).
      rewrite !loaded_paths_app, L, Ll. simpl. rewrite app_nil_r. reflexivity.
  - unfold get_roi, call in Hrun. rewrite Hload in Hrun. discriminate Hrun.
Qed.

Lemma entries_length :
  forall frequency roi image_paths,
    List.length (flat_map (entry_of E frequency roi) image_paths)
    <= List.length image_paths.
Proof.
  intros frequency roi image_paths.
  induction image_paths as [|path rest IH]; simpl.
  - lia.
  - rewrite length_app. unfold entry_of at 1.
    destruct (snd (process_image E path frequency (Some roi))) as [[v|]|e|];
      simpl; lia.
Qed.

Lemma first_occurrences_length :
  forall paths seen,
    List.length (first_occurrences seen paths) <= List.length paths.
Proof.
  induction paths as [|p rest IH]; intros seen; simpl.
  - lia.
  - destruct (existsb (String.eqb p) seen); simpl.
    + specialize (IH seen). lia.
    + specialize (IH (p :: seen)). lia.
Qed.

(** X14. Once [get_roi] has returned an ROI for the first discovered
    image, [batch_process] returns a mapping: nothing is raised in the
    loop. The mapping has at most as many entries as there are
    discovered paths, and it is empty, not an error, when no discovered
    path has a value. *)
Theorem batch_process_results_size :
  forall (fs : Glob.filesystem) (ui : list ui_event) (directory_path : string)
         (frequency : float E) (first : string) (rest : list string)
         (t0 : list (event E)) (roi : rect),
    discover fs directory_path = first :: rest ->
    get_roi E first ui = (t0, Returned roi) ->
    exists t results,
      batch_process E fs ui directory_path frequency = (t, Returned results) /\
      List.length results <= List.length (discover fs directory_path) /\
      ((forall path, In path (discover fs directory_path) ->
                     evaluates E frequency roi path = false) ->
       results = []).
Proof.
  intros fs ui D frequency first rest t0 roi Hpaths Hroi.
  unfold batch_process. rewrite Hpaths, Hroi.
  destruct (batch_loop_entries E frequency roi (first :: rest) [] [])
    as [t1 Hloop]; try (intros ? []); [constructor|].
  unfold bind at 1. rewrite Hloop. simpl.
  change (entry_of E frequency roi first
          ++ flat_map (entry_of E frequency roi)
                      (first_occurrences [first] rest))
    with (flat_map (entry_of E frequency roi)
                   (first_occurrences [] (first :: rest))).
  do 2 eexists. split; [reflexivity|]. split.
  - etransitivity; [apply entries_length | apply first_occurrences_length].
  - intros Hnone.
    assert (Hall : forall l, (forall p, In p l -> In p (first :: rest)) ->
                             flat_map (entry_of E frequency roi) l = []).
    { induction l as [|p l IH]; intros Hl; [reflexivity|].
      simpl. rewrite IH by (intros q Hq; apply Hl; right; exact Hq).
      specialize (Hnone p (Hl p (or_introl eq_refl))).
      unfold evaluates in Hnone. unfold entry_of.
      destruct (snd (process_image E p frequency (Some roi))) as [[v|]|e|];
        [discriminate Hnone | | |]; reflexivity. }
    apply Hall. intros p Hp. apply first_occurrences_in in Hp. tauto.
Qed.

End Run.

(** X11 on the directory whose only image does not decode. *)
Lemma batch_process_reference_image_undecoded_witness :
  discover Demo.broken_fs "root" = ["root/a/img1.png"] /\
  batch_process Demo.env Demo.broken_fs [Demo.drag; ConfirmClicked] "root"
                Demo.half
  = ([Loaded "root/a/img1.png"],
     Raised (OtherException "UnidentifiedImageError")).
Proof.
  split; [reflexivity|].
  apply (batch_process_reference_image_undecoded Demo.env Demo.broken_fs
           [Demo.drag; ConfirmClicked] "root" Demo.half "root/a/img1.png" []).
  - reflexivity.
  - reflexivity.
Defined.

(** X12 on a click on confirm without a drag, then a closed window. *)
Lemma batch_process_without_roi_witness :
  exists t,
    batch_process Demo.env Demo.fs [ConfirmClicked; WindowClosed] "root" Demo.half
    = (Loaded "root/a/b/img2.jpg" :: Shown Demo.image :: t,
       Raised NoRoiSelected).
Proof.
  destruct (plt_show Demo.env
              (select_roi_setup Demo.env ROISelector_init Demo.image)
              [ConfirmClicked; WindowClosed]) as [t o] eqn:Hshow.
  assert (Ho : exists closed, o = Returned closed /\ roi closed = None).
  { vm_compute in Hshow. injection Hshow as _ <-. eexists. split; reflexivity. }
  destruct Ho as (closed & -> & Hroi). exists t.
  apply (batch_process_without_roi Demo.env Demo.fs
           [ConfirmClicked; WindowClosed] "root" Demo.half
           "root/a/b/img2.jpg" ["root/a/img1.png"; "root/scan.jng"]
           Demo.image t closed).
  - reflexivity.
  - reflexivity.
  - exact Hshow.
  - exact Hroi.
Defined.

(** X13 on the demo run: four decodings for three paths. *)
Lemma batch_process_decodes_each_path_witness :
  exists t results,
    batch_process Demo.env Demo.fs [Demo.drag; ConfirmClicked] "root" Demo.half
    = (t, Returned results) /\
    shown_images Demo.env t = [Demo.image] /\
    loaded_paths Demo.env t
    = ["root/a/b/img2.jpg"; "root/a/b/img2.jpg"; "root/a/img1.png";
       "root/scan.jng"].
Proof.
  destruct (batch_process Demo.env Demo.fs [Demo.drag; ConfirmClicked] "root"
              Demo.half) as [t o] eqn:Hrun.
  assert (Ho : exists results, o = Returned results).
  { vm_compute in Hrun. injection Hrun as _ <-. eexists. reflexivity. }
  destruct Ho as [results ->]. exists t, results. split; [reflexivity|].
  destruct (batch_process_decodes_each_path Demo.env Demo.fs
              [Demo.drag; ConfirmClicked] "root" Demo.half t results Hrun)
    as (first & rest & imgArr & Hpaths & Hload & Hshown & Hloaded).
  assert (Hfirst : first = "root/a/b/img2.jpg").
  { vm_compute in Hpaths. injection Hpaths as <- _. reflexivity. }
  subst first. split.
  - rewrite Hshown. vm_compute in Hload. injection Hload as <-. reflexivity.
  - rewrite Hloaded. reflexivity.
Defined.

(** X14 on the demo tree, with a rectangle dragged outside the images:
    no path has a value, and the run returns the empty mapping. *)
Lemma batch_process_results_size_witness :
  let ui := [RectangleReleased (Demo.click 100 200) (Demo.click 500 400);
             ConfirmClicked] in
  exists t,
    batch_process Demo.env Demo.fs ui "root" Demo.half = (t, Returned []).
Proof.
  intros ui.
  destruct (get_roi Demo.env "root/a/b/img2.jpg" ui) as [t0 o] eqn:Hroi.
  assert (Ho : o = Returned (100, 200, 500, 400)%Z).
  { vm_compute in Hroi. injection Hroi as _ <-. reflexivity. }
  subst o.
  destruct (batch_process_results_size Demo.env Demo.fs ui "root" Demo.half
              "root/a/b/img2.jpg" ["root/a/img1.png"; "root/scan.jng"]
              t0 (100, 200, 500, 400)%Z eq_refl Hroi)
    as (t & results & Hrun & _ & Hnone).
  exists t. rewrite Hrun, Hnone; [reflexivity|].
  intros path [<-|[<-|[<-|[]]]]; reflexivity.
Defined.

(* ------------------------------------------------------------------ *)
(** ** More on the discovered paths *)

Module DiscoveryEdges.

Import Glob Tree StrFacts PosixpathFacts GlobFacts DepthFacts.

Lemma join_endswith :
  forall a b, Str.endswith (Posixpath.join a b) b = true.
Proof.
  intros a b. unfold Posixpath.join.
  destruct (Str.startswith_char Posixpath.sep b).
  - apply endswith_refl.
  - destruct (String.eqb a "" || Str.endswith_char Posixpath.sep a)%bool.
    + apply endswith_app, endswith_refl.
    + apply endswith_spec. exists (a ++ String Posixpath.sep "")%string.
      rewrite append_assoc. reflexivity.
Qed.

Lemma endswith_trans :
  forall s name suffix,
    Str.endswith s name = true -> Str.endswith name suffix = true ->
    Str.endswith s suffix = true.
Proof.
  intros s name suffix H1 H2. apply endswith_spec in H1, H2.
  destruct H1 as [p ->], H2 as [q ->]. apply endswith_spec.
  exists (p ++ q)%string. symmetry. apply append_assoc.
Qed.

(** Every path that [glob] returns for a pattern of the program ends in
    a name that the basename pattern matches. *)
Lemma glob_result_name :
  forall fs directory_path pattern p,
    has_magic directory_path = false ->
    Str.contains_char Posixpath.sep pattern = false ->
    has_magic pattern = true ->
    _isrecursive pattern = false ->
    In p (glob fs (Posixpath.join3 directory_path "**" pattern)) ->
    exists name,
      Fnmatch.fnmatchcase name pattern = true /\ Str.endswith p name = true.
Proof.
  intros fs D B p HD HB Hmagic Hrec Hin. unfold glob in Hin.
  rewrite (split_join3 D B HB) in Hin.
  pose proof (split_stars D) as Hstars.
  pose proof (scan_dir_magic D HD) as Hscan. unfold scan_dir in Hscan.
  destruct (Posixpath.split (Posixpath.join D "**")) as [d2 b2].
  simpl in Hstars, Hscan. subst b2.
  rewrite Hscan, Hmagic, Hrec in Hin. simpl andb in Hin. cbv iota in Hin.
  apply in_flat_map in Hin. destruct Hin as ([rel l] & _ & Hin).
  apply in_map_iff in Hin. destruct Hin as (name & <- & Hname).
  exists name. split; [|apply join_endswith].
  unfold _glob1, Fnmatch.filter in Hname. apply filter_In in Hname. tauto.
Qed.

End DiscoveryEdges.

(** X15. Whatever the tree, for a directory path without wildcard
    characters, every discovered path ends in ".jpg", ".jng", ".ppg",
    ".png" or ".jpeg", in lower case: these are the names that the two
    patterns of lines 126 and 127 match. *)
Theorem discover_suffixes :
  forall (fs : Glob.filesystem) (directory_path p : string),
    Glob.has_magic directory_path = false ->
    In p (discover fs directory_path) ->
    Str.endswith p ".jpg" = true \/ Str.endswith p ".jng" = true \/
    Str.endswith p ".ppg" = true \/ Str.endswith p ".png" = true \/
    Str.endswith p ".jpeg" = true.
Proof.
  intros fs D p HD Hin. apply DiscoveryFacts.discover_in in Hin.
  destruct Hin as [Hin _]. unfold scan in Hin. cbv zeta in Hin.
  apply (proj1 (SortedFacts.sorted_in _ _)) in Hin. apply in_app_iff in Hin.
  destruct Hin as [Hin|Hin];
    apply DiscoveryEdges.glob_result_name in Hin; try reflexivity; try exact HD;
    destruct Hin as (name & Hmatch & Hend).
  - rewrite FnmatchFacts.fnmatch_jpg_png in Hmatch.
    repeat (apply orb_true_iff in Hmatch; destruct Hmatch as [Hmatch|Hmatch]);
      pose proof (DiscoveryEdges.endswith_trans _ _ _ Hend Hmatch); tauto.
  - rewrite FnmatchFacts.fnmatch_jpeg in Hmatch.
    pose proof (DiscoveryEdges.endswith_trans _ _ _ Hend Hmatch). tauto.
Qed.

(** X15 on [scan.jng] of the demo tree. *)
Lemma discover_suffixes_witness :
  In "root/scan.jng" (discover Demo.fs "root") /\
  Str.endswith "root/scan.jng" ".jng" = true.
Proof.
  assert (Hin : In "root/scan.jng" (discover Demo.fs "root"))
    by (vm_compute; tauto).
  split; [exact Hin|].
  destruct (discover_suffixes Demo.fs "root" "root/scan.jng" eq_refl Hin)
    as [H|[H|[H|[H|H]]]]; try discriminate H.
  exact H.
Defined.

Module DepthEdges.

Import Glob Tree StrFacts PosixpathFacts GlobFacts DepthFacts.


Lemma path_of_plain :
  forall d segs,
    d <> ""%string -> Str.endswith_char Posixpath.sep d = false ->
    path_of d segs = (d ++ String Posixpath.sep (Str.join Posixpath.sep segs))%string.
Proof.
  intros d segs Hne Hend. unfold path_of.
  rewrite (scan_dir_plain d Hne Hend), (join_relative d "" eq_refl).
  apply String.eqb_neq in Hne. rewrite Hne, Hend. simpl orb. cbv iota.
  apply append_assoc.
Qed.



Lemma scanned_valid :
  forall d segs,
    well_formed (Dir d) = true -> scanned d segs ->
    segs <> [] /\ Forall (fun x => valid_name x = true) segs.
Proof.
  intros d segs Hwf (ys & name & -> & He & _). split.
  - intros H. apply app_eq_nil in H. destruct H. discriminate.
  - apply (DiscoveryFacts.has_entry_valid d ys name Hwf He).
Qed.

End DepthEdges.

(** X16. On a well-formed tree, for a directory path that holds no
    wildcard character, is not empty and does not end in the separator,
    the discovered paths are the scanned entries at most 4 names below
    the directory (an image in [d/a/b/c/] is kept, one in [d/a/b/c/e/]
    is not), each spelled as the directory path, a separator and the
    names joined by separators. *)
Theorem discover_plain_directory :
  forall (fs : Glob.filesystem) (directory_path p : string),
    Glob.has_magic directory_path = false ->
    Tree.well_formed (Glob.Dir (Glob.root fs)) = true ->
    directory_path <> ""%string ->
    Str.endswith_char Posixpath.sep directory_path = false ->
    (In p (discover fs directory_path) <->
     exists segs,
       p = (directory_path
            ++ String Posixpath.sep (Str.join Posixpath.sep segs))%string /\
       Tree.scanned (Glob.root fs) segs /\
       List.length segs <= 4).
Proof.
  intros fs D p HD Hwf Hne Hend.
  rewrite DiscoveryFacts.discover_in, (DiscoveryFacts.scan_in fs D p HD Hwf).
  split.
  - intros [(segs & -> & Hs) Hdepth].
    destruct (DepthEdges.scanned_valid _ _ Hwf Hs) as [H1 H2].
    rewrite (DepthFacts.depth_of_entry D segs Hne Hend H1 H2) in Hdepth.
    exists segs. split; [apply DepthEdges.path_of_plain; assumption|].
    split; [exact Hs | lia].
  - intros (segs & -> & Hs & Hlen).
    destruct (DepthEdges.scanned_valid _ _ Hwf Hs) as [H1 H2].
    rewrite <- (DepthEdges.path_of_plain D segs Hne Hend).
    split; [exists segs; split; [reflexivity | exact Hs]|].
    rewrite (DepthFacts.depth_of_entry D segs Hne Hend H1 H2). lia.
Qed.


(** X18. For a directory path without wildcard characters, on a
    well-formed tree in which every scanned entry lies beyond the depth
    bound (or that holds no image at all), [batch_process] raises
    "No images found" before anything else is done. *)
Theorem batch_process_nothing_within_depth :
  forall (E : Env) (fs : Glob.filesystem) (ui : list ui_event)
         (directory_path : string) (frequency : float E),
    Glob.has_magic directory_path = false ->
    Tree.well_formed (Glob.Dir (Glob.root fs)) = true ->
    (forall segs, Tree.scanned (Glob.root fs) segs ->
                  (4 < depth directory_path (Tree.path_of directory_path segs))%Z) ->
    batch_process E fs ui directory_path frequency = ([], Raised NoImagesFound).
Proof.
  intros E fs ui D frequency HD Hwf Hdeep. unfold batch_process.
  destruct (discover fs D) as [|first rest] eqn:Hpaths; [reflexivity|].
  exfalso.
  assert (Hin : In first (discover fs D)) by (rewrite Hpaths; left; reflexivity).
  apply DiscoveryFacts.discover_in in Hin. destruct Hin as [Hin Hdepth].
  apply (DiscoveryFacts.scan_in fs D first HD Hwf) in Hin.
  destruct Hin as (segs & -> & Hs). specialize (Hdeep segs Hs). lia.
Qed.

(** X16 on the demo tree scanned from "root". *)
Lemma discover_plain_directory_witness :
  exists segs,
    "root/a/b/img2.jpg"
    = ("root" ++ String Posixpath.sep (Str.join Posixpath.sep segs))%string /\
    Tree.scanned (Glob.root Demo.fs) segs /\
    List.length segs <= 4.
Proof.
  assert (Hin : In "root/a/b/img2.jpg" (discover Demo.fs "root"))
    by (vm_compute; tauto).
  assert (Hne : "root" <> ""%string) by discriminate.
  exact (proj1 (discover_plain_directory Demo.fs "root" "root/a/b/img2.jpg"
                  eq_refl eq_refl Hne eq_refl) Hin).
Defined.


(** X18 on the tree whose only image lies five names below "root". *)
Lemma batch_process_nothing_within_depth_witness :
  scan Demo.deep_fs "root" = ["root/a/b/c/d/img.png"] /\
  batch_process Demo.env Demo.deep_fs [Demo.drag; ConfirmClicked] "root" Demo.half
  = ([], Raised NoImagesFound).
Proof.
  split; [reflexivity|].
  apply (batch_process_nothing_within_depth Demo.env Demo.deep_fs
           [Demo.drag; ConfirmClicked] "root" Demo.half).
  - reflexivity.
  - reflexivity.
  - intros segs Hs.
    assert (Hin : In (Tree.path_of "root" segs) (scan Demo.deep_fs "root")).
    { apply (DiscoveryFacts.scan_in Demo.deep_fs "root" _ eq_refl eq_refl).
      exists segs. split; [reflexivity | exact Hs]. }
    change (scan Demo.deep_fs "root") with ["root/a/b/c/d/img.png"] in Hin.
    destruct Hin as [<-|[]]. vm_compute. reflexivity.
Defined.

(* ------------------------------------------------------------------ *)
(** ** The order of the listings *)

Module ListingOrder.

Import Glob Tree GlobFacts.

Lemma relisted_refl : forall n, relisted n n.
Proof.
  induction n as [|entries IH] using node_induction.
  - constructor.
  - constructor. induction entries as [|[x child] es IHes].
    + constructor.
    + inversion IH as [|? ? Hchild Hrest]; subst.
      constructor; [exact Hchild | apply IHes; exact Hrest].
Qed.

Lemma relisted_names :
  forall l l', relisted_entries l l' -> Permutation (map fst l) (map fst l').
Proof.
  apply (relisted_entries_mutual
           (fun _ _ => True)
           (fun l l' => Permutation (map fst l) (map fst l'))); intros; simpl.
  - exact I.
  - exact I.
  - constructor.
  - apply perm_skip. assumption.
  - apply perm_swap.
  - eapply perm_trans; eassumption.
Qed.

Lemma relisted_content :
  forall n n', relisted n n' ->
               is_dir n = is_dir n' /\ relisted_entries (content n) (content n').
Proof.
  intros n n' H. destruct H.
  - split; [reflexivity | constructor].
  - split; [reflexivity | assumption].
Qed.

Lemma filter_perm {A : Type} (f : A -> bool) :
  forall l l', Permutation l l' -> Permutation (filter f l) (filter f l').
Proof.
  intros l l' H. induction H as [|x l l' H IH|x y l|l1 l2 l3 H1 IH1 H2 IH2]; simpl.
  - constructor.
  - destruct (f x); [apply perm_skip|]; exact IH.
  - destruct (f x), (f y); try apply Permutation_refl. apply perm_swap.
  - eapply perm_trans; eassumption.
Qed.

Lemma flat_map_map_compose {A B C : Type} (f : B -> list C) (g : A -> B) :
  forall l, flat_map f (map g l) = flat_map (fun a => f (g a)) l.
Proof.
  induction l as [|a l IH]; simpl; [reflexivity | now rewrite IH].
Qed.

(** The names that [_glob1] returns do not depend on the order of the
    listing, up to their own order. *)
Lemma glob1_relisted :
  forall l l' pattern,
    relisted_entries l l' ->
    Permutation (_glob1 l pattern false) (_glob1 l' pattern false).
Proof.
  intros l l' pattern H. unfold _glob1, Fnmatch.filter.
  rewrite !listdir_all. apply filter_perm.
  apply relisted_names in H.
  destruct (negb (_ishidden pattern)); [apply filter_perm|]; exact H.
Qed.

(** What is found below a directory does not depend on the order of the
    listings, up to its own order. [F] is what is looked for in one
    directory, given the name that leads to it. *)
Lemma rlistdir_relisted (F : string -> listing -> list string) :
  (forall rel l l', relisted_entries l l' -> Permutation (F rel l) (F rel l')) ->
  (forall n n',
      relisted n n' ->
      forall rho : string -> string,
        Permutation
          (flat_map (fun yl => F (rho (fst yl)) (snd yl)) (_rlistdir n))
          (flat_map (fun yl => F (rho (fst yl)) (snd yl)) (_rlistdir n')))
  /\
  (forall l l',
      relisted_entries l l' ->
      forall rho : string -> string,
        Permutation
          (flat_map (fun yl => F (rho (fst yl)) (snd yl)) (_rlistdir (Dir l)))
          (flat_map (fun yl => F (rho (fst yl)) (snd yl)) (_rlistdir (Dir l')))).
Proof.
  intros HF. apply relisted_both.
  - intros rho. apply Permutation_refl.
  - intros l l' _ IH rho. apply IH.
  - intros rho. apply Permutation_refl.
  - intros x n n' l l' Hn IHn Hl IHl rho.
    rewrite !rlistdir_cons, !flat_map_app.
    apply Permutation_app; [|apply IHl].
    destruct (relisted_content n n' Hn) as [Hdir Hcontent].
    rewrite <- Hdir.
    destruct (is_dir n && negb (_ishidden x))%bool; [|apply Permutation_refl].
    cbn [flat_map fst snd]. apply Permutation_app.
    + apply HF. exact Hcontent.
    + rewrite !flat_map_map_compose. cbn [fst snd].
      apply (IHn (fun y => rho (_join x y))).
  - intros [x1 n1] [x2 n2] l rho.
    rewrite !rlistdir_cons, !flat_map_app.
    apply Permutation_app_swap_app.
  - intros l1 l2 l3 _ IH1 _ IH2 rho.
    eapply perm_trans; [apply IH1 | apply IH2].
Qed.

Lemma glob_relisted :
  forall fs fs' pathname,
    relisted_entries (root fs) (root fs') ->
    (forall p, elsewhere fs p = elsewhere fs' p) ->
    Permutation (glob fs pathname) (glob fs' pathname).
Proof.
  intros fs fs' pathname Hroot Helse. unfold glob.
  destruct (Posixpath.split pathname) as [dirname basename].
  destruct (Posixpath.split dirname) as [dirname2 basename2].
  destruct (_isrecursive basename2 && negb (has_magic dirname2)
            && has_magic basename && negb (_isrecursive basename))%bool.
  - unfold _glob2. cbn [flat_map fst snd]. apply Permutation_app.
    + apply Permutation_map. apply glob1_relisted. exact Hroot.
    + destruct (rlistdir_relisted
                  (fun rel l =>
                     map (Posixpath.join (Posixpath.join dirname2 rel))
                         (_glob1 l basename false))) as [_ H].
      * intros rel l l' Hl. apply Permutation_map. apply glob1_relisted. exact Hl.
      * apply (H (root fs) (root fs') Hroot (fun y => y)).
  - rewrite Helse. apply Permutation_refl.
Qed.

(** Two ascending lists with the same elements are the same list. *)
Lemma ordered_unique :
  forall l l',
    StronglySorted Str.le l -> StronglySorted Str.le l' ->
    Permutation l l' -> l = l'.
Proof.
  induction l as [|x l IH]; intros l' Hl Hl' Hperm.
  - apply Permutation_nil in Hperm. subst. reflexivity.
  - destruct l' as [|y l'].
    + apply Permutation_sym, Permutation_nil in Hperm. discriminate Hperm.
    + inversion Hl as [|? ? Hl1 Hx]; subst.
      inversion Hl' as [|? ? Hl1' Hy]; subst.
      assert (Hxy : x = y).
      { assert (Hin1 : In x (y :: l'))
          by (eapply Permutation_in; [exact Hperm | left; reflexivity]).
        assert (Hin2 : In y (x :: l))
          by (eapply Permutation_in;
              [apply Permutation_sym; exact Hperm | left; reflexivity]).
        destruct Hin1 as [->|Hin1]; [reflexivity|].
        destruct Hin2 as [->|Hin2]; [reflexivity|].
        rewrite Forall_forall in Hx, Hy.
        apply String.leb_antisym; [apply Hx | apply Hy]; assumption. }
      subst y. f_equal. apply IH; try assumption.
      apply Permutation_cons_inv in Hperm. exact Hperm.
Qed.

Lemma sorted_perm_eq :
  forall l l', Permutation l l' -> sorted l = sorted l'.
Proof.
  intros l l' H. apply ordered_unique; try apply SortedFacts.sorted_ordered.
  eapply perm_trans; [apply Permutation_sym, SortedFacts.sorted_perm|].
  eapply perm_trans; [exact H | apply SortedFacts.sorted_perm].
Qed.

End ListingOrder.

(** X19. The run does not depend on the order in which the directories
    are listed: on two trees that differ only in the order of the
    entries of their directories, at any depth, the same paths are
    discovered in the same order and [batch_process] does the same. *)
Theorem batch_process_listing_order :
  forall (E : Env) (fs fs' : Glob.filesystem) (ui : list ui_event)
         (directory_path : string) (frequency : float E),
    Tree.relisted_entries (Glob.root fs) (Glob.root fs') ->
    (forall p, Glob.elsewhere fs p = Glob.elsewhere fs' p) ->
    discover fs directory_path = discover fs' directory_path /\
    batch_process E fs ui directory_path frequency
    = batch_process E fs' ui directory_path frequency.
Proof.
  intros E fs fs' ui D frequency Hroot Helse.
  assert (Hscan : scan fs D = scan fs' D).
  { unfold scan. cbv zeta. apply ListingOrder.sorted_perm_eq.
    apply Permutation_app; apply ListingOrder.glob_relisted; assumption. }
  assert (Hdisc : discover fs D = discover fs' D).
  { unfold discover. rewrite Hscan. reflexivity. }
  split; [exact Hdisc|].
  unfold batch_process. rewrite Hdisc. reflexivity.
Qed.

(** X19 on the demo tree and the same tree listed in another order. *)
Lemma batch_process_listing_order_witness :
  Tree.relisted_entries (Glob.root Demo.fs) (Glob.root Demo.relisted_fs) /\
  discover Demo.fs "root" = discover Demo.relisted_fs "root" /\
  batch_process Demo.env Demo.fs [Demo.drag; ConfirmClicked] "root" Demo.half
  = batch_process Demo.env Demo.relisted_fs [Demo.drag; ConfirmClicked] "root"
                  Demo.half.
Proof.
  assert (H : Tree.relisted_entries (Glob.root Demo.fs)
                                    (Glob.root Demo.relisted_fs)).
  { eapply Tree.relisted_trans.
    - apply Tree.relisted_skip.
      + apply Tree.relisted_dir. apply Tree.relisted_swap.
      + apply Tree.relisted_skip; [apply ListingOrder.relisted_refl|].
        apply Tree.relisted_skip; [apply ListingOrder.relisted_refl|].
        apply Tree.relisted_skip; [apply ListingOrder.relisted_refl|].
        apply Tree.relisted_nil.
    - apply Tree.relisted_swap. }
  split; [exact H|].
  apply (batch_process_listing_order Demo.env Demo.fs Demo.relisted_fs
           [Demo.drag; ConfirmClicked] "root" Demo.half H).
  intros p. reflexivity.
Defined.
